(** * Clustered bootstrap with LASSO for Barten scale economies

    A shallow embedding of [scale_econs_bootstrap_lasso.py] and the
    properties of its replication path and of its main program.

    Conventions of the embedding.
    - NumPy floating-point arrays are lists of real numbers: a vector is a
      [list R], an N*P matrix is the list of its N rows.  Arithmetic is the
      exact arithmetic of [R]; rounding, infinities and NaN are not
      modelled.
    - 0/1 indicator columns (type flags, province and year dummies) are
      integers ([Z]), so that the tests [== 1] and [.sum() == 1] compute.
    - Row and column positions are [nat].  An operation that raises in
      Python ([IndexError], [KeyError], [ValueError]) returns [None].
    - Column names are [string]s, built as the f-strings of the source
      build them.
    - The numerical work of other packages is a parameter: the repair
      [NPD.nearestPD] is a function variable, the coefficients of a fitted
      [SUR] system are given values under the names [linearmodels] gives
      them. *)

From Stdlib Require Import String Ascii DecimalString DecimalNat.
From Stdlib Require Import List Sorted Arith Lia ZArith Bool.
From Stdlib Require Import Reals Lra.
Import ListNotations.

Open Scope R_scope.

(** ** Vectors and matrices *)

Abbreviation vec := (list R).
Abbreviation matrix := (list (list R)).

(** [var.shape[1]] of a two-dimensional array given by its rows. *)
Definition ncols (m : matrix) : nat :=
  match m with
  | [] => 0%nat
  | r :: _ => length r
  end.

(** The rows of [m] all have [p] entries and there are [n] of them. *)
Definition is_matrix (n p : nat) (m : matrix) : Prop :=
  length m = n /\ Forall (fun r => length r = p) m.

(** [np.zeros((n, p))]. *)
Definition zeros (n p : nat) : matrix := repeat (repeat 0 p) n.

Definition Rsum (l : list R) : R := fold_right Rplus 0 l.

(** [x.mean()] of a one-dimensional array. *)
Definition mean (l : list R) : R := Rsum l / INR (length l).

(** [m[i, j]]. *)
Definition entry (m : matrix) (i j : nat) : R := nth j (nth i m []) 0.

(** [m[:, j]]. *)
Definition col (j : nat) (m : matrix) : vec := map (fun r => nth j r 0) m.

(** [m.mean(axis=0)] for a matrix of [p] columns. *)
Definition mean_axis0 (p : nat) (m : matrix) : vec :=
  map (fun j => mean (col j m)) (seq 0 p).

(** Elementwise [a - b] of two vectors of one length. *)
Definition vsub (a b : vec) : vec :=
  map (fun xy => fst xy - snd xy) (combine a b).

(** Elementwise [a / b] of two vectors of one length. *)
Definition vdiv (a b : vec) : vec :=
  map (fun xy => fst xy / snd xy) (combine a b).

(** Column [j] of a matrix of indicators. *)
Definition colZ (j : nat) (m : list (list Z)) : list Z :=
  map (fun r => nth j r 0%Z) m.

Definition Zsum (l : list Z) : Z := fold_right Z.add 0%Z l.

(** ** Index arrays *)

(** A list comprehension whose body may raise. *)
Fixpoint map_opt {A B : Type} (f : A -> option B) (l : list A) : option (list B) :=
  match l with
  | [] => Some []
  | x :: rest =>
      match f x, map_opt f rest with
      | Some y, Some ys => Some (y :: ys)
      | _, _ => None
      end
  end.

(** [a[index]] with an integer index array: [IndexError] when a position
    is out of range. *)
Fixpoint np_take {A : Type} (a : list A) (index : list nat) : option (list A) :=
  match index with
  | [] => Some []
  | i :: rest =>
      match nth_error a i, np_take a rest with
      | Some x, Some xs => Some (x :: xs)
      | _, _ => None
      end
  end.

(** [a[i] = x] for [i] in range. *)
Fixpoint upd {A : Type} (a : list A) (i : nat) (x : A) : list A :=
  match a, i with
  | [], _ => []
  | _ :: t, O => x :: t
  | h :: t, S i' => h :: upd t i' x
  end.

(** [a[index] = vals]: the positions are written in order, so that the
    last value wins at a repeated position. *)
Fixpoint np_put {A : Type} (a : list A) (index : list nat) (vals : list A) : list A :=
  match index, vals with
  | i :: index', x :: vals' => np_put (upd a i x) index' vals'
  | _, _ => a
  end.

(** Insertion into a strictly increasing list. *)
Fixpoint insert_sorted (x : nat) (l : list nat) : list nat :=
  match l with
  | [] => [x]
  | y :: t =>
      if (x <? y)%nat then x :: l
      else if (x =? y)%nat then l
      else y :: insert_sorted x t
  end.

(** [np.unique(l)]: the distinct values of [l], increasing. *)
Definition np_unique (l : list nat) : list nat := fold_right insert_sorted [] l.

(** [np.arange(start, stop, step)] for a positive [step]. *)
Definition np_arange (start stop step : nat) : list nat :=
  map (fun m => (start + m * step)%nat)
      (seq 0 ((stop - start + step - 1) / step)).

(** [data[indicator == 1]] with a boolean mask; a mask of another length
    than the data is an [IndexError]. *)
Definition mask_rows {A : Type} (indicator : list Z) (data : list A) : list A :=
  map snd (filter (fun p => (fst p =? 1)%Z) (combine indicator data)).

Definition np_mask {A : Type} (indicator : list Z) (data : list A) : option (list A) :=
  if (length indicator =? length data)%nat
  then Some (mask_rows indicator data) else None.

(** ** Group demeaning *)

(** The group assignment [gt] is the result of
    [csr_array(indicators).nonzero()]: the coordinates (row, column) of
    the nonzero entries, i.e. (observation, group) pairs.  [gt[0]] is
    [map fst gt] and [gt[1]] is [map snd gt]. *)
Definition coords := list (nat * nat).

(** [gt[0][np.where(gt[1] == i)]]. *)
Definition group_rows (gt : coords) (i : nat) : list nat :=
  map fst (filter (fun rc => (snd rc =? i)%nat) gt).

(** One pass of the loop body [out[index] = f(var[index])]. *)
Definition group_step {A : Type} (f : list A -> list A) (var : list A)
    (gt : coords) (acc : option (list A)) (i : nat) : option (list A) :=
  match acc with
  | None => None
  | Some out =>
      let index := group_rows gt i in
      match np_take var index with
      | None => None
      | Some sel => Some (np_put out index (f sel))
      end
  end.

(** [for i in np.unique(gt[1]): index = ...; out[index] = f(var[index])],
    the loop of [demean] and of the residual preparation. *)
Definition group_loop {A : Type} (f : list A -> list A) (var out0 : list A)
    (gt : coords) : option (list A) :=
  fold_left (group_step f var gt) (np_unique (map snd gt)) (Some out0).

(** [sel - sel.mean(axis=0)] for the selected rows [sel]. *)
Definition center_rows (p : nat) (sel : matrix) : matrix :=
  map (fun r => vsub r (mean_axis0 p sel)) sel.

(** [demean(var, gt)]. *)
Definition demean (var : matrix) (gt : coords) : option matrix :=
  group_loop (center_rows (ncols var)) var (zeros (length var) (ncols var)) gt.

(** [sel - np.mean(sel)] for the selected entries of a vector. *)
Definition center (sel : vec) : vec := map (fun x => x - mean sel) sel.

(** ** Correlation from covariance *)

(** [np.diag(m)] of a two-dimensional array. *)
Definition np_diag (m : matrix) : vec :=
  map (fun i => entry m i i) (seq 0 (Nat.min (length m) (ncols m))).

(** [np.outer(u, v)]. *)
Definition np_outer (u v : vec) : matrix :=
  map (fun x => map (fun y => x * y) v) u.

(** Elementwise [a / b] of two matrices of one shape. *)
Definition mdiv (a b : matrix) : matrix :=
  map (fun rs => vdiv (fst rs) (snd rs)) (combine a b).

(** [cov_to_cor(cov)] for a square matrix [cov], for which [cov] and
    [np.outer(v, v)] have one shape. *)
Definition cov_to_cor (cov : matrix) : matrix :=
  let v := map sqrt (np_diag cov) in
  mdiv cov (np_outer v v).

(** ** Products *)

(** The sum of the products of the entries of two vectors. *)
Definition dot (a b : vec) : R :=
  Rsum (map (fun xy => fst xy * snd xy) (combine a b)).

(** The vector of the products of [x] with the columns of [m]. *)
Definition vecmat (x : vec) (m : matrix) : vec :=
  map (fun j => dot x (col j m)) (seq 0 (ncols m)).

(** The quadratic form x' m y. *)
Definition quad_form (x : vec) (m : matrix) (y : vec) : R :=
  dot (vecmat x m) y.

(** [a @ b] of two one-dimensional arrays: a [ValueError] unless they
    have one length. *)
Definition np_dot (a b : vec) : option R :=
  if (length a =? length b)%nat then Some (dot a b) else None.

(** [x @ m] of a one-dimensional and a two-dimensional array: a
    [ValueError] unless [x] has as many entries as [m] has rows. *)
Definition np_vecmat (x : vec) (m : matrix) : option vec :=
  if (length x =? length m)%nat then Some (vecmat x m) else None.

(** [x @ m @ y], evaluated from the left as Python does. *)
Definition np_quad (x : vec) (m : matrix) (y : vec) : option R :=
  match np_vecmat x m with
  | Some v => np_dot v y
  | None => None
  end.

(** [x @ beta[:, None]]: every row of [x] must have as many entries as
    [beta], or the product is a [ValueError]. *)
Definition np_matvec (x : matrix) (beta : vec) : option vec :=
  map_opt (fun row => if (length row =? length beta)%nat
                      then Some (dot row beta) else None) x.

(** ** Barten scales *)

(** [a / b] of two one-dimensional arrays under NumPy broadcasting: equal
    lengths divide elementwise, a length-one operand is stretched, any
    other pair of lengths is a [ValueError]. *)
Definition np_divide (a b : vec) : option vec :=
  if (length a =? length b)%nat then Some (vdiv a b)
  else match a, b with
       | [x], _ => Some (map (fun y => x / y) b)
       | _, [y] => Some (map (fun x => x / y) a)
       | _, _ => None
       end.

(** [barten(theta, num_eq)]. *)
Definition barten (theta : vec) (num_eq : nat) : option vec :=
  let b_s := firstn num_eq theta in
  let b_h := skipn num_eq theta in
  np_divide b_h b_s.

(** ** Scale-economies index *)

(** [pd.DataFrame(m).cov().values] for a matrix of [p] columns: the
    sample covariance of the columns, normalised by the number of rows
    minus one. *)
Definition sample_cov (p : nat) (m : matrix) : matrix :=
  let mu := mean_axis0 p m in
  map (fun a =>
         map (fun b =>
                Rsum (map (fun r => (nth a r 0 - nth a mu 0) * (nth b r 0 - nth b mu 0)) m)
                / (INR (length m) - 1))
             (seq 0 p))
      (seq 0 p).

(** The block matrix with [c] in the upper left corner and zeros in the
    added row and column. *)
Definition block_pad (k : nat) (c : matrix) : matrix :=
  map (fun r => r ++ [0]) c ++ [repeat 0 (k + 1)].

(** [np.block([[c, np.zeros((k, 1))], [np.zeros((1, k + 1))]])]: a
    [ValueError] unless [c] is k*k. *)
Definition np_block_pad (k : nat) (c : matrix) : option matrix :=
  if ((length c =? k)%nat && forallb (fun r => (length r =? k)%nat) c)%bool
  then Some (block_pad k c) else None.

(** The body of the loop of [scale] for household type [i]. *)
Definition scale_type (barten_df : list vec) (cov : list matrix)
    (w_bar : vec) (w_cov : matrix) (k i : nat) : option R :=
  match nth_error barten_df i, nth_error cov i with
  | Some b, Some c =>
      let barten_full := b ++ [1] in
      match np_block_pad k c with
      | Some barten_cov_full =>
          match np_quad barten_full w_cov barten_full,
                np_quad w_bar barten_cov_full w_bar with
          | Some q1, Some q2 => Some (sqrt (q1 + q2))
          | _, _ => None
          end
      | None => None
      end
  | _, _ => None
  end.

(** [scale(barten, cov, data, single_indicator, TYPE, NAME_w)].  The
    dataframe [barten] is the list of its columns (one per household
    type), the three-dimensional [cov] the list of its [cov[:, :, i]];
    [ntype] is [len(TYPE)] and [k] is [len(NAME_w)]. *)
Definition scale (barten_df : list vec) (cov : list matrix) (data : matrix)
    (single_indicator : list Z) (ntype k : nat) : option vec :=
  match np_mask single_indicator data with
  | Some sel =>
      let w_bar := mean_axis0 (ncols data) sel in
      let w_cov := sample_cov (ncols data) sel in
      map_opt (scale_type barten_df cov w_bar w_cov k) (seq 0 ntype)
  | None => None
  end.

(** ** Column names *)

Open Scope string_scope.

(** [f'{n}'] for a non-negative integer. *)
Definition str (n : nat) : string := NilEmpty.string_of_uint (Nat.to_uint n).

(** [pat in s]. *)
Fixpoint str_contains (s pat : string) : bool :=
  prefix pat s ||
  match s with
  | EmptyString => false
  | String _ s' => str_contains s' pat
  end.

(** [s.replace(old, new)] for a non-empty [old]; [skip] counts the
    characters of a match that are still to be passed over. *)
Fixpoint str_replace_from (old new : string) (skip : nat) (s : string) : string :=
  match s with
  | EmptyString => EmptyString
  | String c s' =>
      match skip with
      | S k => str_replace_from old new k s'
      | O =>
          if prefix old s
          then new ++ str_replace_from old new (String.length old - 1) s'
          else String c (str_replace_from old new 0 s')
      end
  end.

Definition str_replace (old new s : string) : string :=
  str_replace_from old new 0 s.

(** The keyword arguments of [bootstrap]. *)
Record config : Type := {
  TYPE : list nat;
  SHAREABLE : list nat;
  NONSHAREABLE : nat;
  DEMOG : list nat
}.

(** The defaults of [bootstrap], which are also the constants of the
    main program. *)
Definition reference : config :=
  {| TYPE := [24; 27; 28]%nat;
     SHAREABLE := [1; 2; 8; 17; 19]%nat;
     NONSHAREABLE := 6%nat;
     DEMOG := [1; 2]%nat |}.

Section Names.
Variable cfg : config.

(** [[f'h{i+1}' for i in range(len(TYPE))]]. *)
Definition NAME_h : list string :=
  map (fun i => "h" ++ str (i + 1)) (seq 0 (length (TYPE cfg))).

Definition NAME_t : list string := (["sm"; "sf"] ++ NAME_h)%list.

Definition NAME_t_single : list string := (["s"] ++ NAME_h)%list.

Definition NAME_w : list string :=
  map (fun i => "w" ++ str i) (SHAREABLE cfg).

(** [[f'er{SHAREABLE[i]}y_{tt}' for tt in NAME_t_single
      for i in range(len(SHAREABLE))]]. *)
Definition NAME_eryt : list string :=
  flat_map (fun tt => map (fun s => "er" ++ str s ++ "y_" ++ tt) (SHAREABLE cfg))
           NAME_t_single.

(** [[f'z{DEMOG[i]}_{tt}' for tt in NAME_t for i in range(len(DEMOG))]]. *)
Definition NAME_zt : list string :=
  flat_map (fun tt => map (fun d => "z" ++ str d ++ "_" ++ tt) (DEMOG cfg))
           NAME_t.

(** The regressors of the mean equation of good [s]:
    [[col for col in NAME_eryt if f"er{s}y_" in col] + NAME_zt]. *)
Definition mean_exog (s : nat) : list string :=
  (filter (fun c => str_contains c ("er" ++ str s ++ "y_")) NAME_eryt
   ++ NAME_zt)%list.

Definition mean_eqs : list (list string) := map mean_exog (SHAREABLE cfg).

(** The pairs (SHAREABLE[i], SHAREABLE[j]) with i <= j, in the order of
    the two nested loops. *)
Definition good_pairs : list (nat * nat) :=
  let s := SHAREABLE cfg in
  flat_map (fun i => map (fun j => (nth i s 0%nat, nth j s 0%nat))
                         (seq i (length s - i)))
           (seq 0 (length s)).

Definition pair_name (ab : nat * nat) : string :=
  str (fst ab) ++ "." ++ str (snd ab).

Definition NAME_res_crossprod : list string :=
  map (fun ab => "res" ++ pair_name ab) good_pairs.

Definition NAME_bery_crossprod : list string :=
  map (fun ab => "ber" ++ pair_name ab ++ "y_prod") good_pairs.

Definition NAME_bery_crosssum : list string :=
  map (fun ab => "ber" ++ pair_name ab ++ "y_sum") good_pairs.
End Names.

(** [[f'g{i+1}' for i in range(ngroup)]]. *)
Definition NAME_g (ngroup : nat) : list string :=
  map (fun i => "g" ++ str (i + 1)) (seq 0 ngroup).

(** The index of the coefficients of a fitted SUR system:
    [linearmodels] names each one [<equation label>_<regressor>], equation
    by equation; the labels are [f'eq{i+1}']. *)
Definition SUR_param_names (eqs : list (list string)) : list string :=
  concat (map (fun ie => map (fun c => "eq" ++ str (fst ie + 1) ++ "_" ++ c) (snd ie))
              (combine (seq 0 (length eqs)) eqs)).

(** A fitted coefficient vector, as a pandas series: names and values. *)
Abbreviation series := (list (string * R)).

(** The coefficients of a fitted SUR system.  The numerical fit is the
    work of [linearmodels] and is taken to succeed; [fit] stands for the
    value it assigns to each named coefficient. *)
Definition SUR_fit (fit : string -> R) (eqs : list (list string)) : series :=
  map (fun n => (n, fit n)) (SUR_param_names eqs).

(** [params[mask]] for a mask computed from the names. *)
Definition params_where (p : string -> bool) (params : series) : series :=
  filter (fun nv => p (fst nv)) params.

(** [params[params.index.str.contains("prod")]]. *)
Definition prod_params (params : series) : vec :=
  map snd (params_where (fun n => str_contains n "prod") params).

(** [barten_results(mean_est, TYPE=TYPE, NAME_w=NAME_w)], as the list of
    the columns [h0], [h1], ... of the dataframe.  Assigning a column
    whose length is not [len(NAME_w)] is a [ValueError]. *)
Fixpoint barten_columns (params : series) (k : nat) (types : list nat) : option (list vec) :=
  match types with
  | [] => Some []
  | i :: rest =>
      let theta_s :=
        params_where (fun n => str_contains n "s" && negb (str_contains n "z")) params in
      let theta_h :=
        params_where (fun n => str_contains n ("h" ++ str (i + 1))
                               && negb (str_contains n "z")) params in
      let theta := (map snd theta_s ++ map snd theta_h)%list in
      match barten theta k, barten_columns params k rest with
      | Some a, Some cols =>
          if (length a =? k)%nat then Some (a :: cols) else None
      | _, _ => None
      end
  end.

Definition barten_results (params : series) (ntype k : nat) : option (list vec) :=
  barten_columns params k (seq 0 ntype).

Close Scope string_scope.

(** ** Group-type cells and the exclusion of singleton cells *)

(** The indicator columns of one observation: sex [z3], single [z23], the
    household types [z{i} for i in TYPE], and the two blocks of cell
    dummies [z29..z37] and [z38..z50]. *)
Record flags : Type := {
  z3 : Z;
  z23 : Z;
  z_type : list Z;
  z_29_37 : list Z;
  z_38_50 : list Z
}.

(** One row of [(a[:, None] * b[..., None]).reshape(n, -1)], where [inner]
    is the row of [a] and [outer] the row of [b]. *)
Definition outer_flat (inner outer : list Z) : list Z :=
  flat_map (fun o => map (fun i => (i * o)%Z) inner) outer.

(** [np.where(cond, 1, 0)]. *)
Definition where_1_0 (cond : bool) : Z := if cond then 1%Z else 0%Z.

(** The row of [g]: province-year groups. *)
Definition g_row (o : flags) : list Z := outer_flat (z_38_50 o) (z_29_37 o).

(** The row of [t]: single male, single female, then the household
    types. *)
Definition t_row (o : flags) : list Z :=
  where_1_0 ((z23 o =? 1)%Z && (z3 o =? 0)%Z)
  :: where_1_0 ((z23 o =? 1)%Z && (z3 o =? 1)%Z)
  :: map (fun z => where_1_0 (z =? 1)%Z) (z_type o).

(** The row of [gt]: group-type cells. *)
Definition gt_row (o : flags) : list Z := outer_flat (g_row o) (t_row o).

Definition gt_matrix (rows : list flags) : list (list Z) := map gt_row rows.

(** [gt.shape[1]]. *)
Definition ncolsZ (m : list (list Z)) : nat :=
  match m with
  | [] => 0%nat
  | r :: _ => length r
  end.

(** Positions of the entries equal to 1: [gt.index[gt[i] == 1]] after
    [reset_index]. *)
Definition positions_of_one (column : list Z) : list nat :=
  map fst (filter (fun kv => (snd kv =? 1)%Z)
                  (combine (seq 0 (length column)) column)).

(** [gt[i][gt[i] == 1].index] when the rows carry the labels [index]. *)
Definition labels_of_one (index : list nat) (column : list Z) : list nat :=
  map (fun k => nth k index 0%nat) (positions_of_one column).

(** Replication path:
    [[i for i in range(gt.shape[1])
      if len(np.unique(gt[i][gt[i] == 1].index)) == 1]]. *)
Definition gt_excluded_boot (index : list nat) (gt : list (list Z)) : list nat :=
  filter (fun i => (length (np_unique (labels_of_one index (colZ i gt))) =? 1)%nat)
         (seq 0 (ncolsZ gt)).

(** Replication path:
    [sum([gt.index[gt[i] == 1].tolist() for i in gt_excluded], [])]. *)
Definition idx_excluded_boot (index : list nat) (gt : list (list Z)) : list nat :=
  flat_map (fun i => positions_of_one (colZ i gt)) (gt_excluded_boot index gt).

(** Point-estimate path:
    [[i for i in range(gt.shape[1]) if gt[i].sum() == 1]]. *)
Definition gt_excluded_point (gt : list (list Z)) : list nat :=
  filter (fun i => (Zsum (colZ i gt) =? 1)%Z) (seq 0 (ncolsZ gt)).

(** Point-estimate path:
    [[gt.index[gt[c] == 1].tolist()[0] for c in gt_excluded]]; an empty
    list of positions is an [IndexError]. *)
Definition idx_excluded_point (gt : list (list Z)) : option (list nat) :=
  map_opt (fun c => hd_error (positions_of_one (colZ c gt))) (gt_excluded_point gt).

(** The frame [gt] of the rows of [shs_data].  Both [g] and [gt] are
    built with [.reshape(shs_data.shape[0], -1)]: with no row the length
    of the second axis cannot be inferred from an array of size 0, and
    [reshape] raises a [ValueError]. *)
Definition gt_frame (rows : list flags) : option (list (list Z)) :=
  match rows with
  | [] => None
  | _ :: _ => Some (gt_matrix rows)
  end.

(** The observations dropped by a replication: the rows are
    [shs_data.loc[resampling]] and keep the resampled labels until the
    exclusion list is built. *)
Definition bootstrap_excluded (base : list flags) (resampling : list nat)
  : option (list nat) :=
  match np_take base resampling with
  | Some rows =>
      match gt_frame rows with
      | Some gt => Some (idx_excluded_boot resampling gt)
      | None => None
      end
  | None => None
  end.

(** The observations dropped by the point-estimate pass on [rows]. *)
Definition point_excluded (rows : list flags) : option (list nat) :=
  match gt_frame rows with
  | Some gt => idx_excluded_point gt
  | None => None
  end.

(** [t_single] from [t]: the two single columns are added. *)
Definition t_single_row (t_row : list Z) : list Z :=
  (nth 0 t_row 0 + nth 1 t_row 0)%Z :: skipn 2 t_row.

(** ** Residuals of the mean stage *)

(** One row of [(a[:, None] * b[..., None]).reshape(n, -1)] for real
    arrays. *)
Definition outer_flatR (inner outer : vec) : vec :=
  flat_map (fun o => map (fun i => i * o) inner) outer.

(** One observation of the working sample: budget shares [w],
    exponentiated relative prices [er], log real outlay [y], demographics
    [z] and type indicators [t]. *)
Record design : Type := {
  w_of : vec;
  er_of : vec;
  y_of : R;
  z_of : vec;
  t_of : list Z
}.

Section VariancePreparation.
Variable cfg : config.
Variable sample : list design.
Variable gt : coords.
(** [mean_boot_est.params]. *)
Variable params : series.

(** The row of [eryt = (ery[:, None] * t_single[..., None]).reshape(...)]
    with [ery = er * y[:, None]]. *)
Definition eryt_row (o : design) : vec :=
  outer_flatR (map (fun e => e * y_of o) (er_of o))
              (map IZR (t_single_row (t_of o))).

(** The row of [zt = (z[:, None] * t[..., None]).reshape(...)]. *)
Definition zt_row (o : design) : vec :=
  outer_flatR (z_of o) (map IZR (t_of o)).

(** The row of
    [np.hstack((eryt[:, np.arange(i, len(NAME_eryt), len(SHAREABLE))], zt))]. *)
Definition hstack_row (i : nat) (o : design) : option vec :=
  match np_take (eryt_row o)
          (np_arange i (length (NAME_eryt cfg)) (length (SHAREABLE cfg))) with
  | Some sel => Some (sel ++ zt_row o)
  | None => None
  end.

(** [mean_boot_est.params.filter(like=f'eq{i+1}').values]. *)
Definition eq_params (i : nat) : vec :=
  map snd (params_where (fun n => str_contains n ("eq" ++ str (i + 1))%string) params).

(** The predictions [hstack(...) @ params[:, None]] of equation [i]. *)
Definition predicted (i : nat) : option vec :=
  match map_opt (hstack_row i) sample with
  | Some x => np_matvec x (eq_params i)
  | None => None
  end.

(** [fres] of good [i]. *)
Definition fitted_residual (i : nat) : option vec :=
  match predicted i with
  | Some pred => Some (vsub (map (fun o => nth i (w_of o) 0) sample) pred)
  | None => None
  end.

(** Column [i] of [res] after the loop over the gt groups:
    [res[index, i] = fres[index] - np.mean(fres[index])].  Pass [i] of the
    outer loop is the only one that writes column [i]. *)
Definition res_column (i : nat) : option vec :=
  match fitted_residual i with
  | Some fres => group_loop center fres (repeat 0 (length sample)) gt
  | None => None
  end.

(** Following the words of the specification: the residual as predicted
    minus actual budget share. *)
Definition claimed_residual (i : nat) : option vec :=
  match predicted i with
  | Some pred => Some (vsub pred (map (fun o => nth i (w_of o) 0) sample))
  | None => None
  end.
End VariancePreparation.

(** ** Variance equations *)

Open Scope string_scope.

Section VarianceEquations.
Variable cfg : config.
(** [res_boot[NAME_g]]: the group indicators of the observations of
    one household type; [ngroup] is the number of group columns. *)
Variable res_boot_g : list (list Z).
Variable ngroup : nat.

(** [[i for i in NAME_g if res_boot[i].sum() >= 2]]. *)
Definition g_included : list string :=
  map snd
    (filter (fun kn => (2 <=? Zsum (colZ (fst kn) res_boot_g))%Z)
            (combine (seq 0 ngroup) (NAME_g ngroup))).

(** [[f'{i}_{j}' for i in g_included for j in NAME_bery_crosssum]]. *)
Definition g_bery_included : list string :=
  flat_map (fun i => map (fun j => i ++ "_" ++ j) (NAME_bery_crosssum cfg))
           g_included.

(** [NAME_res_crossprod[i].replace("res", "ber") + 'y']. *)
Definition pair_tag (i : nat) : string :=
  str_replace "res" "ber" (nth i (NAME_res_crossprod cfg) "") ++ "y".

(** The columns of [exog] in equation [i]:
    [[j for j in g_bery_included if name in j] + [NAME_bery_crossprod[i]]]. *)
Definition exog_columns (i : nat) : list string :=
  (filter (fun j => str_contains j (pair_tag i)) g_bery_included
   ++ [nth i (NAME_bery_crossprod cfg) ""])%list.

(** [[col for col in mask if col in exog.columns.tolist()]]. *)
Definition masked (mask columns : list string) : list string :=
  filter (fun c => existsb (String.eqb c) columns) mask.

(** The regressors of equation [i] of household type [tt] under the
    selection [lasso]; a missing mask is an [IndexError]. *)
Definition var_eq_exog (lasso : list (list string)) (tt i : nat)
  : option (list string) :=
  match nth_error lasso (tt * length (NAME_res_crossprod cfg) + i) with
  | Some mask => Some (masked mask (exog_columns i))
  | None => None
  end.

(** The regressor lists of one system, equation by equation. *)
Definition var_eqs (lasso : list (list string)) (tt : nat)
  : option (list (list string)) :=
  map_opt (var_eq_exog lasso tt) (seq 0 (length (NAME_res_crossprod cfg))).
End VarianceEquations.

Close Scope string_scope.

(** ** Covariance matrices of one household type *)

(** [np.triu_indices_from(m, k=0)] for an n*n matrix: the positions on
    and above the diagonal, row by row. *)
Definition triu_indices (n : nat) : list (nat * nat) :=
  flat_map (fun i => map (fun j => (i, j)) (seq i (n - i))) (seq 0 n).

(** [np.tril_indices_from(m, k=-1)]: the positions below the diagonal. *)
Definition tril_indices (n : nat) : list (nat * nat) :=
  flat_map (fun i => map (fun j => (i, j)) (seq 0 i)) (seq 0 n).

(** [m[np.triu_indices_from(m, k=0)]]. *)
Definition triu (m : matrix) : vec :=
  map (fun ij => entry m (fst ij) (snd ij)) (triu_indices (length m)).

(** The value array of an indexed assignment with [n] targets: it has [n]
    entries, or one entry that is repeated; anything else is a
    [ValueError]. *)
Definition np_broadcast_to (n : nat) (vals : vec) : option vec :=
  if (length vals =? n)%nat then Some vals
  else match vals with
       | [x] => Some (repeat x n)
       | _ => None
       end.

(** [m[i, j] = x]. *)
Definition set_entry (m : matrix) (i j : nat) (x : R) : matrix :=
  upd m i (upd (nth i m []) j x).

(** [m[idx] = vals] for a list of positions. *)
Definition put_entries (m : matrix) (idx : list (nat * nat)) (vals : vec) : matrix :=
  fold_left (fun acc p => set_entry acc (fst (fst p)) (snd (fst p)) (snd p))
            (combine idx vals) m.

(** The symmetric matrix of a list of upper-triangular coefficients:
    [[
    m = np.empty((k, k))
    m[np.triu_indices_from(m, k=0)] = vals
    m[np.tril_indices_from(m, k=-1)] = m.T[np.tril_indices_from(m, k=-1)]
    ]]
    The unspecified content of [np.empty] is taken to be zero; every
    entry is overwritten. *)
Definition fill_sym (k : nat) (vals : vec) : option matrix :=
  match np_broadcast_to (length (triu_indices k)) vals with
  | None => None
  | Some v =>
      let m1 := put_entries (zeros k k) (triu_indices k) v in
      Some (put_entries m1 (tril_indices k)
              (map (fun ij => entry m1 (snd ij) (fst ij)) (tril_indices k)))
  end.

(** What one pass of the loop over household types contributes to the
    output of a replication. *)
Record type_summary : Type := {
  cov_val_new : vec;
  cov_pd_new : vec;
  cor_new : vec;
  stdev_new : vec;
  stdev_new_l : vec;
  stdev_new_u : vec;
  cov_matrix_pd : matrix
}.

(** The second half of the body of the loop over household types, from
    the three vectors of cross-product coefficients onwards.
    [nearestPD] is [NPD.nearestPD] of the [bocpdms] package. *)
Definition type_stage (nearestPD : matrix -> matrix) (k : nat)
    (cov_val cov_val_l cov_val_u : vec) : option type_summary :=
  match fill_sym k cov_val, fill_sym k cov_val_l, fill_sym k cov_val_u with
  | Some cov_matrix, Some cov_l, Some cov_u =>
      let pd := nearestPD cov_matrix in
      let pd_l := nearestPD cov_l in
      let pd_u := nearestPD cov_u in
      let cor_matrix := cov_to_cor pd in
      Some {| cov_val_new := cov_val;
              cov_pd_new := triu pd;
              cor_new := triu cor_matrix;
              stdev_new := map sqrt (np_diag pd);
              stdev_new_l := map sqrt (np_diag pd_l);
              stdev_new_u := map sqrt (np_diag pd_u);
              cov_matrix_pd := pd |}
  | _, _, _ => None
  end.

(** ** The output of one replication *)

(** The tuple returned by [bootstrap]. *)
Record summary : Type := {
  out_cov : vec;
  out_cov_pd : vec;
  out_cor : vec;
  out_std : vec;
  out_std_scale_s : vec;
  out_std_scale_sm : vec;
  out_std_scale_sf : vec;
  out_std_l : vec;
  out_std_u : vec
}.

Section Replication.
(** [NPD.nearestPD] of the [bocpdms] package; it is taken to return a
    matrix of the shape of its argument, which is then stored as
    [cov_matrix_pd[:, :, tt]]. *)
Variable nearestPD : matrix -> matrix.
Variable cfg : config.
(** The group indicators [g] and type indicators [t] of the working
    sample, row by row; [ngroup] is [np.shape(g)[1]]. *)
Variable g : list (list Z).
Variable t : list (list Z).
Variable ngroup : nat.
(** The coefficient values of the central, half-penalty and
    double-penalty fits of each household type. *)
Variable fit_c fit_l fit_u : nat -> string -> R.
Variable lasso_selec lasso_l lasso_u : list (list string).
(** [mean_boot_est.params] and the full budget shares [w_all]. *)
Variable mean_params : series.
Variable w_all : matrix.

(** The group indicators of
    [shs_boot_res[~(t_single[:, 0] == 1)]] restricted to
    [h{tt+1} == 1]. *)
Definition type_rows (tt : nat) : list (list Z) :=
  map fst
    (filter (fun gt_row =>
               negb (nth 0 (t_single_row (snd gt_row)) 0 =? 1)%Z
               && (nth (1 + tt) (t_single_row (snd gt_row)) 0 =? 1)%Z)
            (combine g t)).

(** One pass of the loop over household types. *)
Definition type_pass (tt : nat) : option type_summary :=
  let rb := type_rows tt in
  match var_eqs cfg rb ngroup lasso_selec tt,
        var_eqs cfg rb ngroup lasso_l tt,
        var_eqs cfg rb ngroup lasso_u tt with
  | Some eqs, Some eqs_l, Some eqs_u =>
      type_stage nearestPD (length (SHAREABLE cfg))
        (prod_params (SUR_fit (fit_c tt) eqs))
        (prod_params (SUR_fit (fit_l tt) eqs_l))
        (prod_params (SUR_fit (fit_u tt) eqs_u))
  | _, _, _ => None
  end.

(** The indicators of all singles, single males and single females:
    [t_single[:, 0]], [t[:, 0]] and [t[:, 1]]. *)
Definition singles : list Z := map (fun r => nth 0 (t_single_row r) 0%Z) t.
Definition single_males : list Z := map (fun r => nth 0 r 0%Z) t.
Definition single_females : list Z := map (fun r => nth 1 r 0%Z) t.

(** The replication from the variance equations to the returned tuple.
    The accumulators [cov], [cov_pd], ... are bound by the first pass of
    the loop; with no household type the [return] raises. *)
Definition bootstrap_tail : option summary :=
  let ntype := length (TYPE cfg) in
  let k := length (SHAREABLE cfg) in
  match map_opt type_pass (seq 0 ntype),
        barten_results mean_params ntype k with
  | Some (first :: others), Some a =>
      let ts := first :: others in
      let pd := map cov_matrix_pd ts in
      match scale a pd w_all singles ntype k,
            scale a pd w_all single_males ntype k,
            scale a pd w_all single_females ntype k with
      | Some std_scale_s, Some std_scale_sm, Some std_scale_sf =>
          Some {| out_cov := concat (map cov_val_new ts);
                  out_cov_pd := concat (map cov_pd_new ts);
                  out_cor := concat (map cor_new ts);
                  out_std := concat (map stdev_new ts);
                  out_std_scale_s := std_scale_s;
                  out_std_scale_sm := std_scale_sm;
                  out_std_scale_sf := std_scale_sf;
                  out_std_l := concat (map stdev_new_l ts);
                  out_std_u := concat (map stdev_new_u ts) |}
      | _, _, _ => None
      end
  | _, _ => None
  end.
End Replication.

(** * Vocabulary of the statements *)

(** Every observation index of the group assignment is a row of an array
    of [n] rows. *)
Definition in_range (n : nat) (gt : coords) : Prop :=
  forall r c, In (r, c) gt -> (r < n)%nat.

(** A matrix is symmetric. *)
Definition symmetric (m : matrix) : Prop :=
  forall i j, entry m i j = entry m j i.

(** A square matrix is positive semi-definite: x' m x >= 0 for every
    vector [x] of its dimension. *)
Definition psd (m : matrix) : Prop :=
  forall x, length x = length m -> 0 <= quad_form x m x.

(** The indicator of position [p], as a real number. *)
Definition delta (p i : nat) : R := if (i =? p)%nat then 1 else 0.

(** The double sum of [f a b] over [a, b < n]. *)
Definition dsum (n : nat) (f : nat -> nat -> R) : R :=
  Rsum (map (fun a => Rsum (map (fun b => f a b) (seq 0 n))) (seq 0 n)).

(** Mean of budget share [a] over the observations whose indicator is 1. *)
Definition share_mean (data : matrix) (ind : list Z) (a : nat) : R :=
  mean (col a (mask_rows ind data)).

(** Sample covariance of budget shares [a] and [b] over the observations
    whose indicator is 1. *)
Definition share_cov (data : matrix) (ind : list Z) (a b : nat) : R :=
  Rsum (map (fun r => (nth a r 0 - share_mean data ind a)
                      * (nth b r 0 - share_mean data ind b))
            (mask_rows ind data))
  / (INR (length (mask_rows ind data)) - 1).

(** The Barten scale vector of a type with a trailing one. *)
Definition scale_vec (a_t : vec) (k i : nat) : R :=
  if (i <? k)%nat then nth i a_t 0 else 1.

(** The covariance matrix of a type, zero outside its K*K block. *)
Definition scale_cov (c : matrix) (k a b : nat) : R :=
  if ((a <? k) && (b <? k))%nat then entry c a b else 0.

(** Positions of the names that satisfy [p]. *)
Definition positions_where (p : string -> bool) (names : list string) : list nat :=
  map fst (filter (fun kn => p (snd kn)) (combine (seq 0 (length names)) names)).

(** The character [c] occurs in [s]. *)
Fixpoint has_char (c : ascii) (s : string) : bool :=
  match s with
  | EmptyString => false
  | String a s' => Ascii.eqb a c || has_char c s'
  end.

Open Scope string_scope.

(** The coefficient of the single-household [ery] term in the mean
    equation of the good at position [k]. *)
Definition single_coef_name (cfg : config) (k : nat) : string :=
  "eq" ++ str (k + 1) ++ "_er" ++ str (nth k (SHAREABLE cfg) 0%nat) ++ "y_s".

(** The coefficient of the [ery] term of household type [t] (counted from
    zero) in the mean equation of the good at position [k]. *)
Definition type_coef_name (cfg : config) (t k : nat) : string :=
  "eq" ++ str (k + 1) ++ "_er" ++ str (nth k (SHAREABLE cfg) 0%nat) ++ "y_h"
  ++ str (t + 1).

Close Scope string_scope.

(** Every mask of the selection [lasso] exists and lists the ber
    cross-product term of its own good pair exactly once. *)
Definition keeps_prod (cfg : config) (lasso : list (list string)) : Prop :=
  forall tt i,
    (tt < length (TYPE cfg))%nat ->
    (i < length (NAME_res_crossprod cfg))%nat ->
    exists mask,
      nth_error lasso (tt * length (NAME_res_crossprod cfg) + i) = Some mask /\
      count_occ string_dec mask (nth i (NAME_bery_crossprod cfg) ""%string) = 1%nat.

(** The fitted mean stage has one single-baseline [ery] coefficient and,
    for each household type, one [ery] coefficient per shareable good under
    the name tests of [barten_results]. *)
Definition mean_coefficients_complete (cfg : config) (params : series) : Prop :=
  length (params_where
            (fun n => str_contains n "s" && negb (str_contains n "z")) params)
  = length (SHAREABLE cfg) /\
  forall t, (t < length (TYPE cfg))%nat ->
    length (params_where
              (fun n => str_contains n ("h" ++ str (t + 1))
                        && negb (str_contains n "z")) params)
    = length (SHAREABLE cfg).

(** An indicator value. *)
Definition is_01 (v : Z) : Prop := v = 0%Z \/ v = 1%Z.

(** Row [p] of the indicator matrix [m] belongs to cell [c]. *)
Definition in_cell (m : list (list Z)) (p c : nat) : Prop :=
  (p < length m)%nat /\ nth c (nth p m []) 0%Z = 1%Z.

(** The cell dummies of every observation are 0 or 1. *)
Definition indicator_cells (rows : list flags) : Prop :=
  Forall (fun o => Forall is_01 (z_29_37 o) /\ Forall is_01 (z_38_50 o)) rows.

(** The regressors of the mean equation of the good at position [i],
    without demeaning: its [er * y] under each single-type indicator, then
    the demographics under each type indicator. *)
Definition undemeaned_regressors (i : nat) (o : design) : vec :=
  map (fun ts => nth i (er_of o) 0 * y_of o * IZR ts) (t_single_row (t_of o))
  ++ outer_flatR (z_of o) (map IZR (t_of o)).

(** The observation has [k] goods, [d] demographics and [nt] household
    types. *)
Definition design_shape (k d nt : nat) (o : design) : Prop :=
  length (w_of o) = k /\ length (er_of o) = k /\
  length (z_of o) = d /\ length (t_of o) = (2 + nt)%nat.

(** * Small samples in the configuration of the program *)

(** Group indicators of two observations of the first of 117
    province-year groups. *)
Definition two_in_first_group : list (list Z) :=
  [1%Z :: repeat 0%Z 116; 1%Z :: repeat 0%Z 116].

(** Eight observations of the first province-year group: two single
    males and two households of each of the three types, with equal budget
    shares, log real outlay and demographics equal to zero. *)
Definition sample_g : list (list Z) := repeat (1%Z :: repeat 0%Z 116) 8.

Definition sample_designs : list design :=
  map (fun t => {| w_of := repeat (1 / 6) 5; er_of := repeat 1 5; y_of := 0;
                   z_of := [0; 0]; t_of := t |})
      [[1; 0; 0; 0; 0]; [1; 0; 0; 0; 0];
       [0; 0; 1; 0; 0]; [0; 0; 1; 0; 0];
       [0; 0; 0; 1; 0]; [0; 0; 0; 1; 0];
       [0; 0; 0; 0; 1]; [0; 0; 0; 0; 1]]%Z.

(** Their group-type cells: cell [117 * j] is the first group under
    column [j] of [t]. *)
Definition sample_gt : coords :=
  [(0, 0); (1, 0); (2, 234); (3, 234); (4, 351); (5, 351); (6, 468); (7, 468)]%nat.

Definition sample_w_all : matrix := repeat (repeat (1 / 6) 6) 8.

Definition sample_mean_params : series :=
  combine (SUR_param_names (mean_eqs reference)) (repeat 1 70).

(** Masks that keep exactly the cross-product term of each equation. *)
Definition prod_only_masks : list (list string) :=
  concat (repeat (map (fun n => [n]) (NAME_bery_crossprod reference)) 3).

(** Masks in which only the first equation of each household type keeps
    its cross-product term; the other equations keep the cross-sum term of
    the first group. *)
Definition one_prod_masks : list (list string) :=
  concat (repeat
            ([nth 0 (NAME_bery_crossprod reference) ""%string]
             :: map (fun j => [("g1_" ++ j)%string])
                    (tl (NAME_bery_crosssum reference)))
            3).

(** Four observations of one province-year group: two households of the
    first type, then two single males. *)
Definition cell_flags (single sex : Z) (types : list Z) : flags :=
  {| z3 := sex; z23 := single; z_type := types;
     z_29_37 := 1%Z :: repeat 0%Z 8;
     z_38_50 := 1%Z :: repeat 0%Z 12 |}.

Definition four_observations : list flags :=
  [cell_flags 0 0 [1; 0; 0]; cell_flags 0 1 [1; 0; 0];
   cell_flags 1 0 [0; 0; 0]; cell_flags 1 0 [0; 0; 0]]%Z.

(** Two households of the first type in one province-year group, with
    log real outlay and demographics equal to zero. *)
Definition two_designs : list design :=
  [ {| w_of := [1 / 5; 1 / 5; 1 / 5; 1 / 5; 1 / 10];
       er_of := [1; 1; 1; 1; 1]; y_of := 0; z_of := [0; 0];
       t_of := [0; 0; 1; 0; 0]%Z |};
    {| w_of := [2 / 5; 1 / 10; 1 / 5; 1 / 10; 1 / 10];
       er_of := [1; 1; 1; 1; 1]; y_of := 0; z_of := [0; 0];
       t_of := [0; 0; 1; 0; 0]%Z |} ].

(** Both observations belong to group-type cell 234. *)
Definition two_designs_gt : coords := [(0, 234); (1, 234)]%nat.

(** * Vocabulary of the further properties *)

(** The covariance matrix of the variables of [cov] after variable [i] is
    multiplied by [d_i]. *)
Definition rescale (d : vec) (cov : matrix) : matrix :=
  map (fun i => map (fun j => nth i d 0 * nth j d 0 * entry cov i j)
                    (seq 0 (length d)))
      (seq 0 (length d)).

(** A decimal digit. *)
Definition is_digit (c : ascii) : bool :=
  existsb (Ascii.eqb c) ["0"; "1"; "2"; "3"; "4"; "5"; "6"; "7"; "8"; "9"]%char.

(** A string of decimal digits. *)
Fixpoint digits_only (s : string) : bool :=
  match s with
  | EmptyString => true
  | String a s' => is_digit a && digits_only s'
  end.

(** Positions of the names that satisfy [p], counted from [s]. *)
Definition positions_from (p : string -> bool) (s : nat) (names : list string)
  : list nat :=
  map fst (filter (fun kn => p (snd kn)) (combine (seq s (length names)) names)).

(** The coefficient names of the mean equation of the good at position
    [k]: the label [f'eq{k+1}'] before each of its regressors. *)
Definition eq_names (cfg : config) (k : nat) : list string :=
  map (fun c => ("eq" ++ str (k + 1) ++ "_" ++ c)%string)
      (mean_exog cfg (nth k (SHAREABLE cfg) 0%nat)).

(** The number of regressors of a mean equation: the [ery] term of the
    singles and of each household type, then every demographic variable
    under every type indicator. *)
Definition mean_block (cfg : config) : nat :=
  (1 + length (TYPE cfg) + (2 + length (TYPE cfg)) * length (DEMOG cfg))%nat.

(** * More of the replication *)

(** [a * b] of two one-dimensional arrays under NumPy broadcasting: equal
    lengths multiply elementwise, a length-one operand is stretched, any
    other pair of lengths is a [ValueError].  The product of an N*K array
    with a one-dimensional array follows the same rule row by row. *)
Definition np_multiply (a b : vec) : option vec :=
  if (length a =? length b)%nat
  then Some (map (fun xy => fst xy * snd xy) (combine a b))
  else match a, b with
       | [x], _ => Some (map (fun y => x * y) b)
       | _, [y] => Some (map (fun x => x * y) a)
       | _, _ => None
       end.

(** [mean_boot_est.params.filter(like='y_s').values]. *)
Definition bery_params (params : series) : vec :=
  map snd (params_where (fun n => str_contains n "y_s"%string) params).

(** The row of [bery = ery * mean_boot_est.params.filter(like='y_s').values]
    with [ery = er * y[:, None]]. *)
Definition bery_row (params : series) (o : design) : option vec :=
  np_multiply (map (fun e => e * y_of o) (er_of o)) (bery_params params).

(** [a.drop(idx).reset_index(drop=True)] of a dataframe with the default
    index and [np.delete(a, idx, 0)] of an array: the rows whose position
    is not listed, in order.  A position past the end is a [KeyError] or
    an [IndexError]; a position listed twice is dropped once. *)
Definition drop_rows {A : Type} (idx : list nat) (rows : list A) : option (list A) :=
  if forallb (fun i => (i <? length rows)%nat) idx
  then Some (map snd
               (filter (fun kv => negb (existsb (Nat.eqb (fst kv)) idx))
                       (combine (seq 0 (length rows)) rows)))
  else None.

(** Column positions of the entries of a row that are not zero. *)
Definition nonzero_row (row : list Z) : list nat :=
  map fst (filter (fun jv => negb (snd jv =? 0)%Z)
                  (combine (seq 0 (length row)) row)).

(** [csr_array(m).nonzero()]: the coordinates (row, column) of the entries
    that are not zero, row by row. *)
Definition nonzero (m : list (list Z)) : coords :=
  flat_map (fun ir => map (fun j => (fst ir, j)) (nonzero_row (snd ir)))
           (combine (seq 0 (length m)) m).

(** The group-type cells of a replication after the exclusion, as passed
    to [demean]:
    [csr_array(gt.drop(idx_excluded).reset_index(drop=True).values).nonzero()]. *)
Definition boot_gt (index : list nat) (gt : list (list Z)) : option coords :=
  option_map nonzero (drop_rows (idx_excluded_boot index gt) gt).

(** The same in the point-estimate pass. *)
Definition point_gt (gt : list (list Z)) : option coords :=
  match idx_excluded_point gt with
  | Some idx => option_map nonzero (drop_rows idx gt)
  | None => None
  end.

(** A row of indicators has the value 1 in at most one column: the
    observation lies in at most one cell. *)
Definition single_cell (row : list Z) : Prop :=
  forall c c', nth c row 0%Z = 1%Z -> nth c' row 0%Z = 1%Z -> c = c'.

(** The number of rows of cell [c]. *)
Definition cell_size (m : list (list Z)) (c : nat) : nat :=
  length (positions_of_one (colZ c m)).

(** The sample filter of the main program: exactly one of the single flag
    and the household-type flags is set, the household lives neither in a
    small city nor in a rural area ([z21 + z22 == 0]) and the age [z51] is
    at most [AGE]. *)
Definition in_sample (AGE z21 z22 z51 : Z) (o : flags) : bool :=
  ((Zsum (z23 o :: z_type o) =? 1)%Z && (z21 + z22 =? 0)%Z && (z51 <=? AGE)%Z)%bool.

(** * The selection of regressors in the main program *)

(** [np.array([1.0]*(exog.shape[1]-1) + [0.0])], the penalty weights of
    the columns of [exog]. *)
Definition penalty (ncol : nat) : vec := repeat 1 (ncol - 1) ++ [0].

(** [np.nonzero(w)[0]]. *)
Definition np_nonzero (w : vec) : list nat :=
  map fst (filter (fun kv => if Req_dec_T (snd kv) 0 then false else true)
                  (combine (seq 0 (length w)) w)).

(** [exog.columns[np.nonzero(lasso_model.w)[0]].tolist()]: the names of
    the columns with a weight that is not zero. *)
Definition lasso_mask (w : vec) (columns : list string) : option (list string) :=
  np_take columns (np_nonzero w).

(** Equality of two pairs of goods. *)
Definition pair_eqb (ab cd : nat * nat) : bool :=
  ((fst ab =? fst cd)%nat && (snd ab =? snd cd)%nat)%bool.

(** * Budget shares *)

(** Total outlay, the column [x] that the main program adds:
    [shs_data[[f's{i}' for i in SHAREABLE] + [f's{NONSHAREABLE}']].sum(axis=1)]. *)
Definition total_outlay (s : vec) (s_non : R) : R := Rsum (s ++ [s_non]).

(** One row of [w_all = np.hstack((w, w_non[:, None]))] with
    [w = s / x[:, None]] and [w_non = s_non / x]. *)
Definition w_all_row (s : vec) (s_non x : R) : vec :=
  map (fun v => v / x) s ++ [s_non / x].

(** * Clusters and standard errors in the main program *)

(** [int(s)] for a string of decimal digits.  Python also accepts a sign,
    surrounding blanks and underscores between digits; the strings read
    here are a column name [g<number>] without its [g]. *)
Definition int_of_str (s : string) : option nat :=
  option_map Nat.of_uint (NilZero.uint_of_string s).

(** [g.columns[g.iloc[i].isin([1.0])]]: the names of the group columns in
    which the row has the value 1. *)
Definition columns_of_one (g_row : list Z) : list string :=
  map snd (filter (fun vn => (fst vn =? 1)%Z)
                  (combine g_row (NAME_g (length g_row)))).

(** One entry of [clusters]:
    [int(g.columns[g.iloc[i].isin([1.0])][0].replace('g', ''))]; a row
    without a group is an [IndexError]. *)
Definition cluster_of (g_row : list Z) : option nat :=
  match columns_of_one g_row with
  | [] => None
  | name :: _ => int_of_str (str_replace "g" "" name)
  end.

(** [np.std(v)]: the population standard deviation. *)
Definition np_std (v : vec) : R :=
  sqrt (mean (map (fun x => (x - mean v) * (x - mean v)) v)).

(** [np.std(m, axis=0)] for a matrix of [p] columns. *)
Definition np_std_axis0 (p : nat) (m : matrix) : vec :=
  map (fun j => np_std (col j m)) (seq 0 p).

(** The first [n] rows of length [len] cut from a vector. *)
Fixpoint chunks (n len : nat) (v : vec) : matrix :=
  match n with
  | O => []
  | S n' => firstn len v :: chunks n' len (skipn len v)
  end.

(** [v.reshape([n, len])]: a [ValueError] unless [v] has [n * len]
    entries. *)
Definition np_reshape (n len : nat) (v : vec) : option matrix :=
  if (length v =? n * len)%nat then Some (chunks n len v) else None.

(** [m.T] for a matrix of [p] columns. *)
Definition np_transpose (p : nat) (m : matrix) : matrix :=
  map (fun j => col j m) (seq 0 p).

(** [store[i, :] = v] for every replication: each row of the store has
    [width] entries, a result of one entry is repeated, any other length
    is a [ValueError]. *)
Definition fill_store (width : nat) (results : list vec) : option matrix :=
  map_opt (np_broadcast_to width) results.

(** The values of [std_se_df]:
    [np.std(std_store, axis=0).reshape([len(TYPE), len(SHAREABLE)]).T]. *)
Definition std_se_table (ntype k : nat) (results : list vec) : option matrix :=
  match fill_store (k * ntype) results with
  | Some std_store =>
      option_map (np_transpose k)
                 (np_reshape ntype k (np_std_axis0 (k * ntype) std_store))
  | None => None
  end.

(** * A replication from the fitted mean stage to the stores *)

Section FromMeanStage.
(** [NPD.nearestPD]. *)
Variable nearestPD : matrix -> matrix.
Variable cfg : config.
(** The working sample of the replication, after the exclusion: its
    observations, their group-type cells [gt], their group indicators [g]
    with [ngroup] columns, and their full budget shares [w_all]. *)
Variable sample : list design.
Variable gt : coords.
Variable g : list (list Z).
Variable ngroup : nat.
Variable w_all : matrix.
(** The coefficient values of the fitted systems, by name: the mean
    equations, then the central, half-penalty and double-penalty variance
    equations of each household type. *)
Variable fit_mean : string -> R.
Variable fit_c fit_l fit_u : nat -> string -> R.
Variable lasso_selec lasso_l lasso_u : list (list string).

(** [mean_boot_est.params]. *)
Definition mean_boot_params : series := SUR_fit fit_mean (mean_eqs cfg).

(** The body of [bootstrap] after the fit of the mean equations.  [eryt]
    and [zt] are rebuilt with [.reshape(t.shape[0], -1)], which raises on
    a sample without rows; then come the residuals of every good and
    [bery], and the loop over the household types with the scale indices.
    The residuals and [bery] reach the returned tuple only through the
    fitted variance equations. *)
Definition bootstrap_from_mean : option summary :=
  match sample with
  | [] => None
  | _ :: _ =>
      match map_opt (res_column cfg sample gt mean_boot_params)
                    (seq 0 (length (SHAREABLE cfg))),
            map_opt (bery_row mean_boot_params) sample with
      | Some _, Some _ =>
          bootstrap_tail nearestPD cfg g (map t_of sample) ngroup
                         fit_c fit_l fit_u lasso_selec lasso_l lasso_u
                         mean_boot_params w_all
      | _, _ => None
      end
  end.
End FromMeanStage.

(** Row [i] of the nine stores of the main program, each of the width its
    store was created with, filled from the tuple of replication [i]:
    [cov_store[i, :] = results_store[i][0].to_numpy()] and so on.  A
    component that has neither the width of its store nor a single entry
    is a [ValueError]. *)
Definition store_rows (cfg : config) (s : summary) : option (list vec) :=
  let K := length (SHAREABLE cfg) in
  let T := length (TYPE cfg) in
  map_opt (fun wv => np_broadcast_to (fst wv) (snd wv))
    [ (K * (K + 1) / 2 * T, out_cov s);
      (K * (K + 1) / 2 * T, out_cov_pd s);
      (K * (K + 1) / 2 * T, out_cor s);
      (K * T, out_std s);
      (T, out_std_scale_s s);
      (T, out_std_scale_sm s);
      (T, out_std_scale_sf s);
      (K * T, out_std_l s);
      (K * T, out_std_u s) ]%nat.

(** * Properties *)

(** ** The definitions on small inputs *)

Example demean_two_groups :
  demean [[1; 2]; [3; 4]; [5; 8]] [(0, 1); (1, 0); (2, 1)]%nat
  = Some [[-2; -3]; [0; 0]; [2; 3]].
Proof.
  unfold demean, group_loop. simpl.
  unfold center_rows, mean_axis0, mean, col, vsub. simpl.
  repeat (f_equal; try lra).
Qed.

Example demean_row_out_of_range :
  demean [[1; 2]] [(0, 0); (1, 0)]%nat = None.
Proof. reflexivity. Qed.

Example barten_two_goods (a b c d : R) :
  barten [a; b; c; d] 2 = Some [c / a; d / b].
Proof. reflexivity. Qed.

Example barten_length_mismatch (a b c d e : R) : barten [a; b; c; d; e] 2 = None.
Proof. reflexivity. Qed.

Example fill_sym_three_values (a b c : R) :
  fill_sym 2 [a; b; c] = Some [[a; b]; [b; c]].
Proof. reflexivity. Qed.

Example fill_sym_one_value (a : R) : fill_sym 2 [a] = Some [[a; a]; [a; a]].
Proof. reflexivity. Qed.

Example fill_sym_two_values (a b : R) : fill_sym 2 [a; b] = None.
Proof. reflexivity. Qed.

Example np_unique_sorts : np_unique [3; 1; 3; 2; 1]%nat = [1; 2; 3]%nat.
Proof. reflexivity. Qed.

Example np_arange_columns_of_good_2 : np_arange 2 20 5 = [2; 7; 12; 17]%nat.
Proof. reflexivity. Qed.

Example mean_exog_first_good :
  mean_exog reference 1
  = ["er1y_s"; "er1y_h1"; "er1y_h2"; "er1y_h3";
     "z1_sm"; "z2_sm"; "z1_sf"; "z2_sf"; "z1_h1"; "z2_h1";
     "z1_h2"; "z2_h2"; "z1_h3"; "z2_h3"]%string.
Proof. reflexivity. Qed.

Example exog_columns_second_pair :
  exog_columns reference two_in_first_group 117 1
  = ["g1_ber1.2y_sum"; "ber1.2y_prod"]%string.
Proof. vm_compute. reflexivity. Qed.

(** ** Index arrays *)

Lemma length_upd {A : Type} (a : list A) i x : length (upd a i x) = length a.
Proof.
  revert i; induction a as [|h t IH]; intros [|i]; simpl; auto.
Qed.

Lemma nth_error_upd_eq {A : Type} (a : list A) i x :
  (i < length a)%nat -> nth_error (upd a i x) i = Some x.
Proof.
  revert i; induction a as [|h t IH]; intros [|i] Hi; simpl in *; try lia; auto.
  apply IH; lia.
Qed.

Lemma nth_error_upd_ne {A : Type} (a : list A) i j x :
  i <> j -> nth_error (upd a i x) j = nth_error a j.
Proof.
  revert i j; induction a as [|h t IH]; intros [|i] [|j] Hij; simpl; auto;
    try congruence.
Qed.

Lemma length_np_put {A : Type} (index : list nat) :
  forall (a vals : list A), length (np_put a index vals) = length a.
Proof.
  induction index as [|i index IH]; intros a [|x vals]; simpl; auto.
  rewrite IH. apply length_upd.
Qed.

Lemma np_put_untouched {A : Type} (index : list nat) r :
  ~ In r index ->
  forall (a vals : list A), nth_error (np_put a index vals) r = nth_error a r.
Proof.
  induction index as [|i index IH]; intros Hr a [|x vals]; simpl; auto.
  rewrite IH by (intro; apply Hr; now right).
  apply nth_error_upd_ne. intro; apply Hr; now left.
Qed.

Lemma np_put_written {A : Type} (index : list nat) :
  NoDup index ->
  forall (a vals : list A) k r,
    length vals = length index ->
    (forall i, In i index -> (i < length a)%nat) ->
    nth_error index k = Some r ->
    nth_error (np_put a index vals) r = nth_error vals k.
Proof.
  induction 1 as [|i index Hi Hnd IH]; intros a vals k r Hlen Hb Hk.
  - destruct k; discriminate.
  - destruct vals as [|x vals]; [discriminate|]. simpl in Hlen.
    destruct k as [|k]; simpl in *.
    + injection Hk as ->.
      rewrite np_put_untouched by assumption.
      apply nth_error_upd_eq. apply Hb; now left.
    + apply IH; auto.
      intros j Hj. rewrite length_upd. apply Hb; now right.
Qed.

Lemma np_take_total {A : Type} (a : list A) (index : list nat) :
  (forall i, In i index -> (i < length a)%nat) ->
  exists sel, np_take a index = Some sel.
Proof.
  induction index as [|i index IH]; intros Hb; simpl.
  - now exists [].
  - destruct IH as [sel ->]; [intros; apply Hb; now right|].
    destruct (nth_error a i) as [x|] eqn:E.
    + now exists (x :: sel).
    + apply nth_error_None in E. specialize (Hb i (or_introl eq_refl)). lia.
Qed.

Lemma np_take_length {A : Type} (a : list A) (index : list nat) sel :
  np_take a index = Some sel -> length sel = length index.
Proof.
  revert sel; induction index as [|i index IH]; intros sel; simpl.
  - now intros [= <-].
  - destruct (nth_error a i); [|discriminate].
    destruct (np_take a index); [|discriminate].
    intros [= <-]. simpl. f_equal. now apply IH.
Qed.

Lemma np_take_nth {A : Type} (a : list A) (index : list nat) sel k r :
  np_take a index = Some sel ->
  nth_error index k = Some r ->
  nth_error sel k = nth_error a r.
Proof.
  revert sel k; induction index as [|i index IH]; intros sel k; simpl.
  - destruct k; discriminate.
  - destruct (nth_error a i) eqn:E; [|discriminate].
    destruct (np_take a index); [|discriminate].
    intros [= <-] Hk. destruct k as [|k]; simpl in *.
    + now injection Hk as <-.
    + now apply IH.
Qed.

Lemma np_take_all {A : Type} (a : list A) :
  np_take a (seq 0 (length a)) = Some a.
Proof.
  assert (G : forall pre, np_take (pre ++ a) (seq (length pre) (length a)) = Some a).
  { induction a as [|x a IH]; intros pre; simpl; auto.
    rewrite nth_error_app2 by lia. rewrite Nat.sub_diag. simpl.
    specialize (IH (pre ++ [x])).
    rewrite <- app_assoc, length_app, Nat.add_1_r in IH. simpl in IH.
    now rewrite IH. }
  apply (G []).
Qed.

Lemma insert_sorted_In x y l : In y (insert_sorted x l) <-> y = x \/ In y l.
Proof.
  induction l as [|z l IH]; simpl.
  - intuition.
  - destruct (x <? z)%nat eqn:E1; simpl; [intuition|].
    destruct (x =? z)%nat eqn:E2; simpl.
    + apply Nat.eqb_eq in E2. subst. intuition.
    + rewrite IH. intuition.
Qed.

Lemma np_unique_In x l : In x (np_unique l) <-> In x l.
Proof.
  induction l as [|y l IH]; simpl; [tauto|].
  rewrite insert_sorted_In, IH. intuition.
Qed.

Lemma insert_sorted_sorted x l :
  StronglySorted lt l -> StronglySorted lt (insert_sorted x l).
Proof.
  induction 1 as [|z l Hs IH Hz]; simpl.
  - repeat constructor.
  - destruct (x <? z)%nat eqn:E1.
    + apply Nat.ltb_lt in E1. constructor; [now constructor|].
      constructor; auto. eapply Forall_impl; [|exact Hz]. simpl; intros; lia.
    + destruct (x =? z)%nat eqn:E2; [now constructor|].
      apply Nat.ltb_ge in E1. apply Nat.eqb_neq in E2.
      constructor; auto. apply Forall_forall. intros y Hy.
      apply insert_sorted_In in Hy. destruct Hy as [->|Hy]; [lia|].
      rewrite Forall_forall in Hz. now apply Hz.
Qed.

Lemma np_unique_sorted l : StronglySorted lt (np_unique l).
Proof.
  induction l; simpl; [constructor|]. now apply insert_sorted_sorted.
Qed.

Lemma np_unique_NoDup l : NoDup (np_unique l).
Proof.
  generalize (np_unique_sorted l). induction 1 as [|z t Hs IH Hz].
  - constructor.
  - constructor; auto. intro Hin. rewrite Forall_forall in Hz.
    specialize (Hz z Hin). lia.
Qed.

Lemma map_opt_total {A B : Type} (f : A -> option B) (l : list A) :
  (forall x, In x l -> exists y, f x = Some y) ->
  exists ys, map_opt f l = Some ys.
Proof.
  induction l as [|x l IH]; intros H; simpl.
  - now exists [].
  - destruct (H x (or_introl eq_refl)) as [y ->].
    destruct IH as [ys ->]; [intros; apply H; now right|].
    now exists (y :: ys).
Qed.

Lemma map_opt_Forall2 {A B : Type} (f : A -> option B) (l : list A) ys :
  map_opt f l = Some ys -> Forall2 (fun x y => f x = Some y) l ys.
Proof.
  revert ys; induction l as [|x l IH]; intros ys; simpl.
  - intros [= <-]. constructor.
  - destruct (f x) as [y|] eqn:E; [|discriminate].
    destruct (map_opt f l) as [ys'|]; [|discriminate].
    intros [= <-]. constructor; auto.
Qed.

Lemma map_opt_length {A B : Type} (f : A -> option B) (l : list A) ys :
  map_opt f l = Some ys -> length ys = length l.
Proof.
  intros H. apply map_opt_Forall2 in H. symmetry.
  eapply Forall2_length; eauto.
Qed.

Lemma map_opt_map {A B : Type} (f : A -> option B) (g : A -> B) (l : list A) :
  (forall x, In x l -> f x = Some (g x)) -> map_opt f l = Some (map g l).
Proof.
  induction l as [|x l IH]; intros H; simpl; auto.
  rewrite H by now left. rewrite IH; auto. intros; apply H; now right.
Qed.

(** ** The loop over groups *)

Lemma group_rows_In (gt : coords) r c : In r (group_rows gt c) <-> In (r, c) gt.
Proof.
  unfold group_rows. rewrite in_map_iff. split.
  - intros [[r' c'] [<- H]]. apply filter_In in H. destruct H as [H E].
    simpl in *. apply Nat.eqb_eq in E. now subst.
  - intros H. exists (r, c). split; auto. apply filter_In. split; auto.
    simpl. apply Nat.eqb_refl.
Qed.

Lemma one_group_unique (gt : coords) r c c' :
  NoDup (map fst gt) -> In (r, c) gt -> In (r, c') gt -> c = c'.
Proof.
  induction gt as [|[r0 c0] gt IH]; simpl; [tauto|].
  intros Hnd [E1|H1] [E2|H2]; inversion Hnd as [|? ? Hn Hnd']; subst.
  - congruence.
  - injection E1 as -> ->. exfalso. apply Hn.
    change r with (fst (r, c')). now apply in_map.
  - injection E2 as -> ->. exfalso. apply Hn.
    change r with (fst (r, c)). now apply in_map.
  - now apply IH.
Qed.

Lemma group_rows_NoDup (gt : coords) c :
  NoDup (map fst gt) -> NoDup (group_rows gt c).
Proof.
  unfold group_rows. induction gt as [|[r0 c0] gt IH]; simpl; intros Hnd.
  - constructor.
  - inversion Hnd as [|? ? Hn Hnd']; subst.
    destruct (c0 =? c)%nat; simpl; auto.
    constructor; auto. intro Hin. apply Hn.
    apply in_map_iff in Hin. destruct Hin as [x [<- Hx]].
    apply filter_In in Hx. apply in_map. tauto.
Qed.

Section GroupLoop.
Context {A : Type}.
Variable f : list A -> list A.
Variable var : list A.
Variable gt : coords.
Hypothesis f_length : forall sel, length (f sel) = length sel.
Hypothesis gt_in_range : forall r c, In (r, c) gt -> (r < length var)%nat.

Lemma group_rows_in_range c i : In i (group_rows gt c) -> (i < length var)%nat.
Proof. intros H. apply group_rows_In in H. eauto. Qed.

Lemma group_fold_untouched cs :
  forall out, length out = length var ->
  exists out',
    fold_left (group_step f var gt) cs (Some out) = Some out' /\
    length out' = length var /\
    forall r, (forall c, In c cs -> ~ In (r, c) gt) ->
              nth_error out' r = nth_error out r.
Proof.
  induction cs as [|c cs IH]; intros out Hlen; simpl.
  - exists out. auto.
  - destruct (np_take_total var (group_rows gt c)) as [sel Hsel].
    { intros i. apply group_rows_in_range. }
    rewrite Hsel.
    destruct (IH (np_put out (group_rows gt c) (f sel))) as (out' & Hf & Hl & Hu).
    { now rewrite length_np_put. }
    exists out'. repeat split; auto.
    intros r Hr. rewrite Hu by (intros; apply Hr; now right).
    apply np_put_untouched. rewrite group_rows_In. apply Hr. now left.
Qed.

Hypothesis one_group : NoDup (map fst gt).

Lemma group_fold_written cs :
  NoDup cs ->
  forall out out', length out = length var ->
    fold_left (group_step f var gt) cs (Some out) = Some out' ->
    forall r c, In c cs -> In (r, c) gt ->
    exists sel k,
      np_take var (group_rows gt c) = Some sel /\
      nth_error (group_rows gt c) k = Some r /\
      nth_error out' r = nth_error (f sel) k.
Proof.
  induction 1 as [|c0 cs Hc0 Hnd IH]; intros out out' Hlen Hfold r c Hc Hrc.
  - destruct Hc.
  - simpl in Hfold.
    destruct (np_take_total var (group_rows gt c0)) as [sel Hsel].
    { intros i. apply group_rows_in_range. }
    rewrite Hsel in Hfold.
    set (out1 := np_put out (group_rows gt c0) (f sel)) in *.
    assert (Hlen1 : length out1 = length var)
      by (unfold out1; now rewrite length_np_put).
    destruct Hc as [->|Hc].
    + assert (Hin : In r (group_rows gt c)) by now apply group_rows_In.
      apply In_nth_error in Hin. destruct Hin as [k Hk].
      exists sel, k. repeat split; auto.
      destruct (group_fold_untouched cs out1 Hlen1) as (o & Hf & _ & Hu).
      rewrite Hfold in Hf. injection Hf as <-.
      rewrite Hu.
      * unfold out1. apply np_put_written; auto.
        -- now apply group_rows_NoDup.
        -- rewrite f_length. eapply np_take_length; eauto.
        -- intros i Hi. rewrite Hlen. eapply group_rows_in_range; eauto.
      * intros c' Hc' Hrc'.
        assert (c = c') by (eapply one_group_unique; eauto).
        subst. contradiction.
    + eapply IH; eauto.
Qed.

Lemma group_loop_spec out0 :
  length out0 = length var ->
  exists out,
    group_loop f var out0 gt = Some out /\
    length out = length var /\
    (forall r, ~ In r (map fst gt) -> nth_error out r = nth_error out0 r) /\
    (forall r c, In (r, c) gt ->
       exists sel k,
         np_take var (group_rows gt c) = Some sel /\
         nth_error (group_rows gt c) k = Some r /\
         nth_error out r = nth_error (f sel) k).
Proof.
  intros Hlen. unfold group_loop.
  destruct (group_fold_untouched (np_unique (map snd gt)) out0 Hlen)
    as (out & Hf & Hl & Hu).
  exists out. repeat split; auto.
  - intros r Hr. apply Hu. intros c _ Hrc. apply Hr.
    change r with (fst (r, c)). now apply in_map.
  - intros r c Hrc.
    apply (group_fold_written (np_unique (map snd gt)) (np_unique_NoDup _)
             out0 out Hlen Hf r c); auto.
    apply np_unique_In. change c with (snd (r, c)). now apply in_map.
Qed.
End GroupLoop.

(** ** Sums, means and centering *)

Lemma Rsum_shift (c : R) (l : list R) :
  Rsum (map (fun x => x - c) l) = Rsum l - INR (length l) * c.
Proof.
  induction l as [|x l IH].
  - simpl. lra.
  - change (length (x :: l)) with (S (length l)). rewrite S_INR.
    simpl. rewrite IH. lra.
Qed.

Lemma mean_centered (l : list R) : mean (map (fun x => x - mean l) l) = 0.
Proof.
  unfold mean at 1. rewrite Rsum_shift, length_map.
  destruct l as [|x l].
  - simpl. lra.
  - unfold mean. set (n := INR (length (x :: l))).
    assert (n <> 0) by (apply not_0_INR; discriminate).
    field. assumption.
Qed.

Lemma length_mean_axis0 p m : length (mean_axis0 p m) = p.
Proof. unfold mean_axis0. now rewrite length_map, length_seq. Qed.

Lemma nth_mean_axis0 p m j :
  (j < p)%nat -> nth j (mean_axis0 p m) 0 = mean (col j m).
Proof.
  intros Hj. unfold mean_axis0.
  rewrite (nth_indep _ 0 (mean (col 0 m)))
    by now rewrite length_map, length_seq.
  rewrite (map_nth (fun j => mean (col j m)) (seq 0 p) 0%nat j).
  now rewrite seq_nth.
Qed.

Lemma length_vsub a b : length (vsub a b) = Nat.min (length a) (length b).
Proof. unfold vsub. now rewrite length_map, length_combine. Qed.

Lemma nth_vsub a b j :
  length a = length b -> nth j (vsub a b) 0 = nth j a 0 - nth j b 0.
Proof.
  revert b j; induction a as [|x a IH]; intros [|y b] [|j] H; simpl in *;
    try discriminate; try lra.
  apply IH. congruence.
Qed.

Lemma vsub_zero a p : length a = p -> vsub a (repeat 0 p) = a.
Proof.
  intros <-. induction a as [|x a IH]; simpl; auto.
  unfold vsub in *. simpl. rewrite IH. f_equal. lra.
Qed.

Lemma length_center_rows p sel : length (center_rows p sel) = length sel.
Proof. unfold center_rows. apply length_map. Qed.

Lemma col_center_rows p sel j :
  Forall (fun r => length r = p) sel -> (j < p)%nat ->
  col j (center_rows p sel) = map (fun x => x - mean (col j sel)) (col j sel).
Proof.
  intros Hsel Hj. unfold col, center_rows. rewrite !map_map.
  apply map_ext_in. intros r Hr.
  rewrite Forall_forall in Hsel.
  rewrite nth_vsub by (rewrite length_mean_axis0; now apply Hsel).
  now rewrite nth_mean_axis0.
Qed.

(** After centering, every column of the selected rows has mean zero. *)
Lemma mean_axis0_center_rows p sel :
  Forall (fun r => length r = p) sel ->
  mean_axis0 p (center_rows p sel) = repeat 0 p.
Proof.
  intros Hsel. apply (nth_ext _ _ 0 0).
  - now rewrite length_mean_axis0, repeat_length.
  - rewrite length_mean_axis0. intros j Hj.
    rewrite nth_mean_axis0 by assumption.
    rewrite col_center_rows by assumption.
    rewrite mean_centered. symmetry. apply nth_repeat.
Qed.

Lemma np_take_Forall {A : Type} (P : A -> Prop) (a : list A) index sel :
  Forall P a -> np_take a index = Some sel -> Forall P sel.
Proof.
  intros Ha. revert sel. induction index as [|i index IH]; intros sel; simpl.
  - intros [= <-]. constructor.
  - destruct (nth_error a i) as [x|] eqn:E; [|discriminate].
    destruct (np_take a index); [|discriminate].
    intros [= <-]. constructor; auto.
    rewrite Forall_forall in Ha. apply Ha. eapply nth_error_In; eauto.
Qed.

Lemma is_matrix_ncols n p m : is_matrix n p m -> (0 < n)%nat -> ncols m = p.
Proof.
  intros [Hn Hr] Hpos. destruct m as [|r m]; simpl in *; [lia|].
  now inversion Hr.
Qed.

Lemma zeros_nth_error n p r :
  (r < n)%nat -> nth_error (zeros n p) r = Some (repeat 0 p).
Proof. intros H. unfold zeros. now apply nth_error_repeat. Qed.

Lemma length_zeros n p : length (zeros n p) = n.
Proof. apply repeat_length. Qed.

(** ** [demean] *)

(** Row-by-row description of the result of [demean]. *)
Lemma demean_rows n p var gt :
  is_matrix n p var -> in_range n gt -> NoDup (map fst gt) ->
  exists out,
    demean var gt = Some out /\
    length out = n /\
    (forall r, (r < n)%nat -> ~ In r (map fst gt) ->
       nth_error out r = Some (repeat 0 p)) /\
    (forall r c, In (r, c) gt ->
       exists row sel,
         nth_error var r = Some row /\
         np_take var (group_rows gt c) = Some sel /\
         nth_error out r = Some (vsub row (mean_axis0 p sel))).
Proof.
  intros Hm Hin Hnd. destruct (Hm) as [Hn Hrows]. unfold demean.
  destruct (group_loop_spec (center_rows (ncols var)) var gt
              (length_center_rows _)
              ltac:(rewrite Hn; exact Hin) Hnd
              (zeros (length var) (ncols var)) (length_zeros _ _))
    as (out & Hout & Hlen & Hu & Hw).
  exists out. split; [exact Hout|]. split; [congruence|]. split.
  - intros r Hr Hnot. rewrite (Hu r Hnot).
    rewrite zeros_nth_error by lia.
    rewrite (is_matrix_ncols n p var Hm) by lia. reflexivity.
  - intros r c Hrc. destruct (Hw r c Hrc) as (sel & k & Hsel & Hk & Hval).
    assert (Hr : (r < n)%nat) by eauto.
    rewrite (is_matrix_ncols n p var Hm) in Hval by lia.
    pose proof (np_take_nth _ _ _ _ _ Hsel Hk) as Hs.
    destruct (nth_error var r) as [row|] eqn:Erow.
    + exists row, sel. repeat split; auto.
      rewrite Hval. unfold center_rows. rewrite nth_error_map, Hs.
      reflexivity.
    + apply nth_error_None in Erow. lia.
Qed.

Lemma group_rows_single n c :
  group_rows (map (fun r => (r, c)) (seq 0 n)) c = seq 0 n.
Proof.
  unfold group_rows. generalize 0%nat.
  induction n as [|n IH]; intros s; simpl; auto.
  rewrite Nat.eqb_refl. simpl. now rewrite IH.
Qed.

(** The result of [demean] has the shape of its input. *)
Lemma demean_shape n p var gt out :
  is_matrix n p var -> in_range n gt -> NoDup (map fst gt) ->
  demean var gt = Some out -> is_matrix n p out.
Proof.
  intros Hm Hin Hnd Hout.
  destruct (demean_rows n p var gt Hm Hin Hnd) as (out' & Hout' & Hlen & Hz & Hw).
  rewrite Hout in Hout'. injection Hout' as <-.
  destruct (Hm) as [Hn Hrows].
  split; [exact Hlen|]. apply Forall_forall. intros row Hrow.
  apply In_nth_error in Hrow. destruct Hrow as [r Hr].
  assert (Hrn : (r < n)%nat).
  { rewrite <- Hlen. apply nth_error_Some. rewrite Hr. discriminate. }
  destruct (in_dec Nat.eq_dec r (map fst gt)) as [Hi|Hi].
  - apply in_map_iff in Hi. destruct Hi as [[r' c] [E Hrc]].
    simpl in E. subst r'.
    destruct (Hw r c Hrc) as (row0 & sel & Hrow0 & _ & Hval).
    rewrite Hval in Hr. injection Hr as <-.
    rewrite length_vsub, length_mean_axis0.
    rewrite Forall_forall in Hrows.
    rewrite (Hrows row0) by (eapply nth_error_In; eauto).
    apply Nat.min_id.
  - rewrite (Hz r Hrn Hi) in Hr. injection Hr as <-. apply repeat_length.
Qed.

(** In the result of [demean] the rows of a group are the centered rows
    of the group, so their column means vanish. *)
Lemma demean_group_mean_zero n p var gt out c :
  is_matrix n p var -> in_range n gt -> NoDup (map fst gt) ->
  demean var gt = Some out ->
  exists sel, np_take out (group_rows gt c) = Some sel /\
              mean_axis0 p sel = repeat 0 p.
Proof.
  intros Hm Hin Hnd Hout.
  destruct (demean_rows n p var gt Hm Hin Hnd) as (out' & Hout' & Hlen & Hz & Hw).
  rewrite Hout in Hout'. injection Hout' as <-.
  destruct (Hm) as [Hn Hrows].
  destruct (np_take_total out (group_rows gt c)) as [sel' Hsel'].
  { intros i Hi. apply group_rows_In in Hi. rewrite Hlen. eauto. }
  destruct (np_take_total var (group_rows gt c)) as [sel Hsel].
  { intros i Hi. apply group_rows_In in Hi. rewrite Hn. eauto. }
  exists sel'. split; [exact Hsel'|].
  assert (E : sel' = center_rows p sel).
  { apply nth_error_ext. intros k.
    destruct (nth_error (group_rows gt c) k) as [r|] eqn:Ek.
    - rewrite (np_take_nth _ _ _ _ _ Hsel' Ek).
      assert (Hrc : In (r, c) gt).
      { apply group_rows_In. eapply nth_error_In; eauto. }
      destruct (Hw r c Hrc) as (row & sel0 & Hrow & Hsel0 & Hval).
      rewrite Hsel in Hsel0. injection Hsel0 as <-.
      rewrite Hval. unfold center_rows.
      rewrite nth_error_map, (np_take_nth _ _ _ _ _ Hsel Ek), Hrow.
      reflexivity.
    - apply nth_error_None in Ek.
      pose proof (np_take_length _ _ _ Hsel') as L1.
      pose proof (np_take_length _ _ _ Hsel) as L2.
      transitivity (@None vec); [|symmetry]; apply nth_error_None.
      + lia.
      + rewrite length_center_rows. lia. }
  rewrite E. apply mean_axis0_center_rows.
  eapply np_take_Forall; eauto.
Qed.

(** C4. For an N*P matrix and a sparse group assignment whose row indices
    are in range and in which every observation belongs to at most one
    group, [demean] returns an N*P matrix; the rows of every group have
    column means zero in the output; the output row of a grouped
    observation is its input row minus the column means of its group (rows
    keep their positions); and when one group holds all N rows the output
    is the input minus its global column means. *)
Theorem demean_contract n p var gt :
  is_matrix n p var -> in_range n gt -> NoDup (map fst gt) ->
  exists out,
    demean var gt = Some out /\
    is_matrix n p out /\
    (forall c, In c (map snd gt) ->
       exists sel, np_take out (group_rows gt c) = Some sel /\
                   mean_axis0 p sel = repeat 0 p) /\
    (forall r c, In (r, c) gt ->
       exists row sel,
         nth_error var r = Some row /\
         np_take var (group_rows gt c) = Some sel /\
         nth_error out r = Some (vsub row (mean_axis0 p sel))) /\
    (forall c, gt = map (fun r => (r, c)) (seq 0 n) ->
       out = map (fun row => vsub row (mean_axis0 p var)) var).
Proof.
  intros Hm Hin Hnd.
  destruct (demean_rows n p var gt Hm Hin Hnd) as (out & Hout & Hlen & Hz & Hw).
  destruct (Hm) as [Hn Hrows].
  exists out. split; [exact Hout|].
  split; [now apply (demean_shape n p var gt)|]. split; [|split].
  - intros c _. now apply (demean_group_mean_zero n p var gt).
  - exact Hw.
  - intros c ->. apply nth_error_ext. intros r.
    rewrite nth_error_map.
    destruct (nth_error var r) as [row|] eqn:Erow.
    + assert (Hr : (r < n)%nat).
      { rewrite <- Hn. apply nth_error_Some. rewrite Erow. discriminate. }
      assert (Hrc : In (r, c) (map (fun r => (r, c)) (seq 0 n))).
      { apply in_map_iff. exists r. split; auto. apply in_seq. lia. }
      destruct (Hw r c Hrc) as (row' & sel & Hrow' & Hsel & Hval).
      rewrite group_rows_single, <- Hn, np_take_all in Hsel.
      injection Hsel as <-. rewrite Hval. simpl. congruence.
    + simpl. apply nth_error_None. apply nth_error_None in Erow. lia.
Qed.

(** A three-row sample with two groups, used to exercise [demean]. *)
Lemma demean_contract_witness :
  exists out,
    demean [[1; 2]; [3; 4]; [5; 8]] [(0, 1); (1, 0); (2, 1)]%nat = Some out /\
    is_matrix 3 2 out.
Proof.
  destruct (demean_contract 3 2 [[1; 2]; [3; 4]; [5; 8]]
              [(0, 1); (1, 0); (2, 1)]%nat) as (out & H1 & H2 & _).
  - split; [reflexivity|]. repeat constructor.
  - intros r c H. simpl in H.
    repeat (destruct H as [H|H]; [injection H as <- <-; lia|]). destruct H.
  - simpl. repeat constructor; simpl; intuition discriminate.
  - exists out. split; assumption.
Defined.

(** C9. Under the same conditions, demeaning the output of [demean] once
    more with the same group assignment returns it unchanged. *)
Theorem demean_idempotent n p var gt :
  is_matrix n p var -> in_range n gt -> NoDup (map fst gt) ->
  exists out, demean var gt = Some out /\ demean out gt = Some out.
Proof.
  intros Hm Hin Hnd.
  destruct (demean_rows n p var gt Hm Hin Hnd) as (out & Hout & _ & Hz & _).
  pose proof (demean_shape n p var gt out Hm Hin Hnd Hout) as Hmo.
  pose proof (fun c => demean_group_mean_zero n p var gt out c Hm Hin Hnd Hout)
    as Hmean.
  destruct (demean_rows n p out gt Hmo Hin Hnd) as (out2 & Hout2 & Hlen2 & Hz2 & Hw2).
  exists out. split; [exact Hout|]. rewrite Hout2. f_equal.
  destruct Hmo as [Hlen Hrows].
  apply nth_error_ext. intros r.
  destruct (Nat.lt_ge_cases r n) as [Hr|Hr].
  - destruct (in_dec Nat.eq_dec r (map fst gt)) as [Hi|Hi].
    + apply in_map_iff in Hi. destruct Hi as [[r' c] [E Hrc]].
      simpl in E. subst r'.
      destruct (Hw2 r c Hrc) as (row & sel & Hrow & Hsel & Hval).
      destruct (Hmean c) as (sel' & Hsel' & Hzero).
      rewrite Hsel in Hsel'. injection Hsel' as <-.
      rewrite Hval, Hrow, Hzero. f_equal. apply vsub_zero.
      rewrite Forall_forall in Hrows. apply Hrows.
      eapply nth_error_In; eauto.
    + now rewrite Hz2, Hz.
  - transitivity (@None vec); [|symmetry]; apply nth_error_None; lia.
Qed.

Lemma demean_idempotent_witness :
  exists out,
    demean [[1; 2]; [3; 4]; [5; 8]] [(0, 1); (1, 0); (2, 1)]%nat = Some out /\
    demean out [(0, 1); (1, 0); (2, 1)]%nat = Some out.
Proof.
  apply (demean_idempotent 3 2).
  - split; [reflexivity|]. repeat constructor.
  - intros r c H. simpl in H.
    repeat (destruct H as [H|H]; [injection H as <- <-; lia|]). destruct H.
  - simpl. repeat constructor; simpl; intuition discriminate.
Defined.

(** C10. A row whose index occurs in no (observation, group) pair is
    all zeros in the output of [demean], whatever the input row holds:
    the output starts as zeros and only grouped rows are written. *)
Theorem demean_ungrouped_row_zero var gt r :
  in_range (length var) gt ->
  (r < length var)%nat ->
  ~ In r (map fst gt) ->
  exists out,
    demean var gt = Some out /\
    nth_error out r = Some (repeat 0 (ncols var)).
Proof.
  intros Hin Hr Hnot. unfold demean, group_loop.
  destruct (group_fold_untouched (center_rows (ncols var)) var gt
              Hin (np_unique (map snd gt))
              (zeros (length var) (ncols var)) (length_zeros _ _))
    as (out & Hout & _ & Hu).
  exists out. split; [exact Hout|].
  rewrite Hu.
  - now apply zeros_nth_error.
  - intros c _ Hrc. apply Hnot. change r with (fst (r, c)). now apply in_map.
Qed.

(** The second row (3, 4) belongs to no group and comes out as (0, 0). *)
Lemma demean_ungrouped_row_zero_witness :
  exists out,
    demean [[1; 2]; [3; 4]; [5; 8]] [(0, 0); (2, 0)]%nat = Some out /\
    nth_error out 1 = Some [0; 0].
Proof.
  apply (demean_ungrouped_row_zero [[1; 2]; [3; 4]; [5; 8]]
           [(0, 0); (2, 0)]%nat 1).
  - intros r c H. simpl in H.
    repeat (destruct H as [H|H]; [injection H as <- <-; simpl; lia|]).
    destruct H.
  - simpl. lia.
  - simpl. intuition discriminate.
Defined.

(** ** Sums over index ranges *)

Lemma Rsum_linear {A : Type} (a b : R) (f g : A -> R) (l : list A) :
  Rsum (map (fun i => a * f i + b * g i) l)
  = a * Rsum (map f l) + b * Rsum (map g l).
Proof. induction l as [|x l IH]; simpl; [|rewrite IH]; lra. Qed.

Lemma Rsum_ext {A : Type} (f g : A -> R) (l : list A) :
  (forall i, In i l -> f i = g i) -> Rsum (map f l) = Rsum (map g l).
Proof. intros H. f_equal. now apply map_ext_in. Qed.

Lemma Rsum_map_zero {A : Type} (f : A -> R) (l : list A) :
  (forall i, In i l -> f i = 0) -> Rsum (map f l) = 0.
Proof.
  intros H. induction l as [|x l IH]; simpl; auto.
  rewrite H by now left. rewrite IH; [lra|]. intros; apply H; now right.
Qed.

Lemma Rsum_delta (g : nat -> R) p s n :
  (s <= p < s + n)%nat ->
  Rsum (map (fun i => delta p i * g i) (seq s n)) = g p.
Proof.
  revert s; induction n as [|n IH]; intros s Hp; [lia|]. simpl.
  unfold delta at 1. destruct (s =? p)%nat eqn:E.
  - apply Nat.eqb_eq in E. subst s.
    rewrite Rsum_map_zero; [lra|].
    intros i Hi. apply in_seq in Hi. unfold delta.
    destruct (i =? p)%nat eqn:E; [apply Nat.eqb_eq in E; lia|lra].
  - apply Nat.eqb_neq in E. rewrite IH by lia. lra.
Qed.

Lemma dot_index n (a b : vec) :
  length a = n -> length b = n ->
  dot a b = Rsum (map (fun i => nth i a 0 * nth i b 0) (seq 0 n)).
Proof.
  unfold dot. revert n b. induction a as [|x a IH]; intros n [|y b] Ha Hb;
    simpl in *; subst n; try discriminate; auto.
  simpl. f_equal. rewrite <- seq_shift, map_map. apply IH; congruence.
Qed.

Lemma length_col j (m : matrix) : length (col j m) = length m.
Proof. apply length_map. Qed.

Lemma nth_col j (m : matrix) i : nth i (col j m) 0 = entry m i j.
Proof.
  unfold col, entry. destruct (Nat.lt_ge_cases i (length m)) as [H|H].
  - rewrite (nth_indep _ 0 (nth j [] 0)) by now rewrite length_map.
    apply (map_nth (fun r => nth j r 0)).
  - rewrite (nth_overflow (map _ m)) by now rewrite length_map.
    rewrite (nth_overflow m) by assumption. now destruct j.
Qed.

Lemma length_vecmat x (m : matrix) : length (vecmat x m) = ncols m.
Proof. unfold vecmat. now rewrite length_map, length_seq. Qed.

Lemma nth_vecmat x (m : matrix) j :
  (j < ncols m)%nat -> nth j (vecmat x m) 0 = dot x (col j m).
Proof.
  intros H. unfold vecmat.
  rewrite (nth_indep _ 0 (dot x (col 0 m))) by now rewrite length_map, length_seq.
  rewrite (map_nth (fun j => dot x (col j m)) (seq 0 (ncols m)) 0%nat j).
  now rewrite seq_nth.
Qed.

(** [x @ m @ y] as a double sum over the entries of [m]. *)
Lemma quad_form_index n p (x y : vec) (m : matrix) :
  is_matrix n p m -> (0 < n)%nat -> length x = n -> length y = p ->
  quad_form x m y
  = Rsum (map (fun j =>
                 Rsum (map (fun i => nth i x 0 * entry m i j) (seq 0 n))
                 * nth j y 0)
              (seq 0 p)).
Proof.
  intros Hm Hn Hx Hy. unfold quad_form.
  pose proof (is_matrix_ncols _ _ _ Hm Hn) as Hc.
  rewrite (dot_index p) by (rewrite ?length_vecmat; congruence).
  apply Rsum_ext. intros j Hj. apply in_seq in Hj.
  rewrite nth_vecmat by lia.
  rewrite (dot_index n) by (rewrite ?length_col; destruct Hm; congruence).
  f_equal. apply Rsum_ext. intros i _. now rewrite nth_col.
Qed.

(** ** Positive semi-definite matrices *)

Lemma Rsum_two_hot (g : nat -> R) a b p q n :
  (p < n)%nat -> (q < n)%nat ->
  Rsum (map (fun i => (a * delta p i + b * delta q i) * g i) (seq 0 n))
  = a * g p + b * g q.
Proof.
  intros Hp Hq.
  rewrite (Rsum_ext _ (fun i => a * (delta p i * g i) + b * (delta q i * g i)))
    by (intros; ring).
  rewrite Rsum_linear, !Rsum_delta by lia. reflexivity.
Qed.

(** The quadratic form at the vector with [a] at position [p] and [b] at
    position [q]. *)
Lemma quad_form_two_hot n (m : matrix) p q a b :
  is_matrix n n m -> (p < n)%nat -> (q < n)%nat -> p <> q ->
  let x := map (fun i => a * delta p i + b * delta q i) (seq 0 n) in
  quad_form x m x
  = a * (a * entry m p p + b * entry m q p)
    + b * (a * entry m p q + b * entry m q q).
Proof.
  intros Hm Hp Hq Hpq x.
  assert (Hx : length x = n) by (unfold x; now rewrite length_map, length_seq).
  assert (Hnth : forall i, (i < n)%nat ->
            nth i x 0 = a * delta p i + b * delta q i).
  { intros i Hi. unfold x.
    rewrite (nth_indep _ 0 (a * delta p 0 + b * delta q 0))
      by now rewrite length_map, length_seq.
    rewrite (map_nth (fun i => a * delta p i + b * delta q i) (seq 0 n) 0%nat i).
    now rewrite seq_nth. }
  rewrite (quad_form_index n n) by (auto; lia).
  rewrite (Rsum_ext _ (fun j => (a * delta p j + b * delta q j)
                               * (a * entry m p j + b * entry m q j))).
  - now rewrite Rsum_two_hot.
  - intros j Hj. apply in_seq in Hj. rewrite Hnth by lia.
    rewrite (Rsum_ext _ (fun i => (a * delta p i + b * delta q i) * entry m i j)).
    + rewrite Rsum_two_hot by assumption. ring.
    + intros i Hi. apply in_seq in Hi. now rewrite Hnth by lia.
Qed.

(** Cauchy-Schwarz for the entries of a positive semi-definite matrix. *)
Lemma psd_minor n (m : matrix) p q :
  is_matrix n n m -> symmetric m -> psd m ->
  (p < n)%nat -> (q < n)%nat -> p <> q ->
  0 < entry m p p ->
  entry m p q * entry m p q <= entry m p p * entry m q q.
Proof.
  intros Hm Hsym Hpsd Hp Hq Hpq Hpos.
  pose proof (quad_form_two_hot n m p q (entry m p q) (- entry m p p)
                Hm Hp Hq Hpq) as E.
  cbv zeta in E.
  match type of E with quad_form ?x _ _ = _ =>
    assert (H0 : 0 <= quad_form x m x)
  end.
  { apply Hpsd. rewrite length_map, length_seq. now destruct Hm. }
  rewrite E in H0. rewrite (Hsym q p) in H0.
  set (c := entry m p q) in *. set (d := entry m p p) in *.
  set (e := entry m q q) in *.
  assert (H1 : 0 <= d * (d * e - c * c)) by lra.
  destruct (Rle_or_lt (c * c) (d * e)) as [H|H]; [exact H|].
  exfalso. assert (d * (d * e - c * c) < 0); [|lra].
  rewrite <- (Rmult_0_r d). apply Rmult_lt_compat_l; lra.
Qed.

(** ** [cov_to_cor] *)

Lemma entry_np_outer (u v : vec) i j :
  (i < length u)%nat -> (j < length v)%nat ->
  entry (np_outer u v) i j = nth i u 0 * nth j v 0.
Proof.
  intros Hi Hj. unfold entry, np_outer.
  rewrite (nth_indep _ [] (map (fun y => 0 * y) v)) by now rewrite length_map.
  rewrite (map_nth (fun x => map (fun y => x * y) v) u 0 i).
  rewrite (nth_indep _ 0 (nth i u 0 * 0)) by now rewrite length_map.
  apply (map_nth (fun y => nth i u 0 * y)).
Qed.

Lemma nth_vdiv (a b : vec) j :
  (j < length a)%nat -> (j < length b)%nat ->
  nth j (vdiv a b) 0 = nth j a 0 / nth j b 0.
Proof.
  revert b j; induction a as [|x a IH]; intros [|y b] [|j] Ha Hb;
    simpl in *; try lia; auto.
  apply IH; lia.
Qed.

Lemma entry_mdiv (a b : matrix) i j :
  (i < length a)%nat -> (i < length b)%nat ->
  (j < length (nth i a []))%nat -> (j < length (nth i b []))%nat ->
  entry (mdiv a b) i j = entry a i j / entry b i j.
Proof.
  unfold entry, mdiv.
  revert b i; induction a as [|r a IH]; intros [|s b] [|i] Ha Hb Hja Hjb;
    simpl in *; try lia.
  - now apply nth_vdiv.
  - apply IH; auto; lia.
Qed.

Lemma is_matrix_row n p (m : matrix) i :
  is_matrix n p m -> (i < n)%nat -> length (nth i m []) = p.
Proof.
  intros [Hn Hr] Hi. rewrite Forall_forall in Hr. apply Hr.
  apply nth_In. lia.
Qed.

Lemma nth_sqrt_diag n (m : matrix) i :
  is_matrix n n m -> (i < n)%nat ->
  nth i (map sqrt (np_diag m)) 0 = sqrt (entry m i i).
Proof.
  intros Hm Hi. unfold np_diag.
  rewrite (is_matrix_ncols n n m Hm) by lia. destruct (Hm) as [-> _].
  rewrite Nat.min_id, map_map.
  rewrite (nth_indep _ 0 (sqrt (entry m 0 0))) by now rewrite length_map, length_seq.
  rewrite (map_nth (fun i => sqrt (entry m i i)) (seq 0 n) 0%nat i).
  now rewrite seq_nth.
Qed.

Lemma length_sqrt_diag n (m : matrix) :
  is_matrix n n m -> length (map sqrt (np_diag m)) = n.
Proof.
  intros Hm. unfold np_diag. rewrite length_map, length_map, length_seq.
  destruct n as [|n].
  - destruct Hm as [-> _]. reflexivity.
  - rewrite (is_matrix_ncols _ _ m Hm) by lia. destruct Hm as [-> _].
    apply Nat.min_id.
Qed.

(** Entry (i, j) of the correlation matrix. *)
Lemma entry_cov_to_cor n (cov : matrix) i j :
  is_matrix n n cov -> (i < n)%nat -> (j < n)%nat ->
  entry (cov_to_cor cov) i j
  = entry cov i j / (sqrt (entry cov i i) * sqrt (entry cov j j)).
Proof.
  intros Hm Hi Hj. unfold cov_to_cor.
  pose proof (length_sqrt_diag n cov Hm) as Hl.
  assert (Hlo : length (np_outer (map sqrt (np_diag cov)) (map sqrt (np_diag cov))) = n).
  { unfold np_outer. now rewrite length_map. }
  rewrite entry_mdiv.
  - rewrite entry_np_outer by lia. now rewrite !(nth_sqrt_diag n).
  - destruct Hm; lia.
  - lia.
  - now rewrite (is_matrix_row n n).
  - unfold np_outer.
    rewrite (nth_indep _ [] (map (fun y => 0 * y) (map sqrt (np_diag cov))))
      by (rewrite length_map; lia).
    rewrite (map_nth (fun x => map (fun y => x * y) (map sqrt (np_diag cov)))).
    rewrite length_map. lia.
Qed.

Lemma cov_to_cor_diag n (cov : matrix) i :
  is_matrix n n cov -> (i < n)%nat -> 0 < entry cov i i ->
  entry (cov_to_cor cov) i i = 1.
Proof.
  intros Hm Hi Hpos. rewrite (entry_cov_to_cor n) by assumption.
  rewrite sqrt_sqrt by lra. field. lra.
Qed.

Lemma cov_to_cor_offdiag n (cov : matrix) i j :
  is_matrix n n cov -> symmetric cov -> psd cov ->
  (forall k, (k < n)%nat -> 0 < entry cov k k) ->
  (i < n)%nat -> (j < n)%nat -> i <> j ->
  Rabs (entry (cov_to_cor cov) i j) <= 1.
Proof.
  intros Hm Hsym Hpsd Hpos Hi Hj Hij.
  rewrite (entry_cov_to_cor n) by assumption.
  pose proof (psd_minor n cov i j Hm Hsym Hpsd Hi Hj Hij (Hpos i Hi)) as Hcs.
  pose proof (Hpos i Hi) as Hdi. pose proof (Hpos j Hj) as Hdj.
  set (c := entry cov i j) in *.
  set (s := sqrt (entry cov i i) * sqrt (entry cov j j)).
  assert (Hs : 0 < s).
  { unfold s. apply Rmult_lt_0_compat; apply sqrt_lt_R0; assumption. }
  assert (Hss : s * s = entry cov i i * entry cov j j).
  { unfold s.
    transitivity ((sqrt (entry cov i i) * sqrt (entry cov i i))
                  * (sqrt (entry cov j j) * sqrt (entry cov j j))); [ring|].
    rewrite !sqrt_sqrt by lra. reflexivity. }
  assert (Hq : c / s * s = c) by (field; lra).
  apply Rabs_le. split.
  - apply Rmult_le_reg_r with s; [exact Hs|]. rewrite Hq. nra.
  - apply Rmult_le_reg_r with s; [exact Hs|]. rewrite Hq. nra.
Qed.

(** C7. For a symmetric covariance matrix with strictly positive
    diagonal, the diagonal of [cov_to_cor] is all ones; if the matrix is
    also positive semi-definite, every off-diagonal entry is at most one in
    magnitude; and the correlations a replication reports for a household
    type are those of the repaired central covariance matrix, whatever the
    half- and double-penalty coefficients are. *)
Theorem cov_to_cor_correlation n (cov : matrix) :
  is_matrix n n cov -> symmetric cov ->
  (forall i, (i < n)%nat -> 0 < entry cov i i) ->
  (forall i, (i < n)%nat -> entry (cov_to_cor cov) i i = 1) /\
  (psd cov ->
   forall i j, (i < n)%nat -> (j < n)%nat -> i <> j ->
     Rabs (entry (cov_to_cor cov) i j) <= 1) /\
  (forall nearestPD k cov_val cov_val_l cov_val_u s,
     type_stage nearestPD k cov_val cov_val_l cov_val_u = Some s ->
     exists cov_matrix,
       fill_sym k cov_val = Some cov_matrix /\
       cov_matrix_pd s = nearestPD cov_matrix /\
       cor_new s = triu (cov_to_cor (cov_matrix_pd s)) /\
       forall cov_val_l' cov_val_u' s',
         type_stage nearestPD k cov_val cov_val_l' cov_val_u' = Some s' ->
         cor_new s' = cor_new s).
Proof.
  intros Hm Hsym Hpos. split; [|split].
  - intros i Hi. apply (cov_to_cor_diag n); auto.
  - intros Hpsd i j Hi Hj Hij. apply (cov_to_cor_offdiag n); auto.
  - intros npd k v vl vu s Hs. unfold type_stage in Hs.
    destruct (fill_sym k v) as [cm|] eqn:Ecm; [|discriminate].
    destruct (fill_sym k vl); [|discriminate].
    destruct (fill_sym k vu); [|discriminate].
    injection Hs as <-. exists cm. simpl. repeat split.
    intros vl' vu' s' Hs'. unfold type_stage in Hs'. rewrite Ecm in Hs'.
    destruct (fill_sym k vl'); [|discriminate].
    destruct (fill_sym k vu'); [|discriminate].
    injection Hs' as <-. reflexivity.
Qed.

(** The covariance matrix ((4, 2), (2, 9)) is symmetric, positive definite,
    and its correlation matrix has unit diagonal and bounded off-diagonal. *)
Lemma cov_to_cor_correlation_witness :
  entry (cov_to_cor [[4; 2]; [2; 9]]) 0 0 = 1 /\
  Rabs (entry (cov_to_cor [[4; 2]; [2; 9]]) 0 1) <= 1.
Proof.
  destruct (cov_to_cor_correlation 2 [[4; 2]; [2; 9]]) as (Hd & Ho & _).
  - split; [reflexivity|]. repeat constructor.
  - intros [|[|i]] [|[|j]]; unfold entry; simpl; try reflexivity;
      repeat (match goal with
              | |- context [match ?k with O => _ | S _ => _ end] =>
                  destruct k; simpl
              end); reflexivity.
  - intros [|[|i]] Hi; unfold entry; simpl; try lra; lia.
  - split.
    + apply Hd. lia.
    + apply Ho; try lia.
      intros x Hx. destruct x as [|a [|b [|? ?]]]; try discriminate.
      unfold quad_form, vecmat, dot. simpl. nra.
Defined.

(** ** Barten scale estimates *)

Lemma params_where_combine (p : string -> bool) (names : list string) :
  forall (vals : vec) s,
    length vals = length names ->
    map snd (params_where p (combine names vals))
    = map (fun k => nth (k - s) vals 0)
        (map fst (filter (fun kn => p (snd kn))
                         (combine (seq s (length names)) names))).
Proof.
  unfold params_where.
  induction names as [|n names IH]; intros [|v vals] s Hlen;
    try discriminate; simpl; auto.
  simpl in Hlen. injection Hlen as Hlen.
  destruct (p n); simpl.
  - rewrite Nat.sub_diag. f_equal. rewrite (IH vals (S s) Hlen).
    apply map_ext_in. intros k Hk.
    apply in_map_iff in Hk. destruct Hk as [[k' n'] [<- Hk]].
    apply filter_In in Hk. destruct Hk as [Hk _].
    apply in_combine_l in Hk. apply in_seq in Hk. simpl.
    replace (k' - s)%nat with (S (k' - S s)) by lia. reflexivity.
  - rewrite (IH vals (S s) Hlen).
    apply map_ext_in. intros k Hk.
    apply in_map_iff in Hk. destruct Hk as [[k' n'] [<- Hk]].
    apply filter_In in Hk. destruct Hk as [Hk _].
    apply in_combine_l in Hk. apply in_seq in Hk. simpl.
    replace (k' - s)%nat with (S (k' - S s)) by lia. reflexivity.
Qed.

Lemma params_where_positions (p : string -> bool) names (vals : vec) :
  length vals = length names ->
  map snd (params_where p (combine names vals))
  = map (fun k => nth k vals 0) (positions_where p names).
Proof.
  intros H. rewrite (params_where_combine p names vals 0%nat H).
  unfold positions_where. apply map_ext. intros k. now rewrite Nat.sub_0_r.
Qed.

(** C5 on the code, at ten household types, two goods and the two
    demographic variables of the program.  The test for
    the single baseline picks the two single-baseline [ery] coefficients,
    one per good.  The test for the first type, [str.contains('h1')],
    picks four coefficients: those of the first type and those of the
    tenth, whose label [h10] begins with [h1].  [theta_h] is then too long
    for the division by [theta_s], and [barten_results] raises instead of
    returning the ratio of the first type. *)
Lemma barten_results_type_label_collision :
  let cfg := {| TYPE := [24; 27; 28; 11; 12; 13; 14; 15; 16; 17];
                SHAREABLE := [1; 2]; NONSHAREABLE := 6; DEMOG := [1; 2] |}%nat in
  let params := combine (SUR_param_names (mean_eqs cfg)) (repeat 1 70) in
  map fst (params_where
             (fun n => str_contains n "s" && negb (str_contains n "z")) params)
  = [single_coef_name cfg 0; single_coef_name cfg 1] /\
  map fst (params_where
             (fun n => str_contains n ("h" ++ str 1)
                       && negb (str_contains n "z")) params)
  = [type_coef_name cfg 0 0; type_coef_name cfg 9 0;
     type_coef_name cfg 0 1; type_coef_name cfg 9 1] /\
  barten_results params 10 2 = None.
Proof.
  cbv zeta. split; [reflexivity|]. split; reflexivity.
Qed.

(** ** The scale-economies index *)

Lemma Rsum_plus {A : Type} (f g : A -> R) (l : list A) :
  Rsum (map (fun i => f i + g i) l) = Rsum (map f l) + Rsum (map g l).
Proof. induction l as [|x l IH]; simpl; [|rewrite IH]; lra. Qed.

Lemma Rsum_scal_r {A : Type} (c : R) (f : A -> R) (l : list A) :
  Rsum (map (fun i => f i * c) l) = Rsum (map f l) * c.
Proof. induction l as [|x l IH]; simpl; [|rewrite IH]; lra. Qed.

Lemma Rsum_swap {A B : Type} (f : A -> B -> R) (la : list A) (lb : list B) :
  Rsum (map (fun a => Rsum (map (fun b => f a b) lb)) la)
  = Rsum (map (fun b => Rsum (map (fun a => f a b) la)) lb).
Proof.
  induction la as [|x la IH]; simpl.
  - symmetry. apply Rsum_map_zero. reflexivity.
  - rewrite IH. symmetry. apply Rsum_plus.
Qed.

(** [x @ m @ y] as the double sum of [x_a * m_ab * y_b]. *)
Lemma quad_form_dsum n (x y : vec) (m : matrix) :
  is_matrix n n m -> (0 < n)%nat -> length x = n -> length y = n ->
  quad_form x m y = dsum n (fun a b => nth a x 0 * entry m a b * nth b y 0).
Proof.
  intros Hm Hn Hx Hy. rewrite (quad_form_index n n) by assumption.
  unfold dsum. rewrite Rsum_swap. apply Rsum_ext. intros j _.
  rewrite <- Rsum_scal_r. reflexivity.
Qed.

Lemma dsum_ext n (f g : nat -> nat -> R) :
  (forall a b, (a < n)%nat -> (b < n)%nat -> f a b = g a b) ->
  dsum n f = dsum n g.
Proof.
  intros H. unfold dsum. apply Rsum_ext. intros a Ha. apply in_seq in Ha.
  apply Rsum_ext. intros b Hb. apply in_seq in Hb. apply H; lia.
Qed.

Lemma is_matrix_sample_cov p (m : matrix) : is_matrix p p (sample_cov p m).
Proof.
  unfold sample_cov. split.
  - now rewrite length_map, length_seq.
  - apply Forall_map. apply Forall_forall. intros a _.
    now rewrite length_map, length_seq.
Qed.

Lemma nth_map_seq {A : Type} (f : nat -> A) n i d :
  (i < n)%nat -> nth i (map f (seq 0 n)) d = f i.
Proof.
  intros H. rewrite (nth_indep _ d (f 0%nat)) by now rewrite length_map, length_seq.
  rewrite (map_nth f (seq 0 n) 0%nat i). now rewrite seq_nth.
Qed.

Lemma entry_sample_cov p (m : matrix) a b :
  (a < p)%nat -> (b < p)%nat ->
  entry (sample_cov p m) a b
  = Rsum (map (fun r => (nth a r 0 - mean (col a m)) * (nth b r 0 - mean (col b m))) m)
    / (INR (length m) - 1).
Proof.
  intros Ha Hb. unfold entry, sample_cov.
  rewrite (nth_map_seq _ p a) by assumption.
  rewrite (nth_map_seq _ p b) by assumption.
  now rewrite !nth_mean_axis0.
Qed.

Lemma is_matrix_block_pad k (c : matrix) :
  is_matrix k k c -> is_matrix (k + 1) (k + 1) (block_pad k c).
Proof.
  intros [Hl Hr]. unfold block_pad. split.
  - rewrite length_app, length_map. simpl. lia.
  - apply Forall_app. split.
    + apply Forall_map. eapply Forall_impl; [|exact Hr]. simpl.
      intros r E. rewrite length_app. simpl. lia.
    + constructor; [|constructor]. apply repeat_length.
Qed.

Lemma entry_block_pad k (c : matrix) a b :
  is_matrix k k c -> (a < k + 1)%nat -> (b < k + 1)%nat ->
  entry (block_pad k c) a b = scale_cov c k a b.
Proof.
  intros Hm Ha Hb. unfold entry, block_pad, scale_cov.
  destruct (Hm) as [Hl Hr].
  destruct (Nat.ltb_spec a k) as [Hak|Hak]; simpl.
  - rewrite app_nth1 by (rewrite length_map; lia).
    rewrite (nth_indep _ [] ([] ++ [0])) by (rewrite length_map; lia).
    rewrite (map_nth (fun r => r ++ [0]) c [] a).
    pose proof (is_matrix_row k k c a Hm Hak) as Hrow.
    destruct (Nat.ltb_spec b k) as [Hbk|Hbk].
    + now rewrite app_nth1 by lia.
    + rewrite app_nth2 by lia. replace (b - length (nth a c []))%nat with 0%nat by lia.
      reflexivity.
  - rewrite app_nth2 by (rewrite length_map; lia).
    rewrite length_map. replace (a - length c)%nat with 0%nat by lia.
    simpl. apply nth_repeat.
Qed.

Lemma nth_barten_full (a_t : vec) k i :
  length a_t = k -> (i < k + 1)%nat ->
  nth i (a_t ++ [1]) 0 = scale_vec a_t k i.
Proof.
  intros Hl Hi. unfold scale_vec.
  destruct (Nat.ltb_spec i k) as [H|H].
  - now rewrite app_nth1 by lia.
  - rewrite app_nth2 by lia. replace (i - length a_t)%nat with 0%nat by lia.
    reflexivity.
Qed.

Lemma np_quad_square n (x y : vec) (m : matrix) :
  is_matrix n n m -> (0 < n)%nat -> length x = n -> length y = n ->
  np_quad x m y = Some (quad_form x m y).
Proof.
  intros Hm Hn Hx Hy. unfold np_quad, np_vecmat, np_dot, quad_form.
  destruct (Hm) as [Hl _]. rewrite Hx, Hl, Nat.eqb_refl.
  rewrite length_vecmat, (is_matrix_ncols n n m Hm Hn), Hy, Nat.eqb_refl.
  reflexivity.
Qed.

Lemma np_block_pad_square k (c : matrix) :
  is_matrix k k c -> np_block_pad k c = Some (block_pad k c).
Proof.
  intros [Hl Hr]. unfold np_block_pad. rewrite Hl, Nat.eqb_refl. simpl.
  replace (forallb (fun r => (length r =? k)%nat) c) with true; [reflexivity|].
  symmetry. apply forallb_forall. intros r Hin. apply Nat.eqb_eq.
  rewrite Forall_forall in Hr. now apply Hr.
Qed.

(** The value of [scale] for one household type, as double sums. *)
Lemma scale_type_spec (barten_df : list vec) (cov : list matrix) (data : matrix)
    (ind : list Z) k n i b c :
  is_matrix n (k + 1) data -> (0 < n)%nat ->
  nth_error barten_df i = Some b -> length b = k ->
  nth_error cov i = Some c -> is_matrix k k c ->
  scale_type barten_df cov
    (mean_axis0 (ncols data) (mask_rows ind data))
    (sample_cov (ncols data) (mask_rows ind data)) k i
  = Some (sqrt (dsum (k + 1) (fun a' b' =>
                  scale_vec b k a' * share_cov data ind a' b' * scale_vec b k b')
                + dsum (k + 1) (fun a' b' =>
                    share_mean data ind a' * scale_cov c k a' b'
                    * share_mean data ind b'))).
Proof.
  intros Hd Hn Eb Hb Ec Hc. unfold scale_type. rewrite Eb, Ec.
  rewrite (np_block_pad_square k c Hc).
  rewrite (is_matrix_ncols n (k + 1) data Hd Hn).
  rewrite (np_quad_square (k + 1));
    try apply is_matrix_sample_cov; try lia;
    try (rewrite length_app, Hb; simpl; lia).
  rewrite (np_quad_square (k + 1));
    try (apply is_matrix_block_pad; assumption); try lia;
    try apply length_mean_axis0.
  f_equal. f_equal. f_equal.
  - rewrite (quad_form_dsum (k + 1));
      try apply is_matrix_sample_cov; try lia;
      try (rewrite length_app, Hb; simpl; lia).
    apply dsum_ext. intros a' b' Ha Hb'.
    rewrite !(nth_barten_full _ k) by assumption.
    rewrite entry_sample_cov by assumption. reflexivity.
  - rewrite (quad_form_dsum (k + 1));
      try (apply is_matrix_block_pad; assumption); try lia;
      try apply length_mean_axis0.
    apply dsum_ext. intros a' b' Ha Hb'.
    rewrite !nth_mean_axis0 by assumption.
    rewrite entry_block_pad by assumption. reflexivity.
Qed.

Lemma nth_error_nth_Some {A : Type} (l : list A) i d :
  (i < length l)%nat -> nth_error l i = Some (nth i l d).
Proof. intros H. now apply nth_error_nth'. Qed.

(** [scale] succeeds on well-shaped arguments and has the stated
    entries. *)
Lemma scale_spec (barten_df : list vec) (cov : list matrix)
    (data : matrix) (ind : list Z) ntype k n :
  is_matrix n (k + 1) data -> (0 < n)%nat -> length ind = n ->
  length barten_df = ntype -> Forall (fun b => length b = k) barten_df ->
  length cov = ntype -> Forall (is_matrix k k) cov ->
  scale barten_df cov data ind ntype k
  = Some (map (fun i =>
            sqrt (dsum (k + 1) (fun a b =>
                    scale_vec (nth i barten_df []) k a * share_cov data ind a b
                    * scale_vec (nth i barten_df []) k b)
                  + dsum (k + 1) (fun a b =>
                      share_mean data ind a * scale_cov (nth i cov []) k a b
                      * share_mean data ind b)))
          (seq 0 ntype)).
Proof.
  intros Hd Hn Hind Hlb Hb Hlc Hc. unfold scale, np_mask.
  destruct (Hd) as [Hld _]. rewrite Hind, Hld, Nat.eqb_refl.
  apply map_opt_map. intros i Hi. apply in_seq in Hi.
  rewrite Forall_forall in Hb, Hc.
  apply (scale_type_spec barten_df cov data ind k n i); auto.
  - apply nth_error_nth_Some. lia.
  - apply Hb. apply nth_In. lia.
  - apply nth_error_nth_Some. lia.
  - apply Hc. apply nth_In. lia.
Qed.

(** C6. On well-shaped arguments [scale] returns one value per household
    type: the square root of scaleVec' shareCov scaleVec + shareMean'
    scaleCov shareMean, where scaleVec is the type's Barten scale vector
    followed by 1, scaleCov is the type's K*K covariance matrix with zeros
    in the added row and column, and shareMean, shareCov are the mean and
    the sample covariance of the budget shares over the observations whose
    indicator is 1.  In a replication the three calls receive the Barten
    scale estimates, the repaired central covariance matrices, the full
    budget shares and the indicators of all singles, single males and
    single females. *)
Theorem scale_delta_method (barten_df : list vec) (cov : list matrix)
    (data : matrix) (ind : list Z) ntype k n :
  is_matrix n (k + 1) data -> (0 < n)%nat -> length ind = n ->
  length barten_df = ntype -> Forall (fun b => length b = k) barten_df ->
  length cov = ntype -> Forall (is_matrix k k) cov ->
  (exists std,
     scale barten_df cov data ind ntype k = Some std /\
     length std = ntype /\
     forall i, (i < ntype)%nat ->
       nth i std 0
       = sqrt (dsum (k + 1) (fun a b =>
                 scale_vec (nth i barten_df []) k a * share_cov data ind a b
                 * scale_vec (nth i barten_df []) k b)
               + dsum (k + 1) (fun a b =>
                   share_mean data ind a * scale_cov (nth i cov []) k a b
                   * share_mean data ind b))) /\
  (forall nearestPD cfg g t ngroup fit_c fit_l fit_u lasso_selec lasso_l lasso_u
          mean_params w_all s,
     bootstrap_tail nearestPD cfg g t ngroup fit_c fit_l fit_u
                    lasso_selec lasso_l lasso_u mean_params w_all = Some s ->
     exists a ts,
       barten_results mean_params (length (TYPE cfg)) (length (SHAREABLE cfg))
       = Some a /\
       map_opt (type_pass nearestPD cfg g t ngroup fit_c fit_l fit_u
                          lasso_selec lasso_l lasso_u)
               (seq 0 (length (TYPE cfg))) = Some ts /\
       scale a (map cov_matrix_pd ts) w_all
         (map (fun r => (nth 0 r 0 + nth 1 r 0)%Z) t)
         (length (TYPE cfg)) (length (SHAREABLE cfg))
       = Some (out_std_scale_s s) /\
       scale a (map cov_matrix_pd ts) w_all (map (fun r => nth 0 r 0%Z) t)
         (length (TYPE cfg)) (length (SHAREABLE cfg))
       = Some (out_std_scale_sm s) /\
       scale a (map cov_matrix_pd ts) w_all (map (fun r => nth 1 r 0%Z) t)
         (length (TYPE cfg)) (length (SHAREABLE cfg))
       = Some (out_std_scale_sf s)).
Proof.
  intros Hd Hn Hind Hlb Hb Hlc Hc. split.
  - rewrite (scale_spec barten_df cov data ind ntype k n) by assumption.
    eexists. split; [reflexivity|]. split.
    + now rewrite length_map, length_seq.
    + intros i Hi. now rewrite (nth_map_seq _ ntype i).
  - intros npd cfg g t ngroup fc fl fu ls ll lu mp w s Hs.
    unfold bootstrap_tail in Hs.
    destruct (map_opt _ _) as [[|first others]|] eqn:Ets; try discriminate.
    destruct (barten_results _ _ _) as [a|] eqn:Ea; [|discriminate].
    change (map (fun r => (nth 0 r 0 + nth 1 r 0)%Z) t) with (singles t).
    change (map (fun r => nth 0 r 0%Z) t) with (single_males t).
    change (map (fun r => nth 1 r 0%Z) t) with (single_females t).
    destruct (scale a _ w (singles t) _ _) as [ss|] eqn:Es; [|discriminate].
    destruct (scale a _ w (single_males t) _ _) as [sm|] eqn:Em; [|discriminate].
    destruct (scale a _ w (single_females t) _ _) as [sf|] eqn:Ef; [|discriminate].
    injection Hs as <-. exists a, (first :: others). simpl.
    repeat split; assumption || reflexivity.
Qed.

Lemma scale_delta_method_witness :
  exists std,
    scale [[2]] [[[1]]] [[1; 2]; [3; 4]] [1; 1]%Z 1 1 = Some std /\
    length std = 1%nat.
Proof.
  destruct (scale_delta_method [[2]] [[[1]]] [[1; 2]; [3; 4]] [1; 1]%Z 1 1 2)
    as [(std & H1 & H2 & _) _].
  - split; [reflexivity|]. repeat constructor.
  - lia.
  - reflexivity.
  - reflexivity.
  - repeat constructor.
  - reflexivity.
  - repeat constructor.
  - exists std. auto.
Defined.

(** ** Strings *)

Lemma has_char_app c s1 s2 :
  has_char c (s1 ++ s2)%string = has_char c s1 || has_char c s2.
Proof.
  induction s1 as [|a s1 IH]; cbn [has_char append]; auto.
  rewrite IH. now rewrite orb_assoc.
Qed.

Lemma has_char_uint c d :
  existsb (Ascii.eqb c) ["0"; "1"; "2"; "3"; "4"; "5"; "6"; "7"; "8"; "9"]%char = false ->
  has_char c (NilEmpty.string_of_uint d) = false.
Proof.
  intros Hc. cbn [existsb] in Hc.
  repeat (apply orb_false_iff in Hc; destruct Hc as [? Hc]).
  induction d; cbn [has_char NilEmpty.string_of_uint]; auto;
    rewrite IHd, Ascii.eqb_sym; rewrite orb_false_r; assumption.
Qed.

Lemma has_char_p_str n : has_char "p" (str n) = false.
Proof. apply has_char_uint. reflexivity. Qed.

Lemma str_contains_no_char s c pat :
  has_char c s = false -> str_contains s (String c pat) = false.
Proof.
  induction s as [|a s IH]; cbn [has_char str_contains prefix]; auto.
  intros H. apply orb_false_iff in H. destruct H as [Ha Hs].
  rewrite IH by assumption. rewrite orb_false_r.
  destruct (ascii_dec c a) as [E|E]; [|reflexivity].
  subst. now rewrite Ascii.eqb_refl in Ha.
Qed.

Lemma str_contains_app_r a b pat :
  str_contains b pat = true -> str_contains (a ++ b)%string pat = true.
Proof.
  intros H. induction a as [|c a IH]; cbn [append str_contains]; auto.
  rewrite IH. apply orb_true_r.
Qed.

(** ** Regressors of the variance equations *)

Lemma masked_In c mask cols :
  In c (masked mask cols) <-> In c mask /\ In c cols.
Proof.
  unfold masked. rewrite filter_In, existsb_exists. split.
  - intros [Hm [x [Hx E]]]. apply String.eqb_eq in E. subst. auto.
  - intros [Hm Hc]. split; auto. exists c. split; auto. apply String.eqb_refl.
Qed.

Lemma in_combine_seq_map {A : Type} (f : nat -> A) n k x :
  forall s,
    In (k, x) (combine (seq s n) (map f (seq s n))) <->
    (s <= k < s + n)%nat /\ x = f k.
Proof.
  induction n as [|n IH]; intros s; simpl.
  - split; [tauto|]. intros [H _]. lia.
  - rewrite IH. split.
    + intros [E|[H ->]].
      * injection E as <- <-. split; [lia|reflexivity].
      * split; [lia|reflexivity].
    + intros [H ->]. destruct (Nat.eq_dec s k) as [->|Hne].
      * now left.
      * right. split; [lia|reflexivity].
Qed.

Lemma g_included_In rb ngroup gname :
  In gname (g_included rb ngroup) <->
  exists k, (k < ngroup)%nat /\ (2 <= Zsum (colZ k rb))%Z /\
            gname = ("g" ++ str (k + 1))%string.
Proof.
  unfold g_included, NAME_g. rewrite in_map_iff. split.
  - intros [[k n] [<- H]]. apply filter_In in H. destruct H as [H Hs].
    simpl in *. apply Z.leb_le in Hs.
    apply in_combine_seq_map in H. destruct H as [Hk ->].
    exists k. repeat split; auto; lia.
  - intros (k & Hk & Hs & ->). exists (k, ("g" ++ str (k + 1))%string).
    split; auto. apply filter_In. split; [|simpl; now apply Z.leb_le].
    apply in_combine_seq_map. split; [lia|reflexivity].
Qed.

Lemma g_bery_included_In cfg rb ngroup c :
  In c (g_bery_included cfg rb ngroup) <->
  exists k j, (k < ngroup)%nat /\ (2 <= Zsum (colZ k rb))%Z /\
              In j (NAME_bery_crosssum cfg) /\
              c = (("g" ++ str (k + 1)) ++ "_" ++ j)%string.
Proof.
  unfold g_bery_included. rewrite in_flat_map. split.
  - intros (gname & Hg & Hc). apply g_included_In in Hg.
    destruct Hg as (k & Hk & Hs & ->).
    apply in_map_iff in Hc. destruct Hc as (j & <- & Hj).
    exists k, j. auto.
  - intros (k & j & Hk & Hs & Hj & ->).
    exists ("g" ++ str (k + 1))%string. split.
    + apply g_included_In. exists k. auto.
    + apply in_map_iff. exists j. auto.
Qed.

Lemma prod_in_exog_columns cfg rb ngroup i :
  In (nth i (NAME_bery_crossprod cfg) ""%string) (exog_columns cfg rb ngroup i).
Proof. unfold exog_columns. apply in_or_app. right. now left. Qed.

Lemma exog_columns_In cfg rb ngroup i c :
  In c (exog_columns cfg rb ngroup i) <->
  c = nth i (NAME_bery_crossprod cfg) ""%string \/
  (In c (g_bery_included cfg rb ngroup) /\
   str_contains c (pair_tag cfg i) = true).
Proof.
  unfold exog_columns. rewrite in_app_iff, filter_In. simpl.
  intuition.
Qed.

(** C3 (as the code has it).  In the variance equation of good pair [i]
    under household type [tt], for any of the three selections, the
    regressors are the entries of the pair's mask that are columns of
    [exog].  The ber cross-product term of the pair is always such a
    column, so it is a regressor exactly when the mask lists it; a
    group-interacted ber-cross-sum term is a regressor exactly when the
    mask lists it, its group has at least two observations of the type, and
    its name carries the tag of the pair. *)
Theorem variance_regressors cfg rb ngroup lasso tt i mask :
  nth_error lasso (tt * length (NAME_res_crossprod cfg) + i) = Some mask ->
  let prod := nth i (NAME_bery_crossprod cfg) ""%string in
  exists exog,
    var_eq_exog cfg rb ngroup lasso tt i = Some exog /\
    exog = filter (fun c => existsb (String.eqb c) (exog_columns cfg rb ngroup i)) mask /\
    (In prod exog <-> In prod mask) /\
    (forall c,
       In c exog <->
       In c mask /\
       (c = prod \/
        exists k j,
          (k < ngroup)%nat /\ (2 <= Zsum (colZ k rb))%Z /\
          In j (NAME_bery_crosssum cfg) /\
          c = (("g" ++ str (k + 1)) ++ "_" ++ j)%string /\
          str_contains c (pair_tag cfg i) = true)).
Proof.
  intros Hmask prod. unfold var_eq_exog. rewrite Hmask.
  eexists. split; [reflexivity|]. split; [reflexivity|]. split.
  - fold (masked mask (exog_columns cfg rb ngroup i)).
    rewrite masked_In. pose proof (prod_in_exog_columns cfg rb ngroup i).
    tauto.
  - intros c. rewrite masked_In, exog_columns_In, g_bery_included_In.
    split.
    + intros [Hm [E|[(k & j & Hk & Hs & Hj & Hc) Ht]]]; split; auto.
      right. exists k, j. auto.
    + intros [Hm [E|(k & j & Hk & Hs & Hj & Hc & Ht)]]; split; auto.
      right. split; auto. exists k, j. auto.
Qed.

(** A mask that lists the cross-product term and one group term. *)
Lemma variance_regressors_witness :
  exists exog,
    var_eq_exog reference two_in_first_group 117
      (repeat ["g1_ber1.1y_sum"; "ber1.1y_prod"]%string 45) 0 0 = Some exog /\
    In "ber1.1y_prod"%string exog.
Proof.
  destruct (variance_regressors reference two_in_first_group 117
              (repeat ["g1_ber1.1y_sum"; "ber1.1y_prod"]%string 45) 0 0
              ["g1_ber1.1y_sum"; "ber1.1y_prod"]%string)
    as (exog & H1 & _ & H2 & _).
  - reflexivity.
  - exists exog. split; [exact H1|]. apply H2. simpl. auto.
Defined.

(** C3 as stated fails: with a mask that lists only a group term, the
    cross-product term of the pair is not a regressor. *)
Lemma variance_regressors_counterexample :
  nth 0 (NAME_bery_crossprod reference) ""%string = "ber1.1y_prod"%string /\
  var_eq_exog reference two_in_first_group 117
    (repeat ["g1_ber1.1y_sum"%string] 45) 0 0
  = Some ["g1_ber1.1y_sum"%string] /\
  ~ In "ber1.1y_prod"%string ["g1_ber1.1y_sum"%string].
Proof.
  split; [reflexivity|]. split; [vm_compute; reflexivity|].
  simpl. intros [H|[]]. discriminate.
Qed.

(** ** Shapes in the type loop *)

Lemma length_concat_const {A B : Type} (f : A -> list B) (l : list A) c :
  (forall x, In x l -> length (f x) = c) ->
  length (concat (map f l)) = (length l * c)%nat.
Proof.
  induction l as [|x l IH]; intros H; simpl; auto.
  rewrite length_app, H by now left. rewrite IH; auto.
  intros; apply H; now right.
Qed.

Lemma length_triangle {A : Type} (f : nat -> nat -> A) n :
  forall s c, (s + c = n)%nat ->
    (2 * length (flat_map (fun i => map (f i) (seq i (n - i))) (seq s c))
     = c * (c + 1))%nat.
Proof.
  intros s c; revert s; induction c as [|c IH]; intros s H; simpl; auto.
  rewrite length_app, length_map, length_seq.
  specialize (IH (S s) ltac:(lia)). nia.
Qed.

Lemma length_triu_indices k : length (triu_indices k) = (k * (k + 1) / 2)%nat.
Proof.
  unfold triu_indices.
  pose proof (length_triangle (fun i j => (i, j)) k 0 k eq_refl) as H.
  cbv beta in H. apply Nat.div_unique_exact; lia.
Qed.

Lemma length_good_pairs cfg :
  length (good_pairs cfg) = length (triu_indices (length (SHAREABLE cfg))).
Proof.
  unfold good_pairs, triu_indices.
  pose proof (length_triangle (fun i j => (i, j)) (length (SHAREABLE cfg)) 0 _ eq_refl).
  pose proof (length_triangle
                (fun i j => (nth i (SHAREABLE cfg) 0%nat, nth j (SHAREABLE cfg) 0%nat))
                (length (SHAREABLE cfg)) 0 _ eq_refl).
  lia.
Qed.

Lemma length_triu (m : matrix) :
  length (triu m) = (length m * (length m + 1) / 2)%nat.
Proof. unfold triu. now rewrite length_map, length_triu_indices. Qed.

Lemma Forall_upd {A : Type} (P : A -> Prop) (a : list A) i x :
  Forall P a -> ((i < length a)%nat -> P x) -> Forall P (upd a i x).
Proof.
  revert i; induction a as [|h a IH]; intros [|i] Ha Hx; simpl; auto;
    inversion Ha; subst; constructor; auto.
  - apply Hx. simpl. lia.
  - apply IH; auto. intros. apply Hx. simpl. lia.
Qed.

Lemma is_matrix_set_entry n p (m : matrix) i j x :
  is_matrix n p m -> is_matrix n p (set_entry m i j x).
Proof.
  intros Hm. destruct (Hm) as [Hl Hr]. unfold set_entry. split.
  - now rewrite length_upd.
  - apply Forall_upd; auto. intros Hi. rewrite length_upd.
    apply (is_matrix_row n p m i Hm). lia.
Qed.

Lemma is_matrix_put_entries n p idx :
  forall (m : matrix) vals,
    is_matrix n p m -> is_matrix n p (put_entries m idx vals).
Proof.
  unfold put_entries. intros m vals. revert m.
  induction (combine idx vals) as [|[[i j] x] l IH]; intros m Hm; simpl; auto.
  apply IH. now apply is_matrix_set_entry.
Qed.

Lemma is_matrix_zeros n p : is_matrix n p (zeros n p).
Proof.
  split; [apply repeat_length|]. apply Forall_forall. intros r Hr.
  apply repeat_spec in Hr. subst. apply repeat_length.
Qed.

Lemma fill_sym_shape k vals m :
  fill_sym k vals = Some m -> is_matrix k k m.
Proof.
  unfold fill_sym. destruct (np_broadcast_to _ vals); [|discriminate].
  intros [= <-]. apply is_matrix_put_entries, is_matrix_put_entries.
  apply is_matrix_zeros.
Qed.

Lemma fill_sym_total k vals :
  length vals = length (triu_indices k) -> exists m, fill_sym k vals = Some m.
Proof.
  intros H. unfold fill_sym, np_broadcast_to. rewrite H, Nat.eqb_refl.
  eexists. reflexivity.
Qed.

Lemma length_cov_to_cor k (m : matrix) :
  is_matrix k k m -> length (cov_to_cor m) = k.
Proof.
  intros Hm. unfold cov_to_cor, mdiv, np_outer.
  rewrite length_map, length_combine, length_map, (length_sqrt_diag k m Hm).
  destruct Hm as [-> _]. apply Nat.min_id.
Qed.

(** The lengths of what one household type contributes. *)
Lemma type_stage_lengths nearestPD k v vl vu :
  (forall m, is_matrix k k m -> is_matrix k k (nearestPD m)) ->
  length v = length (triu_indices k) ->
  length vl = length (triu_indices k) ->
  length vu = length (triu_indices k) ->
  exists s,
    type_stage nearestPD k v vl vu = Some s /\
    cov_val_new s = v /\
    length (cov_pd_new s) = (k * (k + 1) / 2)%nat /\
    length (cor_new s) = (k * (k + 1) / 2)%nat /\
    length (stdev_new s) = k /\
    length (stdev_new_l s) = k /\
    length (stdev_new_u s) = k /\
    is_matrix k k (cov_matrix_pd s).
Proof.
  intros Hpd Hv Hvl Hvu. unfold type_stage.
  destruct (fill_sym_total k v Hv) as [m Em].
  destruct (fill_sym_total k vl Hvl) as [ml Eml].
  destruct (fill_sym_total k vu Hvu) as [mu Emu].
  rewrite Em, Eml, Emu. eexists. split; [reflexivity|]. simpl.
  pose proof (Hpd _ (fill_sym_shape _ _ _ Em)) as Hm.
  pose proof (Hpd _ (fill_sym_shape _ _ _ Eml)) as Hml.
  pose proof (Hpd _ (fill_sym_shape _ _ _ Emu)) as Hmu.
  repeat split.
  - rewrite length_triu. now destruct Hm as [-> _].
  - rewrite length_triu, (length_cov_to_cor k) by assumption. reflexivity.
  - now apply length_sqrt_diag.
  - now apply length_sqrt_diag.
  - now apply length_sqrt_diag.
  - now destruct Hm.
  - now destruct Hm.
Qed.

(** ** Counting the cross-product coefficients *)

Lemma has_char_p_pair_name ab : has_char "p" (pair_name ab) = false.
Proof.
  unfold pair_name. rewrite !has_char_app, !has_char_p_str. reflexivity.
Qed.

Lemma has_char_p_group_term k j cfg :
  In j (NAME_bery_crosssum cfg) ->
  has_char "p" (("g" ++ str (k + 1)) ++ "_" ++ j)%string = false.
Proof.
  intros Hj. unfold NAME_bery_crosssum in Hj. apply in_map_iff in Hj.
  destruct Hj as (ab & <- & _).
  rewrite !has_char_app, has_char_p_str, has_char_p_pair_name. reflexivity.
Qed.

Lemma nth_NAME_bery_crossprod cfg i :
  (i < length (NAME_res_crossprod cfg))%nat ->
  exists ab, nth i (NAME_bery_crossprod cfg) ""%string
             = ("ber" ++ pair_name ab ++ "y_prod")%string.
Proof.
  intros Hi. unfold NAME_res_crossprod in Hi. rewrite length_map in Hi.
  unfold NAME_bery_crossprod.
  exists (nth i (good_pairs cfg) (0%nat, 0%nat)).
  rewrite (nth_indep _ ""%string (("ber" ++ pair_name (0%nat, 0%nat) ++ "y_prod")%string))
    by now rewrite length_map.
  apply (map_nth (fun ab => ("ber" ++ pair_name ab ++ "y_prod")%string)).
Qed.

(** Among the columns of [exog], the coefficient names that contain
    "prod" are those of the cross-product term. *)
Lemma prod_name_test cfg rb ngroup i e c :
  (i < length (NAME_res_crossprod cfg))%nat ->
  In c (exog_columns cfg rb ngroup i) ->
  str_contains ("eq" ++ str (e + 1) ++ "_" ++ c)%string "prod"
  = String.eqb c (nth i (NAME_bery_crossprod cfg) ""%string).
Proof.
  intros Hi Hc. destruct (nth_NAME_bery_crossprod cfg i Hi) as [ab Eab].
  apply exog_columns_In in Hc. destruct Hc as [->|[Hc _]].
  - rewrite String.eqb_refl, Eab.
    repeat apply str_contains_app_r. reflexivity.
  - apply g_bery_included_In in Hc.
    destruct Hc as (k & j & _ & _ & Hj & ->).
    pose proof (has_char_p_group_term k j cfg Hj) as Hp.
    rewrite str_contains_no_char
      by (do 3 rewrite has_char_app; rewrite has_char_p_str, Hp; reflexivity).
    symmetry. apply String.eqb_neq. intros E.
    rewrite Eab in E. rewrite E in Hp.
    rewrite !has_char_app in Hp. simpl in Hp.
    rewrite !orb_true_r in Hp. discriminate.
Qed.

Lemma length_filter_map {A B : Type} (p : B -> bool) (h : A -> B) (l : list A) :
  length (filter p (map h l)) = length (filter (fun x => p (h x)) l).
Proof.
  induction l as [|x l IH]; simpl; auto.
  destruct (p (h x)); simpl; auto.
Qed.

Lemma length_filter_masked mask cols name :
  In name cols ->
  length (filter (fun c => String.eqb c name) (masked mask cols))
  = count_occ string_dec mask name.
Proof.
  intros Hn. unfold masked. induction mask as [|c mask IH]; simpl; auto.
  destruct (string_dec c name) as [->|Hne].
  - assert (E : existsb (String.eqb name) cols = true).
    { apply existsb_exists. exists name. split; auto. apply String.eqb_refl. }
    rewrite E. simpl. rewrite String.eqb_refl. simpl. now rewrite IH.
  - apply String.eqb_neq in Hne.
    destruct (existsb (String.eqb c) cols); simpl; auto.
    rewrite Hne. exact IH.
Qed.

Lemma length_filter_concat_ones {A : Type} (p : A -> bool) (ls : list (list A)) :
  (forall l, In l ls -> length (filter p l) = 1%nat) ->
  length (filter p (concat ls)) = length ls.
Proof.
  induction ls as [|l ls IH]; intros H; simpl; auto.
  rewrite filter_app, length_app, H by now left.
  rewrite IH; auto. intros; apply H; now right.
Qed.

Lemma length_prod_params fit eqs :
  length (prod_params (SUR_fit fit eqs))
  = length (filter (fun n => str_contains n "prod") (SUR_param_names eqs)).
Proof.
  unfold prod_params, SUR_fit, params_where.
  rewrite length_map. apply (length_filter_map (fun nv => str_contains (fst nv) "prod")).
Qed.

Lemma Forall2_in_combine {A B : Type} (R : A -> B -> Prop) l ys x y :
  Forall2 R l ys -> In (x, y) (combine l ys) -> R x y.
Proof.
  induction 1 as [|a b l ys Hab HF IH]; simpl; [tauto|].
  intros [E|H]; [now injection E as <- <-|auto].
Qed.

(** Under [keeps_prod], each system of a household type has one equation
    per good pair and one cross-product coefficient per equation. *)
Lemma var_eqs_prod_count cfg rb ngroup lasso tt fit :
  keeps_prod cfg lasso -> (tt < length (TYPE cfg))%nat ->
  exists eqs,
    var_eqs cfg rb ngroup lasso tt = Some eqs /\
    length (prod_params (SUR_fit fit eqs))
    = length (triu_indices (length (SHAREABLE cfg))).
Proof.
  intros Hk Htt. unfold var_eqs.
  destruct (map_opt_total (var_eq_exog cfg rb ngroup lasso tt)
              (seq 0 (length (NAME_res_crossprod cfg)))) as [eqs Heqs].
  { intros i Hi. apply in_seq in Hi. destruct (Hk tt i Htt) as (mask & Hm & _);
      [lia|]. unfold var_eq_exog. rewrite Hm. eauto. }
  exists eqs. split; [exact Heqs|].
  pose proof (map_opt_length _ _ _ Heqs) as Hlen. rewrite length_seq in Hlen.
  pose proof (map_opt_Forall2 _ _ _ Heqs) as HF.
  rewrite length_prod_params. unfold SUR_param_names.
  rewrite length_filter_concat_ones.
  - rewrite length_map, length_combine, length_seq, Nat.min_id, Hlen.
    unfold NAME_res_crossprod. rewrite length_map. apply length_good_pairs.
  - intros l Hl. apply in_map_iff in Hl. destruct Hl as ([i e] & <- & Hie).
    simpl. rewrite Hlen in Hie.
    pose proof (Forall2_in_combine _ _ _ _ _ HF Hie) as Hi.
    apply in_combine_l in Hie. apply in_seq in Hie.
    destruct (Hk tt i Htt) as (mask & Hm & Hc); [lia|].
    unfold var_eq_exog in Hi. rewrite Hm in Hi. injection Hi as <-.
    rewrite length_filter_map.
    rewrite (filter_ext_in _
               (fun c => String.eqb c (nth i (NAME_bery_crossprod cfg) ""%string))).
    + rewrite length_filter_masked by apply prod_in_exog_columns. exact Hc.
    + intros c Hc'. apply masked_In in Hc'. destruct Hc' as [_ Hc'].
      apply (prod_name_test cfg rb ngroup i i c); [lia|exact Hc'].
Qed.

Lemma barten_equal_lengths (b_s b_h : vec) k :
  length b_s = k -> length b_h = k ->
  barten (b_s ++ b_h) k = Some (vdiv b_h b_s) /\ length (vdiv b_h b_s) = k.
Proof.
  intros Hs Hh. unfold barten. subst k.
  assert (E1 : firstn (length b_s) (b_s ++ b_h) = b_s).
  { clear Hh. induction b_s as [|x b_s IH]; simpl; [reflexivity|].
    now rewrite IH. }
  assert (E2 : skipn (length b_s) (b_s ++ b_h) = b_h).
  { clear Hh E1. induction b_s as [|x b_s IH]; simpl; auto. }
  rewrite E1, E2. unfold np_divide.
  rewrite Hh, Nat.eqb_refl. split; [reflexivity|].
  unfold vdiv. rewrite length_map, length_combine. lia.
Qed.

Lemma barten_results_total cfg params :
  mean_coefficients_complete cfg params ->
  exists a,
    barten_results params (length (TYPE cfg)) (length (SHAREABLE cfg)) = Some a /\
    length a = length (TYPE cfg) /\
    Forall (fun b => length b = length (SHAREABLE cfg)) a.
Proof.
  intros [Hs Hh]. unfold barten_results.
  assert (G : forall ts, (forall t, In t ts -> (t < length (TYPE cfg))%nat) ->
            exists a,
              barten_columns params (length (SHAREABLE cfg)) ts = Some a /\
              length a = length ts /\
              Forall (fun b => length b = length (SHAREABLE cfg)) a).
  { induction ts as [|t ts IH]; intros Hts.
    - exists []. repeat split. constructor.
    - cbn [barten_columns].
      match goal with
      | |- context [barten (?bs ++ ?bh) ?k] =>
          destruct (barten_equal_lengths bs bh k) as [-> Hl]
      end.
      { rewrite length_map. exact Hs. }
      { rewrite length_map. exact (Hh t (Hts t (or_introl eq_refl))). }
      destruct IH as (a & -> & Hla & Hfa); [intros; apply Hts; now right|].
      rewrite Hl, Nat.eqb_refl. eexists. split; [reflexivity|].
      split; [simpl; now rewrite Hla|]. constructor; assumption. }
  destruct (G (seq 0 (length (TYPE cfg)))) as (a & Ha & Hla & Hfa).
  { intros t Ht. apply in_seq in Ht. lia. }
  exists a. rewrite length_seq in Hla. auto.
Qed.

Lemma Forall2_in_r {A B : Type} (R : A -> B -> Prop) l ys y :
  Forall2 R l ys -> In y ys -> exists x, In x l /\ R x y.
Proof.
  induction 1 as [|a b l ys Hab HF IH]; simpl; [tauto|].
  intros [<-|H]; [eauto|]. destruct (IH H) as (x & Hx & Hr). eauto.
Qed.

(** One pass of the type loop succeeds and has the stated lengths. *)
Lemma type_pass_lengths nearestPD cfg g t ngroup fit_c fit_l fit_u
    lasso_selec lasso_l lasso_u tt :
  let K := length (SHAREABLE cfg) in
  (forall m, is_matrix K K m -> is_matrix K K (nearestPD m)) ->
  keeps_prod cfg lasso_selec -> keeps_prod cfg lasso_l -> keeps_prod cfg lasso_u ->
  (tt < length (TYPE cfg))%nat ->
  exists s,
    type_pass nearestPD cfg g t ngroup fit_c fit_l fit_u
              lasso_selec lasso_l lasso_u tt = Some s /\
    length (cov_val_new s) = (K * (K + 1) / 2)%nat /\
    length (cov_pd_new s) = (K * (K + 1) / 2)%nat /\
    length (cor_new s) = (K * (K + 1) / 2)%nat /\
    length (stdev_new s) = K /\
    length (stdev_new_l s) = K /\
    length (stdev_new_u s) = K /\
    is_matrix K K (cov_matrix_pd s).
Proof.
  intros K Hpd Hc Hl Hu Htt. unfold type_pass.
  destruct (var_eqs_prod_count cfg (type_rows g t tt) ngroup lasso_selec tt
              (fit_c tt) Hc Htt) as (e & -> & Le).
  destruct (var_eqs_prod_count cfg (type_rows g t tt) ngroup lasso_l tt
              (fit_l tt) Hl Htt) as (el & -> & Lel).
  destruct (var_eqs_prod_count cfg (type_rows g t tt) ngroup lasso_u tt
              (fit_u tt) Hu Htt) as (eu & -> & Leu).
  destruct (type_stage_lengths nearestPD K _ _ _ Hpd Le Lel Leu)
    as (s & Hs & Hv & H1 & H2 & H3 & H4 & H5 & H6).
  exists s. split; [exact Hs|]. rewrite Hv, Le, length_triu_indices.
  split; [reflexivity|]. auto 10.
Qed.

(** The loop over the household types and the scale indices: when every
    mask lists the cross-product term of its own equation, the repair
    keeps the shape, the mean stage carries its K single-baseline and K
    per-type [ery] coefficients and the budget shares have K+1 columns and
    one row per observation, the tuple is returned with its components of
    the stated lengths. *)
Lemma tail_output_lengths nearestPD cfg g t ngroup fit_c fit_l fit_u
    lasso_selec lasso_l lasso_u mean_params w_all n :
  let K := length (SHAREABLE cfg) in
  let T := length (TYPE cfg) in
  (0 < T)%nat ->
  (forall m, is_matrix K K m -> is_matrix K K (nearestPD m)) ->
  mean_coefficients_complete cfg mean_params ->
  is_matrix n (K + 1) w_all -> (0 < n)%nat -> length t = n ->
  keeps_prod cfg lasso_selec -> keeps_prod cfg lasso_l -> keeps_prod cfg lasso_u ->
  exists s ts,
    bootstrap_tail nearestPD cfg g t ngroup fit_c fit_l fit_u
                   lasso_selec lasso_l lasso_u mean_params w_all = Some s /\
    map_opt (type_pass nearestPD cfg g t ngroup fit_c fit_l fit_u
                       lasso_selec lasso_l lasso_u) (seq 0 T) = Some ts /\
    out_cov s = concat (map cov_val_new ts) /\
    out_cov_pd s = concat (map cov_pd_new ts) /\
    out_cor s = concat (map cor_new ts) /\
    out_std s = concat (map stdev_new ts) /\
    length (out_cov s) = (T * (K * (K + 1) / 2))%nat /\
    length (out_cov_pd s) = (T * (K * (K + 1) / 2))%nat /\
    length (out_cor s) = (T * (K * (K + 1) / 2))%nat /\
    length (out_std s) = (T * K)%nat /\
    length (out_std_l s) = (T * K)%nat /\
    length (out_std_u s) = (T * K)%nat /\
    length (out_std_scale_s s) = T /\
    length (out_std_scale_sm s) = T /\
    length (out_std_scale_sf s) = T.
Proof.
  intros K T HT Hpd Hmean Hw Hn Ht Hc Hl Hu.
  pose proof (type_pass_lengths nearestPD cfg g t ngroup fit_c fit_l fit_u
                lasso_selec lasso_l lasso_u) as Hpass.
  cbv zeta in Hpass. subst K T.
  destruct (map_opt_total
              (type_pass nearestPD cfg g t ngroup fit_c fit_l fit_u
                         lasso_selec lasso_l lasso_u)
              (seq 0 (length (TYPE cfg)))) as [ts Hts].
  { intros tt Htt. apply in_seq in Htt.
    destruct (Hpass tt Hpd Hc Hl Hu) as (s & Hs & _); [lia|]. eauto. }
  destruct (barten_results_total cfg mean_params Hmean) as (a & Ha & Hla & Hfa).
  pose proof (map_opt_length _ _ _ Hts) as Hlen. rewrite length_seq in Hlen.
  pose proof (map_opt_Forall2 _ _ _ Hts) as HF.
  assert (Hall : forall s, In s ts ->
            let K := length (SHAREABLE cfg) in
            length (cov_val_new s) = (K * (K + 1) / 2)%nat /\
            length (cov_pd_new s) = (K * (K + 1) / 2)%nat /\
            length (cor_new s) = (K * (K + 1) / 2)%nat /\
            length (stdev_new s) = K /\
            length (stdev_new_l s) = K /\
            length (stdev_new_u s) = K /\
            is_matrix K K (cov_matrix_pd s)).
  { intros s Hs. destruct (Forall2_in_r _ _ _ _ HF Hs) as (tt & Htt & Hpt).
    apply in_seq in Htt.
    destruct (Hpass tt Hpd Hc Hl Hu) as (s' & Hs' & Hlens); [lia|].
    rewrite Hpt in Hs'. injection Hs' as <-. exact Hlens. }
  cbv zeta in Hall.
  assert (Hscale : forall ind, length ind = n ->
            exists std,
              scale a (map cov_matrix_pd ts) w_all ind
                    (length (TYPE cfg)) (length (SHAREABLE cfg)) = Some std /\
              length std = length (TYPE cfg)).
  { intros ind Hind.
    rewrite (scale_spec a (map cov_matrix_pd ts) w_all ind
               (length (TYPE cfg)) (length (SHAREABLE cfg)) n); auto.
    - eexists. split; [reflexivity|]. now rewrite length_map, length_seq.
    - now rewrite length_map.
    - apply Forall_map. apply Forall_forall. intros s Hs. apply (Hall s Hs). }
  destruct (Hscale (singles t)) as (ss & Ess & Lss);
    [unfold singles; now rewrite length_map|].
  destruct (Hscale (single_males t)) as (sm & Esm & Lsm);
    [unfold single_males; now rewrite length_map|].
  destruct (Hscale (single_females t)) as (sf & Esf & Lsf);
    [unfold single_females; now rewrite length_map|].
  unfold bootstrap_tail. cbv zeta. rewrite Hts, Ha.
  destruct ts as [|first others] eqn:Ets; [simpl in Hlen; lia|].
  rewrite <- Ets in *. clear Ets.
  rewrite Ess, Esm, Esf.
  eexists. exists ts. split; [reflexivity|]. split; [reflexivity|].
  cbn [out_cov out_cov_pd out_cor out_std
    out_std_l out_std_u out_std_scale_s out_std_scale_sm out_std_scale_sf].
  do 4 (split; [reflexivity|]).
  rewrite <- Hlen in *.
  repeat split;
    try (apply length_concat_const; intros s Hs; apply (Hall s Hs));
    assumption.
Qed.

(** What one pass of the loop reports is read off its repaired matrix. *)
Lemma type_pass_layout nearestPD cfg g t ngroup fit_c fit_l fit_u
    lasso_selec lasso_l lasso_u tt s :
  type_pass nearestPD cfg g t ngroup fit_c fit_l fit_u
            lasso_selec lasso_l lasso_u tt = Some s ->
  cov_pd_new s = triu (cov_matrix_pd s) /\
  cor_new s = triu (cov_to_cor (cov_matrix_pd s)) /\
  stdev_new s = map sqrt (np_diag (cov_matrix_pd s)).
Proof.
  unfold type_pass, type_stage.
  repeat match goal with
         | |- context [match ?x with Some _ => _ | None => _ end] =>
             destruct x; try discriminate
         end.
  intros [= <-]. simpl. auto.
Qed.


(** ** Exclusion of singleton group-type cells *)

Lemma outer_flat_01 inner outer :
  Forall is_01 inner -> Forall is_01 outer -> Forall is_01 (outer_flat inner outer).
Proof.
  intros Hi Ho. unfold outer_flat. apply Forall_flat_map.
  eapply Forall_impl; [|exact Ho]. intros o Ho'. apply Forall_map.
  eapply Forall_impl; [|exact Hi]. intros i Hi'.
  destruct Hi' as [-> | ->], Ho' as [-> | ->]; [left|left|left|right]; reflexivity.
Qed.

Lemma t_row_01 o : Forall is_01 (t_row o).
Proof.
  unfold t_row, where_1_0.
  constructor; [destruct (_ && _); [right|left]; reflexivity|].
  constructor; [destruct (_ && _); [right|left]; reflexivity|].
  apply Forall_map. apply Forall_forall. intros z _.
  destruct (z =? 1)%Z; [right|left]; reflexivity.
Qed.

Lemma gt_matrix_01 rows :
  indicator_cells rows -> Forall (Forall is_01) (gt_matrix rows).
Proof.
  intros H. unfold gt_matrix. apply Forall_map.
  eapply Forall_impl; [|exact H]. intros o [Ha Hb].
  unfold gt_row. apply outer_flat_01; [|apply t_row_01].
  unfold g_row. now apply outer_flat_01.
Qed.

Lemma colZ_01 c (m : list (list Z)) :
  Forall (Forall is_01) m -> Forall is_01 (colZ c m).
Proof.
  intros H. unfold colZ. apply Forall_map.
  eapply Forall_impl; [|exact H]. intros r Hr.
  destruct (Nat.lt_ge_cases c (length r)) as [Hc|Hc].
  - rewrite Forall_forall in Hr. apply Hr. now apply nth_In.
  - rewrite nth_overflow by assumption. now left.
Qed.

Lemma length_colZ c (m : list (list Z)) : length (colZ c m) = length m.
Proof. apply length_map. Qed.

Lemma positions_from_In (column : list Z) p :
  forall s,
    In p (map fst (filter (fun kv => (snd kv =? 1)%Z)
                          (combine (seq s (length column)) column))) ->
    (s <= p < s + length column)%nat.
Proof.
  induction column as [|v column IH]; intros s; simpl; [tauto|].
  destruct (v =? 1)%Z; simpl.
  - intros [<-|H]; [lia|]. apply IH in H. lia.
  - intros H. apply IH in H. lia.
Qed.

Lemma positions_from_NoDup (column : list Z) :
  forall s,
    NoDup (map fst (filter (fun kv => (snd kv =? 1)%Z)
                           (combine (seq s (length column)) column))).
Proof.
  induction column as [|v column IH]; intros s; simpl; [constructor|].
  destruct (v =? 1)%Z; simpl; auto.
  constructor; auto. intros H. apply positions_from_In in H. lia.
Qed.

Lemma positions_of_one_lt column p :
  In p (positions_of_one column) -> (p < length column)%nat.
Proof. intros H. apply positions_from_In in H. lia. Qed.

Lemma positions_of_one_NoDup column : NoDup (positions_of_one column).
Proof. apply positions_from_NoDup. Qed.

Lemma Zsum_positions_from (column : list Z) :
  Forall is_01 column ->
  forall s,
    Zsum column
    = Z.of_nat (length (map fst (filter (fun kv => (snd kv =? 1)%Z)
                                        (combine (seq s (length column)) column)))).
Proof.
  induction 1 as [|v column Hv Hc IH]; intros s; [reflexivity|].
  cbn [Zsum fold_right length seq combine filter snd].
  fold (Zsum column). rewrite (IH (S s)).
  destruct Hv as [-> | ->]; simpl (_ =? _)%Z; cbn [map length]; lia.
Qed.

(** For a 0/1 column the sum counts the entries equal to 1. *)
Lemma Zsum_positions_of_one column :
  Forall is_01 column ->
  Zsum column = Z.of_nat (length (positions_of_one column)).
Proof. intros H. apply (Zsum_positions_from column H 0%nat). Qed.

Lemma length_insert_sorted x l :
  ~ In x l -> length (insert_sorted x l) = S (length l).
Proof.
  induction l as [|y l IH]; intros Hx; simpl; auto.
  destruct (x <? y)%nat; [reflexivity|].
  destruct (x =? y)%nat eqn:E.
  - apply Nat.eqb_eq in E. subst. exfalso. apply Hx. now left.
  - simpl. rewrite IH; auto. intros H. apply Hx. now right.
Qed.

Lemma length_np_unique_NoDup l : NoDup l -> length (np_unique l) = length l.
Proof.
  induction 1 as [|x l Hx Hnd IH]; simpl; auto.
  rewrite length_insert_sorted, IH; auto.
  now rewrite np_unique_In.
Qed.

Lemma labels_of_one_NoDup index column :
  NoDup index -> length column = length index ->
  NoDup (labels_of_one index column).
Proof.
  intros Hnd Hlen. unfold labels_of_one.
  pose proof (positions_of_one_NoDup column) as Hp.
  assert (Hlt : forall p, In p (positions_of_one column) -> (p < length index)%nat).
  { intros p Hin. rewrite <- Hlen. now apply positions_of_one_lt. }
  induction Hp as [|p ps Hp Hps IH]; simpl; [constructor|].
  constructor.
  - intros Hin. apply in_map_iff in Hin. destruct Hin as (q & Hq & Hqin).
    assert (q = p).
    { apply (proj1 (NoDup_nth index 0%nat) Hnd); auto.
      - apply Hlt. now right.
      - apply Hlt. now left. }
    subst. contradiction.
  - apply IH. intros q Hq. apply Hlt. now right.
Qed.

(** With distinct labels the two tests select the same cells. *)
Lemma excluded_tests_agree index (gt : list (list Z)) c :
  Forall (Forall is_01) gt -> NoDup index -> length gt = length index ->
  (length (np_unique (labels_of_one index (colZ c gt))) =? 1)%nat
  = (Zsum (colZ c gt) =? 1)%Z.
Proof.
  intros H01 Hnd Hlen.
  rewrite length_np_unique_NoDup
    by (apply labels_of_one_NoDup; [assumption|now rewrite length_colZ]).
  unfold labels_of_one. rewrite length_map.
  rewrite (Zsum_positions_of_one _ (colZ_01 c gt H01)).
  destruct (Nat.eqb_spec (length (positions_of_one (colZ c gt))) 1) as [E|E].
  - rewrite E. reflexivity.
  - symmetry. apply Z.eqb_neq. lia.
Qed.

(** A cell with one row is excluded by the replication test too. *)
Lemma point_test_implies_boot index (gt : list (list Z)) c :
  Forall (Forall is_01) gt ->
  (Zsum (colZ c gt) =? 1)%Z = true ->
  exists p, positions_of_one (colZ c gt) = [p] /\
    (length (np_unique (labels_of_one index (colZ c gt))) =? 1)%nat = true.
Proof.
  intros H01 Hs. apply Z.eqb_eq in Hs.
  rewrite (Zsum_positions_of_one _ (colZ_01 c gt H01)) in Hs.
  destruct (positions_of_one (colZ c gt)) as [|p [|q ps]] eqn:E;
    simpl in Hs; try lia.
  exists p. split; [reflexivity|]. unfold labels_of_one. rewrite E. reflexivity.
Qed.

Lemma flat_map_singletons {A B : Type} (f : A -> list B) (l : list A) ys :
  map_opt (fun c => hd_error (f c)) l = Some ys ->
  (forall c, In c l -> exists p, f c = [p]) ->
  flat_map f l = ys.
Proof.
  revert ys; induction l as [|c l IH]; intros ys; simpl.
  - now intros [= <-].
  - intros H Hs. destruct (Hs c (or_introl eq_refl)) as [p Hp].
    rewrite Hp in *. simpl in H.
    destruct (map_opt _ l) as [ys'|] eqn:E; [|discriminate].
    injection H as <-. simpl. f_equal. apply IH; auto.
Qed.

Lemma positions_from_iff (column : list Z) p :
  forall s,
    In p (map fst (filter (fun kv => (snd kv =? 1)%Z)
                          (combine (seq s (length column)) column))) <->
    (s <= p < s + length column)%nat /\ nth (p - s) column 0%Z = 1%Z.
Proof.
  induction column as [|v column IH]; intros s.
  - simpl. split; [tauto|]. intros [H _]. lia.
  - cbn [length seq combine filter snd].
    destruct (Z.eqb_spec v 1) as [Ev|Ev]; cbn [map fst In]; rewrite IH.
    + split.
      * intros [<-|[H1 H2]].
        -- rewrite Nat.sub_diag. simpl. split; [lia|exact Ev].
        -- split; [lia|]. replace (p - s)%nat with (S (p - S s)) by lia.
           exact H2.
      * intros [H1 H2]. destruct (Nat.eq_dec s p) as [E|E]; [now left|right].
        split; [lia|]. replace (p - s)%nat with (S (p - S s)) in H2 by lia.
        exact H2.
    + split.
      * intros [H1 H2]. split; [lia|].
        replace (p - s)%nat with (S (p - S s)) by lia. exact H2.
      * intros [H1 H2]. destruct (Nat.eq_dec s p) as [E|E].
        -- subst. rewrite Nat.sub_diag in H2. simpl in H2. contradiction.
        -- split; [lia|]. replace (p - s)%nat with (S (p - S s)) in H2 by lia.
           exact H2.
Qed.

Lemma nth_colZ c (m : list (list Z)) p :
  nth p (colZ c m) 0%Z = nth c (nth p m []) 0%Z.
Proof.
  unfold colZ.
  replace 0%Z with ((fun r => nth c r 0%Z) []) at 1 by now destruct c.
  apply (map_nth (fun r => nth c r 0%Z)).
Qed.

(** The positions listed for a cell are the rows of the cell. *)
Lemma positions_of_one_cell c (m : list (list Z)) p :
  In p (positions_of_one (colZ c m)) <-> in_cell m p c.
Proof.
  unfold positions_of_one, in_cell.
  rewrite (positions_from_iff (colZ c m) p 0%nat).
  rewrite length_colZ, Nat.sub_0_r, nth_colZ. intuition lia.
Qed.

Lemma np_unique_all_equal l x :
  In x l -> (forall y, In y l -> y = x) -> np_unique l = [x].
Proof.
  induction l as [|y l IH]; intros Hx Hall; [destruct Hx|].
  assert (y = x) by (apply Hall; now left). subst y. simpl.
  destruct l as [|z l]; [reflexivity|].
  rewrite IH.
  - simpl. now rewrite Nat.ltb_irrefl, Nat.eqb_refl.
  - left. apply Hall. right. now left.
  - intros w Hw. apply Hall. now right.
Qed.

(** The test of the replication path: the labels are all equal. *)
Lemma one_distinct_label l x :
  In x l ->
  (length (np_unique l) =? 1)%nat = true <-> (forall y, In y l -> y = x).
Proof.
  intros Hx. rewrite Nat.eqb_eq. split.
  - intros H y Hy.
    destruct (np_unique l) as [|z [|w u]] eqn:E; try discriminate.
    assert (Hz : forall v, In v l -> v = z).
    { intros v Hv. apply np_unique_In in Hv. rewrite E in Hv.
      destruct Hv as [<-|[]]. reflexivity. }
    rewrite (Hz y Hy), (Hz x Hx). reflexivity.
  - intros H. now rewrite (np_unique_all_equal l x Hx H).
Qed.

Lemma Forall2_in_l {A B : Type} (R : A -> B -> Prop) l ys x :
  Forall2 R l ys -> In x l -> exists y, In y ys /\ R x y.
Proof.
  induction 1 as [|a b l ys Hab HF IH]; simpl; [tauto|].
  intros [<-|H]; [eauto|]. destruct (IH H) as (y & Hy & Hr). eauto.
Qed.

Lemma NoDup_all_equal (l : list nat) p :
  NoDup l -> In p l -> (forall q, In q l -> q = p) -> l = [p].
Proof.
  intros Hnd Hp Hall. destruct l as [|a [|b l]].
  - destruct Hp.
  - destruct Hp as [->|[]]. reflexivity.
  - exfalso. inversion Hnd as [|? ? Hn _]; subst. apply Hn.
    rewrite (Hall a) by now left. rewrite (Hall b) by (right; now left).
    now left.
Qed.

(** Without rows neither pass reaches its exclusion: the reshape that
    builds [g] raises. *)
Example exclusion_no_rows :
  bootstrap_excluded four_observations [] = None /\ point_excluded [] = None.
Proof. split; reflexivity. Qed.

Lemma gt_frame_rows rows :
  rows <> [] -> gt_frame rows = Some (gt_matrix rows).
Proof. destruct rows; [congruence|reflexivity]. Qed.

(** C1 (as the code has it).  On the same rows, at least one, with 0/1
    cell dummies: the point-estimate rule drops a row exactly when it is
    the only row of one of its group-type cells; the replication rule
    drops a row exactly when all rows of one of its cells carry the row's
    resampled index.  Every observation dropped by the point-estimate rule
    is dropped by the replication rule, and the two lists of dropped
    observations are equal when the resampling index vector has no
    repeated index.  (With an empty resampling vector both passes raise
    before any exclusion, when [g] is reshaped.) *)
Theorem exclusion_paths base resampling rows :
  resampling <> [] ->
  np_take base resampling = Some rows ->
  indicator_cells rows ->
  exists pt bt,
    point_excluded rows = Some pt /\
    bootstrap_excluded base resampling = Some bt /\
    (forall p,
       In p pt <->
       exists c, (c < ncolsZ (gt_matrix rows))%nat /\
                 in_cell (gt_matrix rows) p c /\
                 forall q, in_cell (gt_matrix rows) q c -> q = p) /\
    (forall p,
       In p bt <->
       exists c, (c < ncolsZ (gt_matrix rows))%nat /\
                 in_cell (gt_matrix rows) p c /\
                 forall q, in_cell (gt_matrix rows) q c ->
                           nth q resampling 0%nat = nth p resampling 0%nat) /\
    incl pt bt /\
    (NoDup resampling -> bt = pt).
Proof.
  intros Hne Htake Hind. unfold point_excluded, bootstrap_excluded. rewrite Htake.
  pose proof (gt_matrix_01 rows Hind) as H01.
  assert (Hlen : length (gt_matrix rows) = length resampling).
  { unfold gt_matrix. rewrite length_map. eapply np_take_length; eauto. }
  assert (Hrows : rows <> []).
  { intros ->. destruct resampling; [congruence|discriminate Hlen]. }
  rewrite (gt_frame_rows rows Hrows).
  set (M := gt_matrix rows) in *.
  assert (Hsingle : forall c, In c (gt_excluded_point M) ->
            exists p, positions_of_one (colZ c M) = [p]).
  { intros c Hc. apply filter_In in Hc. destruct Hc as [_ Hc].
    destruct (point_test_implies_boot resampling M c H01 Hc) as (p & Hp & _).
    eauto. }
  destruct (map_opt_total (fun c => hd_error (positions_of_one (colZ c M)))
              (gt_excluded_point M)) as [pt Hpt].
  { intros c Hc. destruct (Hsingle c Hc) as [p ->]. simpl. eauto. }
  pose proof (map_opt_Forall2 _ _ _ Hpt) as HF.
  exists pt, (idx_excluded_boot resampling M).
  split; [exact Hpt|]. split; [reflexivity|]. split; [|split; [|split]].
  - intros p. split.
    + intros Hp. destruct (Forall2_in_r _ _ _ _ HF Hp) as (c & Hc & Hhd).
      destruct (Hsingle c Hc) as [q Hq]. rewrite Hq in Hhd.
      simpl in Hhd. injection Hhd as ->.
      apply filter_In in Hc. destruct Hc as [Hseq _]. apply in_seq in Hseq.
      exists c. split; [lia|]. split.
      * apply positions_of_one_cell. rewrite Hq. now left.
      * intros r Hr. apply positions_of_one_cell in Hr. rewrite Hq in Hr.
        destruct Hr as [<-|[]]. reflexivity.
    + intros (c & Hc & Hp & Hall).
      assert (Hq : positions_of_one (colZ c M) = [p]).
      { apply NoDup_all_equal.
        - apply positions_of_one_NoDup.
        - now apply positions_of_one_cell.
        - intros q Hq. apply Hall. now apply positions_of_one_cell. }
      assert (Hin : In c (gt_excluded_point M)).
      { apply filter_In. split; [apply in_seq; lia|]. apply Z.eqb_eq.
        rewrite (Zsum_positions_of_one _ (colZ_01 c M H01)), Hq. reflexivity. }
      destruct (Forall2_in_l _ _ _ _ HF Hin) as (y & Hy & Hhd).
      rewrite Hq in Hhd. simpl in Hhd. injection Hhd as <-. exact Hy.
  - intros p. unfold idx_excluded_boot, gt_excluded_boot.
    rewrite in_flat_map. split.
    + intros (c & Hc & Hp). apply filter_In in Hc. destruct Hc as [Hseq Hc].
      apply in_seq in Hseq. exists c. split; [lia|].
      split; [now apply positions_of_one_cell|].
      intros q Hq. apply positions_of_one_cell in Hq.
      apply (proj1 (one_distinct_label _ (nth p resampling 0%nat)
                      ltac:(unfold labels_of_one;
                            apply (in_map (fun k => nth k resampling 0%nat));
                            exact Hp)) Hc).
      unfold labels_of_one. now apply (in_map (fun k => nth k resampling 0%nat)).
    + intros (c & Hc & Hp & Hall). exists c.
      apply positions_of_one_cell in Hp. split; [|exact Hp].
      apply filter_In. split; [apply in_seq; lia|].
      apply (one_distinct_label _ (nth p resampling 0%nat)).
      * unfold labels_of_one. now apply (in_map (fun k => nth k resampling 0%nat)).
      * intros y Hy. unfold labels_of_one in Hy. apply in_map_iff in Hy.
        destruct Hy as (q & <- & Hq). apply Hall.
        now apply positions_of_one_cell.
  - intros p Hp.
    destruct (Forall2_in_r _ _ _ _ HF Hp) as (c & Hc & Hhd).
    unfold idx_excluded_boot. apply in_flat_map. exists c. split.
    + apply filter_In in Hc. destruct Hc as [Hseq Hc].
      apply filter_In. split; [exact Hseq|].
      now destruct (point_test_implies_boot resampling M c H01 Hc) as (_ & _ & ->).
    + destruct (Hsingle c Hc) as [q Hq]. rewrite Hq in *.
      simpl in Hhd. injection Hhd as ->. now left.
  - intros Hnd. unfold idx_excluded_boot.
    assert (E : gt_excluded_boot resampling M = gt_excluded_point M).
    { unfold gt_excluded_boot, gt_excluded_point. apply filter_ext.
      intros c. now apply excluded_tests_agree. }
    rewrite E. now apply flat_map_singletons.
Qed.

(** The first three of the four observations, resampled without
    repetition: the single male at position 2 is alone in his cell, and
    both rules drop him and nobody else. *)
Lemma exclusion_paths_witness :
  exists pt bt,
    point_excluded (firstn 3 four_observations) = Some pt /\
    bootstrap_excluded four_observations [0; 1; 2]%nat = Some bt /\
    bt = pt /\ pt = [2]%nat.
Proof.
  destruct (exclusion_paths four_observations [0; 1; 2]%nat
              (firstn 3 four_observations))
    as (pt & bt & H1 & H2 & _ & _ & _ & H4).
  - discriminate.
  - reflexivity.
  - unfold four_observations, indicator_cells, cell_flags. simpl.
    repeat (apply Forall_cons || apply Forall_nil || split);
      (left; reflexivity) || (right; reflexivity).
  - exists pt, bt. split; [exact H1|]. split; [exact H2|]. split.
    + apply H4. repeat constructor; simpl; intuition discriminate.
    + assert (E : point_excluded (firstn 3 four_observations) = Some [2]%nat)
        by (vm_compute; reflexivity).
      rewrite E in H1. now injection H1 as <-.
Defined.

(** C1 as stated fails: when the first observation is drawn twice and the
    second not at all, the replication drops rows 0 and 1 (their cell holds
    one distinct index) while the point-estimate rule, on the same four
    rows, drops nothing (the cell holds two rows). *)
Lemma exclusion_paths_counterexample :
  exists rows bt pt,
    np_take four_observations [0; 0; 2; 3]%nat = Some rows /\
    bootstrap_excluded four_observations [0; 0; 2; 3]%nat = Some bt /\
    point_excluded rows = Some pt /\
    bt = [0; 1]%nat /\ pt = [] /\ bt <> pt.
Proof.
  eexists. exists [0; 1]%nat, []. split; [reflexivity|].
  split; [vm_compute; reflexivity|]. split; [vm_compute; reflexivity|].
  repeat split. discriminate.
Qed.

(** ** Residuals of the mean stage *)

Lemma np_take_map (l : vec) (idxs : list nat) :
  (forall j, In j idxs -> (j < length l)%nat) ->
  np_take l idxs = Some (map (fun j => nth j l 0) idxs).
Proof.
  induction idxs as [|j idxs IH]; intros H; simpl; auto.
  rewrite IH by (intros; apply H; now right).
  rewrite (nth_error_nth' l 0) by (apply H; now left). reflexivity.
Qed.

Lemma length_outer_flatR a b :
  length (outer_flatR a b) = (length b * length a)%nat.
Proof.
  unfold outer_flatR. induction b as [|o b IH]; simpl; auto.
  now rewrite length_app, length_map, IH.
Qed.

Lemma nth_outer_flatR a b i m :
  (i < length a)%nat -> (m < length b)%nat ->
  nth (i + m * length a) (outer_flatR a b) 0 = nth i a 0 * nth m b 0.
Proof.
  intros Hi. unfold outer_flatR. revert m.
  induction b as [|o b IH]; intros m Hm; simpl in *; [lia|].
  destruct m as [|m].
  - simpl. rewrite Nat.add_0_r, app_nth1 by now rewrite length_map.
    rewrite (nth_indep _ 0 (0 * o)) by now rewrite length_map.
    apply (map_nth (fun x => x * o)).
  - rewrite app_nth2 by (rewrite length_map; simpl; lia).
    rewrite length_map.
    replace (i + S m * length a - length a)%nat with (i + m * length a)%nat
      by (simpl; lia).
    apply IH. lia.
Qed.

Lemma np_arange_columns i k n :
  (i < k)%nat -> np_arange i (n * k) k = map (fun m => (i + m * k)%nat) (seq 0 n).
Proof.
  intros Hi. unfold np_arange. f_equal. f_equal.
  destruct n as [|n].
  - apply Nat.div_small. simpl. lia.
  - symmetry. apply (Nat.div_unique _ _ _ (k - 1 - i)); [lia|]. simpl. nia.
Qed.

Lemma length_flat_map_const {A B : Type} (f : A -> list B) (l : list A) c :
  (forall x, length (f x) = c) -> length (flat_map f l) = (length l * c)%nat.
Proof.
  intros H. induction l as [|x l IH]; simpl; auto.
  now rewrite length_app, H, IH.
Qed.

Lemma length_NAME_eryt cfg :
  length (NAME_eryt cfg)
  = ((1 + length (TYPE cfg)) * length (SHAREABLE cfg))%nat.
Proof.
  unfold NAME_eryt. rewrite (length_flat_map_const _ _ (length (SHAREABLE cfg)))
    by (intros; apply length_map).
  unfold NAME_t_single, NAME_h. simpl. now rewrite length_map, length_seq.
Qed.

Lemma map_nth_seq {A B : Type} (f : A -> B) (l : list A) d :
  map (fun m => f (nth m l d)) (seq 0 (length l)) = map f l.
Proof.
  apply (nth_ext _ _ (f d) (f d)).
  - now rewrite !length_map, length_seq.
  - rewrite length_map, length_seq. intros n Hn.
    rewrite (map_nth f l d n).
    rewrite (nth_indep _ (f d) ((fun m => f (nth m l d)) 0%nat))
      by now rewrite length_map, length_seq.
    rewrite (map_nth (fun m => f (nth m l d)) (seq 0 (length l)) 0%nat n).
    now rewrite seq_nth.
Qed.

Lemma length_t_single_row t nt :
  length t = (2 + nt)%nat -> length (t_single_row t) = (1 + nt)%nat.
Proof.
  intros H. unfold t_single_row. cbn [length]. rewrite length_skipn. lia.
Qed.

(** The columns picked for equation [i] are the undemeaned regressors of
    good [i]. *)
Lemma hstack_row_spec cfg d i o :
  design_shape (length (SHAREABLE cfg)) d (length (TYPE cfg)) o ->
  (i < length (SHAREABLE cfg))%nat ->
  hstack_row cfg i o = Some (undemeaned_regressors i o).
Proof.
  intros (Hw & He & Hz & Ht) Hi. unfold hstack_row, undemeaned_regressors.
  rewrite length_NAME_eryt, np_arange_columns by assumption.
  pose proof (length_t_single_row _ _ Ht) as Hts.
  set (a := map (fun e => e * y_of o) (er_of o)).
  set (b := map IZR (t_single_row (t_of o))).
  assert (Ha : length a = length (SHAREABLE cfg)) by (unfold a; now rewrite length_map).
  assert (Hb : length b = (1 + length (TYPE cfg))%nat)
    by (unfold b; now rewrite length_map).
  unfold eryt_row. fold a b.
  rewrite np_take_map.
  - f_equal. f_equal. fold zt_row. rewrite map_map.
    rewrite <- (map_nth_seq (fun ts => nth i (er_of o) 0 * y_of o * IZR ts)
                  (t_single_row (t_of o)) 0%Z).
    rewrite Hts. apply map_ext_in. intros m Hm. apply in_seq in Hm.
    rewrite <- Ha. rewrite nth_outer_flatR by lia.
    assert (E1 : nth i a 0 = nth i (er_of o) 0 * y_of o).
    { unfold a. rewrite (nth_indep _ 0 (0 * y_of o)) by (rewrite length_map; lia).
      apply (map_nth (fun e => e * y_of o)). }
    assert (E2 : nth m b 0 = IZR (nth m (t_single_row (t_of o)) 0%Z)).
    { unfold b. apply (map_nth IZR). }
    rewrite E1, E2. reflexivity.
  - intros j Hj. apply in_map_iff in Hj. destruct Hj as (m & <- & Hm).
    apply in_seq in Hm. rewrite length_outer_flatR, Ha, Hb. nia.
Qed.

Lemma length_undemeaned_regressors k d nt i o :
  design_shape k d nt o ->
  length (undemeaned_regressors i o) = (1 + nt + (2 + nt) * d)%nat.
Proof.
  intros (Hw & He & Hz & Ht). unfold undemeaned_regressors.
  rewrite length_app, length_map, (length_t_single_row _ nt Ht).
  rewrite length_outer_flatR, length_map, Ht, Hz. reflexivity.
Qed.

Lemma predicted_spec cfg sample params d i :
  Forall (design_shape (length (SHAREABLE cfg)) d (length (TYPE cfg))) sample ->
  (i < length (SHAREABLE cfg))%nat ->
  length (eq_params params i)
  = (1 + length (TYPE cfg) + (2 + length (TYPE cfg)) * d)%nat ->
  predicted cfg sample params i
  = Some (map (fun o => dot (undemeaned_regressors i o) (eq_params params i)) sample).
Proof.
  intros Hs Hi Hb. unfold predicted. rewrite Forall_forall in Hs.
  rewrite (map_opt_map _ (undemeaned_regressors i))
    by (intros o Ho; apply (hstack_row_spec cfg d); auto).
  unfold np_matvec. rewrite (map_opt_map _ (fun row => dot row (eq_params params i))).
  - now rewrite map_map.
  - intros row Hrow. apply in_map_iff in Hrow. destruct Hrow as (o & <- & Ho).
    rewrite (length_undemeaned_regressors _ d (length (TYPE cfg))), Hb by auto.
    now rewrite Nat.eqb_refl.
Qed.

Lemma vsub_map {A : Type} (f g : A -> R) (l : list A) :
  vsub (map f l) (map g l) = map (fun x => f x - g x) l.
Proof.
  unfold vsub. induction l as [|x l IH]; simpl; auto. now rewrite IH.
Qed.

Lemma length_center sel : length (center sel) = length sel.
Proof. unfold center. apply length_map. Qed.

(** C2 (as the code has it).  For every shareable good [i] the fitted
    residual of an observation is its actual budget share minus the
    prediction of the mean-stage coefficients of equation [i] applied to
    the undemeaned type-interacted ery and demographic regressors; column
    [i] of [res] holds, for every grouped observation, that residual minus
    the mean of the residuals of its gt group. *)
Theorem variance_residuals cfg sample gt params d i :
  Forall (design_shape (length (SHAREABLE cfg)) d (length (TYPE cfg))) sample ->
  (i < length (SHAREABLE cfg))%nat ->
  length (eq_params params i)
  = (1 + length (TYPE cfg) + (2 + length (TYPE cfg)) * d)%nat ->
  in_range (length sample) gt ->
  NoDup (map fst gt) ->
  exists fres res_i,
    fitted_residual cfg sample params i = Some fres /\
    fres = map (fun o => nth i (w_of o) 0
                         - dot (undemeaned_regressors i o) (eq_params params i))
               sample /\
    res_column cfg sample gt params i = Some res_i /\
    length res_i = length sample /\
    forall n c, In (n, c) gt ->
      exists sel,
        np_take fres (group_rows gt c) = Some sel /\
        nth_error res_i n = Some (nth n fres 0 - mean sel).
Proof.
  intros Hs Hi Hb Hin Hnd.
  unfold res_column, fitted_residual.
  rewrite (predicted_spec cfg sample params d i Hs Hi Hb), vsub_map.
  set (fres := map _ sample).
  assert (Hlen : length fres = length sample) by (unfold fres; apply length_map).
  destruct (group_loop_spec center fres gt length_center
              ltac:(rewrite Hlen; exact Hin) Hnd
              (repeat 0 (length sample))
              ltac:(now rewrite repeat_length))
    as (out & Hout & Hl & _ & Hw).
  exists fres, out. split; [reflexivity|]. split; [reflexivity|].
  split; [exact Hout|]. split; [congruence|].
  intros n c Hnc. destruct (Hw n c Hnc) as (sel & k & Hsel & Hk & Hval).
  exists sel. split; [exact Hsel|]. rewrite Hval. unfold center.
  rewrite nth_error_map, (np_take_nth _ _ _ _ _ Hsel Hk).
  rewrite (nth_error_nth' fres 0) by (rewrite Hlen; eauto). reflexivity.
Qed.

Lemma variance_residuals_witness :
  exists fres res_0,
    fitted_residual reference two_designs sample_mean_params 0 = Some fres /\
    res_column reference two_designs two_designs_gt sample_mean_params 0
    = Some res_0 /\
    length res_0 = 2%nat.
Proof.
  destruct (variance_residuals reference two_designs two_designs_gt
              sample_mean_params 2 0)
    as (fres & res_0 & H1 & _ & H3 & H4 & _).
  - repeat constructor.
  - simpl. lia.
  - reflexivity.
  - intros r c H. simpl in H.
    repeat (destruct H as [H|H]; [injection H as <- <-; simpl; lia|]).
    destruct H.
  - simpl. repeat constructor; simpl; intuition discriminate.
  - exists fres, res_0. auto.
Defined.

Lemma dot_zero_l (a b : vec) : Forall (fun x => x = 0) a -> dot a b = 0.
Proof.
  unfold dot. intros H. revert b. induction H as [|x a Hx Ha IH]; intros [|y b];
    simpl; try lra.
  subst. rewrite IH. lra.
Qed.

(** C2 as stated fails: for the first good and the first observation the
    code's residual is actual minus predicted (1/5 - 0), the negative of
    the claimed predicted minus actual. *)
Lemma variance_residuals_counterexample :
  exists fres claimed,
    fitted_residual reference two_designs sample_mean_params 0 = Some fres /\
    claimed_residual reference two_designs sample_mean_params 0 = Some claimed /\
    nth 0 fres 0 = 1 / 5 /\
    nth 0 claimed 0 = - (1 / 5) /\
    nth 0 fres 0 <> nth 0 claimed 0.
Proof.
  assert (Hp : predicted reference two_designs sample_mean_params 0
               = Some (map (fun o => dot (undemeaned_regressors 0 o)
                                         (eq_params sample_mean_params 0))
                           two_designs)).
  { apply (predicted_spec reference two_designs sample_mean_params 2 0).
    - repeat constructor.
    - simpl. lia.
    - reflexivity. }
  assert (Hz : forall o, In o two_designs ->
            dot (undemeaned_regressors 0 o) (eq_params sample_mean_params 0) = 0).
  { intros o Ho. apply dot_zero_l.
    destruct Ho as [<-|[<-|[]]]; unfold undemeaned_regressors; simpl;
      repeat constructor; lra. }
  unfold fitted_residual, claimed_residual. rewrite Hp.
  eexists. eexists. split; [reflexivity|]. split; [reflexivity|].
  rewrite !vsub_map. cbn [two_designs map nth w_of].
  rewrite (Hz _ (or_introl eq_refl)).
  split; [lra|]. split; lra.
Qed.

(** * Further properties *)

(** ** [demean]: failure, lone members and group constants *)

Lemma np_take_None_iff {A : Type} (a : list A) (index : list nat) :
  np_take a index = None <-> exists i, In i index /\ (length a <= i)%nat.
Proof.
  induction index as [|i index IH]; simpl.
  - split; [discriminate|]. intros (i & [] & _).
  - destruct (nth_error a i) as [x|] eqn:E.
    + destruct (np_take a index) as [xs|] eqn:E2.
      * split; [discriminate|]. intros (j & [<-|Hj] & Hlen).
        -- apply nth_error_None in Hlen. congruence.
        -- destruct IH as [_ IH]. discriminate IH. exists j. auto.
      * split; [|reflexivity]. intros _. destruct IH as [IH _].
        destruct (IH eq_refl) as (j & Hj & Hl). exists j. auto.
    + split; [|reflexivity]. intros _. exists i. split; auto.
      now apply nth_error_None.
Qed.

Lemma group_fold_None {A : Type} (f : list A -> list A) var gt cs :
  fold_left (group_step f var gt) cs None = None.
Proof. induction cs; simpl; auto. Qed.

Lemma group_fold_fails {A : Type} (f : list A -> list A) var gt cs c :
  In c cs -> np_take var (group_rows gt c) = None ->
  forall acc, fold_left (group_step f var gt) cs acc = None.
Proof.
  induction cs as [|c0 cs IH]; intros Hc Hf acc; [destruct Hc|]. simpl.
  destruct Hc as [->|Hc].
  - replace (group_step f var gt acc c) with (@None (list A));
      [apply group_fold_None|].
    unfold group_step. destruct acc; auto. now rewrite Hf.
  - now apply IH.
Qed.

(** [demean] raises exactly when the group assignment names a row that the
    array does not have: [var[index, :]] is then an [IndexError], and
    nothing else in the function can fail. *)
Theorem demean_raises_iff_out_of_range var gt :
  demean var gt = None <->
  exists r c, In (r, c) gt /\ (length var <= r)%nat.
Proof.
  split.
  - intros Hnone.
    destruct (Forall_Exists_dec (fun rc : nat * nat => (fst rc < length var)%nat)
                (fun rc => lt_dec (fst rc) (length var)) gt) as [Hall|Hex].
    + exfalso. unfold demean, group_loop in Hnone.
      assert (Hin : forall r c, In (r, c) gt -> (r < length var)%nat).
      { intros r c H. rewrite Forall_forall in Hall. apply (Hall (r, c) H). }
      destruct (group_fold_untouched (center_rows (ncols var)) var gt
                  Hin (np_unique (map snd gt))
                  (zeros (length var) (ncols var)) (length_zeros _ _))
        as (out & Hout & _).
      congruence.
    + apply Exists_exists in Hex. destruct Hex as ([r c] & Hin & Hge).
      exists r, c. simpl in Hge. split; auto. lia.
  - intros (r & c & Hin & Hge). unfold demean, group_loop.
    apply (group_fold_fails _ _ _ _ c).
    + apply np_unique_In. change c with (snd (r, c)). now apply in_map.
    + apply np_take_None_iff. exists r. split; auto. now apply group_rows_In.
Qed.

Lemma mean_single x : mean [x] = x.
Proof. unfold mean. simpl. field. Qed.

(** An observation that is the only member of its group comes out of
    [demean] as a row of zeros: it is its own group mean. *)
Theorem demean_lone_member_zero n p var gt r c :
  is_matrix n p var -> in_range n gt -> NoDup (map fst gt) ->
  group_rows gt c = [r] ->
  exists out, demean var gt = Some out /\ nth_error out r = Some (repeat 0 p).
Proof.
  intros Hm Hin Hnd Hg.
  destruct (demean_rows n p var gt Hm Hin Hnd) as (out & Hout & _ & _ & Hw).
  exists out. split; [exact Hout|].
  assert (Hrc : In (r, c) gt) by (apply group_rows_In; rewrite Hg; now left).
  destruct (Hw r c Hrc) as (row & sel & Hrow & Hsel & Hval).
  rewrite Hg in Hsel. simpl in Hsel. rewrite Hrow in Hsel. injection Hsel as <-.
  rewrite Hval. f_equal.
  assert (Hlen : length row = p).
  { destruct Hm as [_ Hr]. rewrite Forall_forall in Hr. apply Hr.
    eapply nth_error_In; eauto. }
  apply (nth_ext _ _ 0 0).
  - rewrite length_vsub, length_mean_axis0, repeat_length. lia.
  - intros j Hj. rewrite length_vsub, length_mean_axis0 in Hj.
    rewrite nth_vsub by (rewrite length_mean_axis0; auto).
    rewrite nth_mean_axis0 by lia. unfold col. simpl.
    rewrite mean_single, nth_repeat. lra.
Qed.

(** The second row is alone in group 0. *)
Lemma demean_lone_member_zero_witness :
  exists out,
    demean [[1; 2]; [3; 4]; [5; 8]] [(0, 1); (1, 0); (2, 1)]%nat = Some out /\
    nth_error out 1 = Some [0; 0].
Proof.
  apply (demean_lone_member_zero 3 2 [[1; 2]; [3; 4]; [5; 8]]
           [(0, 1); (1, 0); (2, 1)]%nat 1 0).
  - split; [reflexivity|]. repeat constructor.
  - intros r c H. simpl in H.
    repeat (destruct H as [H|H]; [injection H as <- <-; lia|]). destruct H.
  - simpl. repeat constructor; simpl; intuition discriminate.
  - reflexivity.
Defined.

Lemma col_np_take (var : matrix) idx sel j :
  np_take var idx = Some sel -> col j sel = map (fun i => entry var i j) idx.
Proof.
  revert sel; induction idx as [|i idx IH]; simpl; intros sel.
  - intros [= <-]. reflexivity.
  - destruct (nth_error var i) as [row|] eqn:E; [|discriminate].
    destruct (np_take var idx); [|discriminate].
    intros [= <-]. simpl. f_equal; [|now apply IH].
    unfold entry. now rewrite (nth_error_nth _ _ _ E).
Qed.

Lemma Rsum_const {A : Type} (s : R) (l : list A) :
  Rsum (map (fun _ => s) l) = INR (length l) * s.
Proof.
  induction l as [|x l IH].
  - simpl. lra.
  - change (length (x :: l)) with (S (length l)). rewrite S_INR.
    simpl. rewrite IH. lra.
Qed.

Lemma mean_shift {A : Type} (f : A -> R) (s : R) (l : list A) :
  l <> [] -> mean (map (fun i => f i + s) l) = mean (map f l) + s.
Proof.
  intros Hl. unfold mean. rewrite !length_map, Rsum_plus, Rsum_const.
  assert (INR (length l) <> 0).
  { apply not_0_INR. destruct l; [congruence|discriminate]. }
  field. assumption.
Qed.

(** Group constants are differenced out: adding to every member of a group
    one vector of the group leaves the result of [demean] unchanged. *)
Theorem demean_removes_group_constants n p var var' gt (shift : nat -> vec) :
  is_matrix n p var -> is_matrix n p var' ->
  in_range n gt -> NoDup (map fst gt) ->
  (forall r c j, In (r, c) gt -> (j < p)%nat ->
     entry var' r j = entry var r j + nth j (shift c) 0) ->
  demean var' gt = demean var gt.
Proof.
  intros Hm Hm' Hin Hnd Hshift.
  destruct (demean_rows n p var gt Hm Hin Hnd) as (out & Hout & Hlen & Hz & Hw).
  destruct (demean_rows n p var' gt Hm' Hin Hnd)
    as (out' & Hout' & Hlen' & Hz' & Hw').
  rewrite Hout, Hout'. f_equal. apply nth_error_ext. intros r.
  destruct (Nat.lt_ge_cases r n) as [Hr|Hr].
  - destruct (in_dec Nat.eq_dec r (map fst gt)) as [Hi|Hi].
    + apply in_map_iff in Hi. destruct Hi as [[r' c] [E Hrc]].
      simpl in E. subst r'.
      destruct (Hw r c Hrc) as (row & sel & Hrow & Hsel & Hval).
      destruct (Hw' r c Hrc) as (row' & sel' & Hrow' & Hsel' & Hval').
      rewrite Hval, Hval'. f_equal.
      assert (Lr : length row = p).
      { destruct Hm as [_ H]. rewrite Forall_forall in H. apply H.
        eapply nth_error_In; eauto. }
      assert (Lr' : length row' = p).
      { destruct Hm' as [_ H]. rewrite Forall_forall in H. apply H.
        eapply nth_error_In; eauto. }
      apply (nth_ext _ _ 0 0).
      * rewrite !length_vsub, !length_mean_axis0. lia.
      * intros j Hj. rewrite length_vsub, length_mean_axis0 in Hj.
        rewrite !nth_vsub by (rewrite length_mean_axis0; auto).
        rewrite !nth_mean_axis0 by lia.
        rewrite (col_np_take _ _ _ j Hsel), (col_np_take _ _ _ j Hsel').
        rewrite (map_ext_in (fun i => entry var' i j)
                   (fun i => entry var i j + nth j (shift c) 0)).
        -- rewrite mean_shift.
           ++ pose proof (Hshift r c j Hrc ltac:(lia)) as E. unfold entry in E.
              rewrite (nth_error_nth _ _ _ Hrow), (nth_error_nth _ _ _ Hrow') in E.
              lra.
           ++ intro E. apply group_rows_In in Hrc. rewrite E in Hrc. destruct Hrc.
        -- intros i Hi. apply group_rows_In in Hi. apply Hshift; auto. lia.
    + now rewrite Hz, Hz'.
  - transitivity (@None vec); [|symmetry]; apply nth_error_None; lia.
Qed.

(** Rows 0 and 2 form group 1; adding (10, 20) to both changes nothing. *)
Lemma demean_removes_group_constants_witness :
  demean [[11; 22]; [3; 4]; [15; 28]] [(0, 1); (1, 0); (2, 1)]%nat
  = demean [[1; 2]; [3; 4]; [5; 8]] [(0, 1); (1, 0); (2, 1)]%nat.
Proof.
  apply (demean_removes_group_constants 3 2 _ _ _
           (fun c => if (c =? 1)%nat then [10; 20] else [0; 0])).
  - split; [reflexivity|]. repeat constructor.
  - split; [reflexivity|]. repeat constructor.
  - intros r c H. simpl in H.
    repeat (destruct H as [H|H]; [injection H as <- <-; lia|]). destruct H.
  - simpl. repeat constructor; simpl; intuition discriminate.
  - intros r c j H Hj. simpl in H.
    repeat (destruct H as [H|H];
            [injection H as <- <-;
             destruct j as [|[|j]]; [unfold entry; simpl; lra ..|lia]|]).
    destruct H.
Defined.

(** ** [cov_to_cor]: symmetry, idempotence and units *)

Lemma matrix_ext n p (a b : matrix) :
  is_matrix n p a -> is_matrix n p b ->
  (forall i j, (i < n)%nat -> (j < p)%nat -> entry a i j = entry b i j) ->
  a = b.
Proof.
  intros Ha Hb H. destruct (Ha) as [La _]. destruct (Hb) as [Lb _].
  apply (nth_ext _ _ [] []); [congruence|]. intros i Hi.
  assert (Hin : (i < n)%nat) by lia.
  pose proof (is_matrix_row n p a i Ha Hin) as Ra.
  pose proof (is_matrix_row n p b i Hb Hin) as Rb.
  apply (nth_ext _ _ 0 0); [congruence|]. intros j Hj.
  apply H; lia.
Qed.

Lemma entry_out_of_range n p (m : matrix) i j :
  is_matrix n p m -> (n <= i)%nat \/ (p <= j)%nat -> entry m i j = 0.
Proof.
  intros Hm H. unfold entry.
  destruct (Nat.lt_ge_cases i n) as [Hi|Hi].
  - apply nth_overflow. rewrite (is_matrix_row n p m i Hm Hi). lia.
  - rewrite (nth_overflow m) by (destruct Hm; lia). now destruct j.
Qed.

Lemma is_matrix_cov_to_cor n (cov : matrix) :
  is_matrix n n cov -> is_matrix n n (cov_to_cor cov).
Proof.
  intros Hm. split; [now apply length_cov_to_cor|].
  unfold cov_to_cor, mdiv. apply Forall_map. apply Forall_forall.
  intros [r s] Hrs. simpl.
  unfold vdiv. rewrite length_map, length_combine.
  destruct (Hm) as [_ Hr]. rewrite Forall_forall in Hr.
  rewrite (Hr r) by (eapply in_combine_l; eauto).
  apply in_combine_r in Hrs. unfold np_outer in Hrs.
  apply in_map_iff in Hrs. destruct Hrs as (x & <- & _).
  rewrite length_map, (length_sqrt_diag n cov Hm). apply Nat.min_id.
Qed.

(** The correlation matrix of a symmetric matrix is symmetric. *)
Theorem cov_to_cor_symmetric n (cov : matrix) :
  is_matrix n n cov -> symmetric cov -> symmetric (cov_to_cor cov).
Proof.
  intros Hm Hsym i j.
  pose proof (is_matrix_cov_to_cor n cov Hm) as Hc.
  destruct (Nat.lt_ge_cases i n) as [Hi|Hi];
    destruct (Nat.lt_ge_cases j n) as [Hj|Hj].
  - rewrite !(entry_cov_to_cor n) by assumption.
    rewrite (Hsym i j). f_equal. apply Rmult_comm.
  - rewrite !(entry_out_of_range n n) by auto. reflexivity.
  - rewrite !(entry_out_of_range n n) by auto. reflexivity.
  - rewrite !(entry_out_of_range n n) by auto. reflexivity.
Qed.

Lemma cov_to_cor_symmetric_witness : symmetric (cov_to_cor [[4; 2]; [2; 9]]).
Proof.
  apply (cov_to_cor_symmetric 2).
  - split; [reflexivity|]. repeat constructor.
  - intros [|[|i]] [|[|j]]; unfold entry; simpl; try reflexivity;
      repeat (match goal with
              | |- context [match ?k with O => _ | S _ => _ end] =>
                  destruct k; simpl
              end); reflexivity.
Defined.

(** On a matrix with positive diagonal [cov_to_cor] is idempotent: a
    correlation matrix is its own correlation matrix. *)
Theorem cov_to_cor_idempotent n (cov : matrix) :
  is_matrix n n cov ->
  (forall i, (i < n)%nat -> 0 < entry cov i i) ->
  cov_to_cor (cov_to_cor cov) = cov_to_cor cov.
Proof.
  intros Hm Hpos.
  pose proof (is_matrix_cov_to_cor n cov Hm) as Hc.
  apply (matrix_ext n n); auto.
  - now apply is_matrix_cov_to_cor.
  - intros i j Hi Hj.
    rewrite (entry_cov_to_cor n (cov_to_cor cov)) by assumption.
    rewrite !(cov_to_cor_diag n) by auto.
    rewrite sqrt_1. field.
Qed.

Lemma cov_to_cor_idempotent_witness :
  cov_to_cor (cov_to_cor [[4; 2]; [2; 9]]) = cov_to_cor [[4; 2]; [2; 9]].
Proof.
  apply (cov_to_cor_idempotent 2).
  - split; [reflexivity|]. repeat constructor.
  - intros [|[|i]] Hi; unfold entry; simpl; try lra; lia.
Defined.

Lemma is_matrix_rescale (d : vec) (cov : matrix) :
  is_matrix (length d) (length d) (rescale d cov).
Proof.
  unfold rescale. split.
  - now rewrite length_map, length_seq.
  - apply Forall_map. apply Forall_forall. intros i _.
    now rewrite length_map, length_seq.
Qed.

Lemma entry_rescale (d : vec) (cov : matrix) i j :
  (i < length d)%nat -> (j < length d)%nat ->
  entry (rescale d cov) i j = nth i d 0 * nth j d 0 * entry cov i j.
Proof.
  intros Hi Hj. unfold entry at 1, rescale.
  rewrite (nth_map_seq _ (length d) i) by assumption.
  now rewrite (nth_map_seq _ (length d) j) by assumption.
Qed.

(** Correlations do not depend on the units of the variables: multiplying
    variable [i] by a positive [d_i], which multiplies entry (i, j) of the
    covariance matrix by [d_i * d_j], leaves [cov_to_cor] unchanged. *)
Theorem cov_to_cor_unit_free n (d : vec) (cov : matrix) :
  is_matrix n n cov -> length d = n ->
  (forall i, (i < n)%nat -> 0 < nth i d 0) ->
  (forall i, (i < n)%nat -> 0 < entry cov i i) ->
  cov_to_cor (rescale d cov) = cov_to_cor cov.
Proof.
  intros Hm Hd Hdpos Hpos.
  pose proof (is_matrix_rescale d cov) as Hr. rewrite Hd in Hr.
  apply (matrix_ext n n); try now apply is_matrix_cov_to_cor.
  intros i j Hi Hj.
  rewrite !(entry_cov_to_cor n) by assumption.
  rewrite !entry_rescale by lia.
  pose proof (Hdpos i Hi) as Di. pose proof (Hdpos j Hj) as Dj.
  pose proof (Hpos i Hi) as Ci. pose proof (Hpos j Hj) as Cj.
  assert (Si : sqrt (nth i d 0 * nth i d 0 * entry cov i i)
               = nth i d 0 * sqrt (entry cov i i)).
  { rewrite sqrt_mult by nra. rewrite sqrt_square by lra. reflexivity. }
  assert (Sj : sqrt (nth j d 0 * nth j d 0 * entry cov j j)
               = nth j d 0 * sqrt (entry cov j j)).
  { rewrite sqrt_mult by nra. rewrite sqrt_square by lra. reflexivity. }
  rewrite Si, Sj.
  pose proof (sqrt_lt_R0 _ Ci). pose proof (sqrt_lt_R0 _ Cj).
  field. repeat split; lra.
Qed.

Lemma cov_to_cor_unit_free_witness :
  cov_to_cor (rescale [2; 3] [[4; 2]; [2; 9]]) = cov_to_cor [[4; 2]; [2; 9]].
Proof.
  apply (cov_to_cor_unit_free 2).
  - split; [reflexivity|]. repeat constructor.
  - reflexivity.
  - intros [|[|i]] Hi; simpl; try lra; lia.
  - intros [|[|i]] Hi; unfold entry; simpl; try lra; lia.
Defined.

(** ** [barten]: when it divides, broadcasts or raises *)

Lemma length_one_inv {A : Type} (l : list A) :
  length l = 1%nat -> exists x, l = [x].
Proof. destruct l as [|x [|y l]]; try discriminate. intros _. now exists x. Qed.

Lemma barten_raises_iff (theta : vec) (num_eq : nat) :
  barten theta num_eq = None <->
  (Nat.min num_eq (length theta) <> length theta - num_eq /\
   Nat.min num_eq (length theta) <> 1 /\
   length theta - num_eq <> 1)%nat.
Proof.
  unfold barten, np_divide.
  pose proof (length_firstn num_eq theta) as Lf.
  pose proof (length_skipn num_eq theta) as Ls.
  destruct (Nat.eqb_spec (length (skipn num_eq theta))
                         (length (firstn num_eq theta))) as [E|E].
  - split; [discriminate|]. intros (H & _). lia.
  - destruct (skipn num_eq theta) as [|x [|x' b_h]] eqn:Eh.
    + destruct (firstn num_eq theta) as [|y [|y' b_s]] eqn:Es.
      * simpl in E. congruence.
      * split; [discriminate|]. simpl in *. intros (_ & H & _). lia.
      * split; [intros _|reflexivity]. simpl in *. lia.
    + split; [discriminate|]. simpl in *. intros (_ & _ & H). lia.
    + destruct (firstn num_eq theta) as [|y [|y' b_s]] eqn:Es.
      * split; [intros _|reflexivity]. simpl in *. lia.
      * split; [discriminate|]. simpl in *. intros (_ & H & _). lia.
      * split; [intros _|reflexivity]. simpl in *. lia.
Qed.

Lemma firstn_seq_nth (theta : vec) k :
  (k <= length theta)%nat ->
  firstn k theta = map (fun i => nth i theta 0) (seq 0 k).
Proof.
  intros H. apply (nth_ext _ _ 0 0).
  - rewrite length_firstn, length_map, length_seq. lia.
  - intros i Hi. rewrite length_firstn in Hi.
    rewrite (nth_map_seq _ k i) by lia.
    rewrite nth_firstn. destruct (Nat.ltb_spec i k); [reflexivity|lia].
Qed.

Lemma skipn_seq_nth (theta : vec) k :
  skipn k theta
  = map (fun i => nth (k + i) theta 0) (seq 0 (length theta - k)).
Proof.
  apply (nth_ext _ _ 0 0).
  - now rewrite length_skipn, length_map, length_seq.
  - intros i Hi. rewrite length_skipn in Hi.
    rewrite (nth_map_seq _ (length theta - k) i) by lia.
    apply nth_skipn.
Qed.

(** On a [theta] of [2 * num_eq] entries [barten] returns the [num_eq]
    ratios [theta[num_eq + i] / theta[i]]. *)
Lemma barten_ratios (theta : vec) (num_eq : nat) :
  length theta = (2 * num_eq)%nat ->
  barten theta num_eq
  = Some (map (fun i => nth (num_eq + i) theta 0 / nth i theta 0)
              (seq 0 num_eq)).
Proof.
  intros H. unfold barten, np_divide.
  rewrite length_firstn, length_skipn.
  replace (length theta - num_eq)%nat with num_eq by lia.
  replace (Nat.min num_eq (length theta)) with num_eq by lia.
  rewrite Nat.eqb_refl. f_equal.
  rewrite firstn_seq_nth by lia. rewrite skipn_seq_nth.
  replace (length theta - num_eq)%nat with num_eq by lia.
  unfold vdiv. generalize (seq 0 num_eq). intros l.
  induction l as [|i l IH]; simpl; auto. now rewrite IH.
Qed.

(** The three regimes of [barten].  It raises exactly when the two parts
    [theta[:num_eq]] and [theta[num_eq:]] differ in length and neither has
    one entry.  On a [theta] of [2 * num_eq] entries it returns the
    [num_eq] ratios [theta[num_eq + i] / theta[i]].  With one equation it
    does not raise on a longer [theta]: NumPy stretches the single
    baseline and every further entry is divided by [theta[0]]. *)
Theorem barten_regimes (theta : vec) (num_eq : nat) :
  (barten theta num_eq = None <->
   (Nat.min num_eq (length theta) <> length theta - num_eq /\
    Nat.min num_eq (length theta) <> 1 /\
    length theta - num_eq <> 1)%nat) /\
  (length theta = (2 * num_eq)%nat ->
   barten theta num_eq
   = Some (map (fun i => nth (num_eq + i) theta 0 / nth i theta 0)
               (seq 0 num_eq))) /\
  (num_eq = 1%nat -> (2 <= length theta)%nat ->
   barten theta num_eq
   = Some (map (fun x => x / nth 0 theta 0) (skipn 1 theta))).
Proof.
  split; [apply barten_raises_iff|]. split; [apply barten_ratios|].
  intros -> Hlen. destruct theta as [|y [|x rest]]; simpl in Hlen; try lia.
  unfold barten, np_divide. cbn [firstn skipn length nth].
  destruct rest as [|x' rest]; reflexivity.
Qed.

(** Four entries and two equations; three entries and one equation. *)
Lemma barten_regimes_witness :
  barten [2; 4; 6; 2] 2 = Some [6 / 2; 2 / 4] /\
  barten [2; 4; 6] 1 = Some [4 / 2; 6 / 2].
Proof.
  destruct (barten_regimes [2; 4; 6; 2] 2) as (_ & H2 & _).
  destruct (barten_regimes [2; 4; 6] 1) as (_ & _ & H3).
  split.
  - apply H2. reflexivity.
  - apply H3; [reflexivity|simpl; lia].
Defined.

(** ** Filling a symmetric matrix from its upper triangle *)

Lemma nth_upd_eq {A : Type} (a : list A) i x d :
  (i < length a)%nat -> nth i (upd a i x) d = x.
Proof.
  revert i; induction a as [|h t IH]; intros [|i] Hi; simpl in *; try lia; auto.
  apply IH. lia.
Qed.

Lemma nth_upd_ne {A : Type} (a : list A) i j x d :
  i <> j -> nth j (upd a i x) d = nth j a d.
Proof.
  revert i j; induction a as [|h t IH]; intros [|i] [|j] Hij; simpl; auto;
    congruence.
Qed.

Lemma upd_out_of_range {A : Type} (a : list A) i x :
  (length a <= i)%nat -> upd a i x = a.
Proof.
  revert i; induction a as [|h t IH]; intros [|i] Hi; simpl in *; auto; try lia.
  f_equal. apply IH. lia.
Qed.

Lemma entry_set_entry_eq (m : matrix) i j x :
  (i < length m)%nat -> (j < length (nth i m []))%nat ->
  entry (set_entry m i j x) i j = x.
Proof.
  intros Hi Hj. unfold entry, set_entry.
  rewrite nth_upd_eq by assumption. now apply nth_upd_eq.
Qed.

Lemma entry_set_entry_ne (m : matrix) i j x i' j' :
  (i', j') <> (i, j) -> entry (set_entry m i j x) i' j' = entry m i' j'.
Proof.
  intros Hne. unfold entry, set_entry.
  destruct (Nat.eq_dec i i') as [<-|Hi].
  - destruct (Nat.lt_ge_cases i (length m)) as [Hlt|Hge].
    + rewrite nth_upd_eq by assumption. apply nth_upd_ne. congruence.
    + now rewrite upd_out_of_range.
  - now rewrite nth_upd_ne.
Qed.

Lemma put_entries_cons (m : matrix) ij idx x vals :
  put_entries m (ij :: idx) (x :: vals)
  = put_entries (set_entry m (fst ij) (snd ij) x) idx vals.
Proof. reflexivity. Qed.

Lemma entry_put_entries_untouched idx :
  forall (m : matrix) vals i j,
    ~ In (i, j) idx -> entry (put_entries m idx vals) i j = entry m i j.
Proof.
  induction idx as [|[a b] idx IH]; intros m [|x vals] i j Hn; try reflexivity.
  rewrite put_entries_cons, IH by (intro; apply Hn; now right).
  apply entry_set_entry_ne. intro E. apply Hn. left. now symmetry.
Qed.

Lemma entry_put_entries_written n p idx :
  NoDup idx ->
  forall (m : matrix) vals k i j x,
    is_matrix n p m ->
    (forall a b, In (a, b) idx -> (a < n)%nat /\ (b < p)%nat) ->
    nth_error idx k = Some (i, j) -> nth_error vals k = Some x ->
    entry (put_entries m idx vals) i j = x.
Proof.
  induction 1 as [|[a b] idx Hn Hnd IH]; intros m vals k i j x Hm Hb Hk Hx.
  - destruct k; discriminate.
  - destruct vals as [|v vals]; [destruct k; discriminate|].
    rewrite put_entries_cons. simpl fst. simpl snd.
    destruct k as [|k]; simpl in Hk, Hx.
    + injection Hk as -> ->. injection Hx as ->.
      rewrite entry_put_entries_untouched by assumption.
      destruct (Hb i j (or_introl eq_refl)) as [Hi Hj].
      apply entry_set_entry_eq.
      * destruct Hm; lia.
      * now rewrite (is_matrix_row n p m i Hm Hi).
    + apply (IH _ vals k); auto.
      * now apply is_matrix_set_entry.
      * intros a' b' H'. apply Hb. now right.
Qed.

Lemma In_triu_indices k i j :
  In (i, j) (triu_indices k) <-> (i <= j < k)%nat.
Proof.
  unfold triu_indices. rewrite in_flat_map. split.
  - intros (a & Ha & H). apply in_seq in Ha. apply in_map_iff in H.
    destruct H as (b & [= <- <-] & Hb). apply in_seq in Hb. lia.
  - intros H. exists i. split; [apply in_seq; lia|].
    apply in_map_iff. exists j. split; auto. apply in_seq. lia.
Qed.

Lemma In_tril_indices k i j :
  In (i, j) (tril_indices k) <-> (j < i < k)%nat.
Proof.
  unfold tril_indices. rewrite in_flat_map. split.
  - intros (a & Ha & H). apply in_seq in Ha. apply in_map_iff in H.
    destruct H as (b & [= <- <-] & Hb). apply in_seq in Hb. lia.
  - intros H. exists i. split; [apply in_seq; lia|].
    apply in_map_iff. exists j. split; auto. apply in_seq. lia.
Qed.

Lemma NoDup_map_pair (i : nat) (l : list nat) :
  NoDup l -> NoDup (map (fun j => (i, j)) l).
Proof.
  induction 1 as [|j l Hj Hl IH]; simpl; constructor; auto.
  intro H. apply in_map_iff in H. destruct H as (j' & [= ->] & H). contradiction.
Qed.

Lemma NoDup_flat_map_pairs (f : nat -> list nat) (l : list nat) :
  NoDup l -> (forall i, NoDup (f i)) ->
  NoDup (flat_map (fun i => map (fun j => (i, j)) (f i)) l).
Proof.
  intros Hl Hf. induction Hl as [|i l Hi Hl IH]; simpl; [constructor|].
  apply NoDup_app.
  - apply NoDup_map_pair, Hf.
  - exact IH.
  - intros [a b] H1 H2. apply in_map_iff in H1. destruct H1 as (j & [= <- <-] & _).
    apply in_flat_map in H2. destruct H2 as (i' & Hi' & H2).
    apply in_map_iff in H2. destruct H2 as (j' & [= -> _] & _). contradiction.
Qed.

Lemma NoDup_triu_indices k : NoDup (triu_indices k).
Proof.
  apply (NoDup_flat_map_pairs (fun i => seq i (k - i))).
  - apply seq_NoDup.
  - intros i. apply seq_NoDup.
Qed.

Lemma NoDup_tril_indices k : NoDup (tril_indices k).
Proof.
  apply (NoDup_flat_map_pairs (fun i => seq 0 i)).
  - apply seq_NoDup.
  - intros i. apply seq_NoDup.
Qed.

Lemma np_broadcast_to_length n vals v :
  np_broadcast_to n vals = Some v -> length v = n.
Proof.
  unfold np_broadcast_to.
  destruct (Nat.eqb_spec (length vals) n) as [E|E].
  - now intros [= <-].
  - destruct vals as [|x [|y vals]]; try discriminate.
    intros [= <-]. apply repeat_length.
Qed.

(** The entries of the matrix built by [fill_sym]: above and on the
    diagonal those of the first assignment, below it their mirror
    images. *)
Lemma fill_sym_entries k vals m :
  fill_sym k vals = Some m ->
  exists v m1,
    np_broadcast_to (length (triu_indices k)) vals = Some v /\
    is_matrix k k m1 /\
    (forall pos i j x, nth_error (triu_indices k) pos = Some (i, j) ->
                       nth_error v pos = Some x -> entry m1 i j = x) /\
    (forall i j, (i <= j)%nat -> entry m i j = entry m1 i j) /\
    (forall i j, (j < i < k)%nat -> entry m i j = entry m1 j i).
Proof.
  unfold fill_sym.
  destruct (np_broadcast_to _ vals) as [v|] eqn:Ev; [|discriminate].
  intros [= <-].
  set (m1 := put_entries (zeros k k) (triu_indices k) v).
  assert (Hm1 : is_matrix k k m1)
    by apply is_matrix_put_entries, is_matrix_zeros.
  exists v, m1. repeat split; try (destruct Hm1; assumption).
  - intros pos i j x Hpos Hx. unfold m1.
    apply (entry_put_entries_written k k _ (NoDup_triu_indices k) _ v pos);
      auto using is_matrix_zeros.
    intros a b H. apply In_triu_indices in H. lia.
  - intros i j Hij. apply entry_put_entries_untouched.
    rewrite In_tril_indices. lia.
  - intros i j Hij.
    assert (Hin : In (i, j) (tril_indices k)) by (apply In_tril_indices; lia).
    apply In_nth_error in Hin. destruct Hin as [pos Hpos].
    apply (entry_put_entries_written k k _ (NoDup_tril_indices k) _ _ pos);
      auto.
    + intros a b H. apply In_tril_indices in H. lia.
    + rewrite nth_error_map, Hpos. reflexivity.
Qed.

(** The matrix assembled from the coefficient vector is symmetric, also
    when a single coefficient was broadcast to every position. *)
Theorem fill_sym_symmetric k vals m :
  fill_sym k vals = Some m -> symmetric m.
Proof.
  intros H. pose proof (fill_sym_shape _ _ _ H) as Hm.
  destruct (fill_sym_entries _ _ _ H) as (v & m1 & _ & _ & _ & Hup & Hlo).
  assert (G : forall i j, (j < i)%nat -> entry m i j = entry m j i).
  { intros i j Hij. destruct (Nat.lt_ge_cases i k) as [Hi|Hi].
    - rewrite Hlo by lia. rewrite Hup by lia. reflexivity.
    - rewrite !(entry_out_of_range k k) by auto. reflexivity. }
  intros i j. destruct (Nat.lt_trichotomy i j) as [Hlt|[->|Hgt]].
  - symmetry. now apply G.
  - reflexivity.
  - now apply G.
Qed.

Lemma fill_sym_symmetric_witness :
  fill_sym 2 [1; 2; 3] = Some [[1; 2]; [2; 3]] /\ symmetric [[1; 2]; [2; 3]].
Proof.
  split; [reflexivity|].
  apply (fill_sym_symmetric 2 [1; 2; 3]). reflexivity.
Defined.

(** Reading the upper triangle of the assembled matrix, as the
    replication does for its repaired matrices, returns the coefficient
    vector it was filled from. *)
Theorem triu_fill_sym k vals m :
  fill_sym k vals = Some m ->
  length vals = length (triu_indices k) ->
  triu m = vals.
Proof.
  intros H Hlen. pose proof (fill_sym_shape _ _ _ H) as Hm.
  destruct (fill_sym_entries _ _ _ H) as (v & m1 & Hv & _ & Hw & Hup & _).
  unfold np_broadcast_to in Hv. rewrite Hlen, Nat.eqb_refl in Hv.
  injection Hv as <-.
  unfold triu. destruct (Hm) as [-> _].
  apply nth_error_ext. intros pos. rewrite nth_error_map.
  destruct (nth_error (triu_indices k) pos) as [[i j]|] eqn:E; simpl.
  - assert (Hpos : (pos < length vals)%nat).
    { rewrite Hlen. apply nth_error_Some. rewrite E. discriminate. }
    destruct (nth_error vals pos) as [x|] eqn:Ex.
    + f_equal. rewrite Hup.
      * now apply (Hw pos).
      * apply nth_error_In in E. apply In_triu_indices in E. lia.
    + apply nth_error_None in Ex. lia.
  - symmetry. apply nth_error_None. apply nth_error_None in E. lia.
Qed.

Lemma triu_fill_sym_witness :
  fill_sym 2 [1; 2; 3] = Some [[1; 2]; [2; 3]] /\
  triu [[1; 2]; [2; 3]] = [1; 2; 3].
Proof.
  split; [reflexivity|].
  apply (triu_fill_sym 2 [1; 2; 3]); reflexivity.
Defined.

(** ** [scale]: the quantity under the square root *)

Lemma dsum_plus n (f g : nat -> nat -> R) :
  dsum n (fun a b => f a b + g a b) = dsum n f + dsum n g.
Proof.
  unfold dsum.
  rewrite (Rsum_ext _ (fun a => Rsum (map (fun b => f a b) (seq 0 n))
                                + Rsum (map (fun b => g a b) (seq 0 n))))
    by (intros; apply Rsum_plus).
  apply Rsum_plus.
Qed.

Lemma Rsum_scal_l {A : Type} (c : R) (f : A -> R) (l : list A) :
  Rsum (map (fun i => c * f i) l) = c * Rsum (map f l).
Proof. induction l as [|x l IH]; simpl; [|rewrite IH]; lra. Qed.

Lemma dsum_prod n (c : R) (x y : nat -> R) :
  dsum n (fun a b => c * (x a * y b))
  = c * (Rsum (map x (seq 0 n)) * Rsum (map y (seq 0 n))).
Proof.
  unfold dsum.
  rewrite (Rsum_ext _ (fun a => (c * Rsum (map y (seq 0 n))) * x a)).
  - rewrite Rsum_scal_l. ring.
  - intros a _.
    rewrite (Rsum_ext _ (fun b => (c * x a) * y b)) by (intros; ring).
    rewrite Rsum_scal_l. ring.
Qed.

Lemma dsum_zero n : dsum n (fun _ _ => 0) = 0.
Proof.
  unfold dsum. apply Rsum_map_zero. intros. now apply Rsum_map_zero.
Qed.

(** A quadratic form in a matrix of cross-products is a sum of squares. *)
Lemma dsum_gram {A : Type} n (v : nat -> R) (g : A -> nat -> R) (d : R)
    (x : list A) :
  dsum n (fun a b => v a * (Rsum (map (fun r => g r a * g r b) x) / d) * v b)
  = Rsum (map (fun r => Rsum (map (fun a => v a * g r a) (seq 0 n))
                        * Rsum (map (fun a => v a * g r a) (seq 0 n))) x) / d.
Proof.
  induction x as [|r x IH].
  - simpl. rewrite (dsum_ext n _ (fun _ _ => 0)).
    + rewrite dsum_zero. unfold Rdiv. ring.
    + intros. unfold Rdiv. ring.
  - rewrite (dsum_ext n _
               (fun a b => / d * ((v a * g r a) * (v b * g r b))
                           + v a * (Rsum (map (fun r => g r a * g r b) x) / d) * v b)).
    + rewrite dsum_plus, IH, dsum_prod. simpl. unfold Rdiv. ring.
    + intros. simpl. unfold Rdiv. ring.
Qed.

Lemma Rsum_nonneg {A : Type} (f : A -> R) (l : list A) :
  (forall i, In i l -> 0 <= f i) -> 0 <= Rsum (map f l).
Proof.
  intros H. induction l as [|x l IH]; simpl; [lra|].
  pose proof (H x (or_introl eq_refl)).
  assert (0 <= Rsum (map f l)) by (apply IH; intros; apply H; now right).
  lra.
Qed.

Lemma share_cov_form (data : matrix) (ind : list Z) p (v : nat -> R) :
  dsum p (fun a b => v a * share_cov data ind a b * v b)
  = Rsum (map (fun r =>
                 Rsum (map (fun a => v a * (nth a r 0 - share_mean data ind a))
                           (seq 0 p))
                 * Rsum (map (fun a => v a * (nth a r 0 - share_mean data ind a))
                             (seq 0 p)))
              (mask_rows ind data))
    / (INR (length (mask_rows ind data)) - 1).
Proof.
  pose proof (dsum_gram p v (fun r a => nth a r 0 - share_mean data ind a)
                (INR (length (mask_rows ind data)) - 1) (mask_rows ind data)) as E.
  cbv beta in E. unfold share_cov. exact E.
Qed.

(** The sample covariance of the shares is positive semi-definite. *)
Lemma share_cov_form_nonneg (data : matrix) (ind : list Z) p (v : nat -> R) :
  (2 <= length (mask_rows ind data))%nat ->
  0 <= dsum p (fun a b => v a * share_cov data ind a b * v b).
Proof.
  intros Hn. rewrite share_cov_form. unfold Rdiv.
  apply Rmult_le_pos.
  - apply Rsum_nonneg. intros r _. apply Rle_0_sqr.
  - left. apply Rinv_0_lt_compat.
    apply le_INR in Hn. simpl in Hn. lra.
Qed.

Lemma Rsum_app (l1 l2 : list R) : Rsum (l1 ++ l2) = Rsum l1 + Rsum l2.
Proof. induction l1 as [|x l1 IH]; simpl; [|rewrite IH]; lra. Qed.

Lemma dsum_pad n (f : nat -> nat -> R) :
  (forall a, f a n = 0) -> (forall b, f n b = 0) ->
  dsum (n + 1) f = dsum n f.
Proof.
  intros Hc Hr. unfold dsum. rewrite seq_app, map_app, Rsum_app. simpl.
  rewrite (Rsum_map_zero (fun b => f n b)) by (intros; apply Hr).
  rewrite (Rsum_ext _ (fun a => Rsum (map (fun b => f a b) (seq 0 n)))).
  - lra.
  - intros a _. rewrite map_app, Rsum_app. simpl. rewrite Hc. lra.
Qed.

Lemma scale_cov_form_nonneg k (c : matrix) (w : nat -> R) :
  is_matrix k k c -> psd c ->
  0 <= dsum (k + 1) (fun a b => w a * scale_cov c k a b * w b).
Proof.
  intros Hm Hpsd.
  rewrite dsum_pad.
  - destruct k as [|k'].
    + unfold dsum. simpl. lra.
    + set (k := S k') in *.
      pose proof (Hpsd (map w (seq 0 k))) as H.
      rewrite length_map, length_seq in H. destruct (Hm) as [Hl _].
      specialize (H (eq_sym Hl)).
      rewrite (quad_form_dsum k) in H;
        try (now rewrite length_map, length_seq); auto; [|unfold k; lia].
      erewrite dsum_ext; [exact H|].
      intros a b Ha Hb. cbv beta. rewrite !(nth_map_seq w k) by assumption.
      unfold scale_cov.
      destruct (Nat.ltb_spec a k); [|lia]. destruct (Nat.ltb_spec b k); [|lia].
      reflexivity.
  - intros a. unfold scale_cov. rewrite Nat.ltb_irrefl, andb_false_r. ring.
  - intros b. unfold scale_cov. rewrite Nat.ltb_irrefl. simpl. ring.
Qed.

(** When at least two observations are selected and the covariance matrix
    of every household type is positive semi-definite, as the repaired
    matrices are, the quantity under the square root is not negative:
    every value [scale] returns is a standard deviation, non-negative with
    the delta-method variance as its square. *)
Theorem scale_squares_to_variance (barten_df : list vec) (cov : list matrix)
    (data : matrix) (ind : list Z) ntype k n :
  is_matrix n (k + 1) data -> length ind = n ->
  (2 <= length (mask_rows ind data))%nat ->
  length barten_df = ntype -> Forall (fun b => length b = k) barten_df ->
  length cov = ntype -> Forall (is_matrix k k) cov -> Forall psd cov ->
  exists std,
    scale barten_df cov data ind ntype k = Some std /\
    forall i, (i < ntype)%nat ->
      0 <= nth i std 0 /\
      nth i std 0 * nth i std 0
      = dsum (k + 1) (fun a b =>
          scale_vec (nth i barten_df []) k a * share_cov data ind a b
          * scale_vec (nth i barten_df []) k b)
        + dsum (k + 1) (fun a b =>
            share_mean data ind a * scale_cov (nth i cov []) k a b
            * share_mean data ind b).
Proof.
  intros Hd Hind Hsel Hlb Hb Hlc Hc Hpsd.
  assert (Hn : (0 < n)%nat).
  { destruct n; [|lia]. destruct Hd as [Hl _].
    apply length_zero_iff_nil in Hl. subst data.
    unfold mask_rows in Hsel. rewrite combine_nil in Hsel. simpl in Hsel. lia. }
  rewrite (scale_spec barten_df cov data ind ntype k n) by assumption.
  eexists. split; [reflexivity|]. intros i Hi.
  rewrite (nth_map_seq _ ntype i) by assumption.
  match goal with |- 0 <= sqrt ?x /\ _ => assert (Hx : 0 <= x) end.
  { apply Rplus_le_le_0_compat.
    - now apply share_cov_form_nonneg.
    - rewrite Forall_forall in Hc, Hpsd.
      apply scale_cov_form_nonneg.
      + apply Hc. apply nth_In. lia.
      + apply Hpsd. apply nth_In. lia. }
  split; [apply sqrt_pos|]. now apply sqrt_sqrt.
Qed.

Lemma scale_squares_to_variance_witness :
  exists std,
    scale [[2]] [[[1]]] [[1; 2]; [3; 4]] [1; 1]%Z 1 1 = Some std /\
    0 <= nth 0 std 0.
Proof.
  destruct (scale_squares_to_variance [[2]] [[[1]]] [[1; 2]; [3; 4]] [1; 1]%Z 1 1 2)
    as (std & H1 & H2).
  - split; [reflexivity|]. repeat constructor.
  - reflexivity.
  - simpl. lia.
  - reflexivity.
  - repeat constructor.
  - reflexivity.
  - repeat constructor.
  - apply Forall_cons; [|apply Forall_nil]. intros u Hu.
    destruct u as [|a [|? ?]]; try discriminate.
    unfold quad_form, vecmat, dot. simpl. nra.
  - exists std. split; [exact H1|]. apply H2. lia.
Defined.

Lemma In_mask_rows {A : Type} (ind : list Z) (data : list A) r :
  In r (mask_rows ind data) -> In r data.
Proof.
  unfold mask_rows. intros H. apply in_map_iff in H.
  destruct H as ([z r'] & <- & H). apply filter_In in H. destruct H as [H _].
  eapply in_combine_r; eauto.
Qed.

Lemma Rsum_nth_seq (r : vec) :
  Rsum (map (fun a => nth a r 0) (seq 0 (length r))) = Rsum r.
Proof.
  rewrite (map_nth_seq (fun x => x) r 0). now rewrite map_id.
Qed.

(** When every selected row sums to one, so do the column means. *)
Lemma share_means_sum_to_one (data : matrix) (ind : list Z) p :
  Forall (fun r => length r = p /\ Rsum r = 1) data ->
  (1 <= length (mask_rows ind data))%nat ->
  Rsum (map (share_mean data ind) (seq 0 p)) = 1.
Proof.
  intros Hrows Hn. unfold share_mean, mean, col.
  set (sel := mask_rows ind data) in *.
  rewrite (Rsum_ext _ (fun a => / INR (length sel)
                                * Rsum (map (fun r => nth a r 0) sel)))
    by (intros; rewrite length_map; unfold Rdiv; ring).
  rewrite Rsum_scal_l, Rsum_swap.
  rewrite (Rsum_ext _ (fun _ => 1)).
  - rewrite Rsum_const. field. apply not_0_INR. lia.
  - intros r Hr. apply In_mask_rows in Hr. rewrite Forall_forall in Hrows.
    destruct (Hrows r Hr) as [<- Hs]. now rewrite Rsum_nth_seq.
Qed.

(** Budget shares add up to one, so a household type whose Barten scales
    are all one (no economies of scale in any good) gets no variance from
    the dispersion of the shares: its index has the standard deviation
    that the covariance of its Barten scales alone implies, and zero when
    that covariance is zero. *)
Theorem scale_without_economies (barten_df : list vec) (cov : list matrix)
    (data : matrix) (ind : list Z) ntype k n i :
  is_matrix n (k + 1) data -> length ind = n ->
  Forall (fun r => Rsum r = 1) data ->
  (2 <= length (mask_rows ind data))%nat ->
  length barten_df = ntype -> Forall (fun b => length b = k) barten_df ->
  length cov = ntype -> Forall (is_matrix k k) cov ->
  (i < ntype)%nat -> nth i barten_df [] = repeat 1 k ->
  exists std,
    scale barten_df cov data ind ntype k = Some std /\
    nth i std 0
    = sqrt (dsum (k + 1) (fun a b =>
              share_mean data ind a * scale_cov (nth i cov []) k a b
              * share_mean data ind b)) /\
    (nth i cov [] = zeros k k -> nth i std 0 = 0).
Proof.
  intros Hd Hind Hone Hsel Hlb Hb Hlc Hc Hi Hunit.
  assert (Hn : (0 < n)%nat).
  { destruct n; [|lia]. destruct Hd as [Hl _].
    apply length_zero_iff_nil in Hl. subst data.
    unfold mask_rows in Hsel. rewrite combine_nil in Hsel. simpl in Hsel. lia. }
  rewrite (scale_spec barten_df cov data ind ntype k n) by assumption.
  eexists. split; [reflexivity|].
  rewrite (nth_map_seq _ ntype i) by assumption.
  assert (Hrows : Forall (fun r => length r = (k + 1)%nat /\ Rsum r = 1) data).
  { destruct Hd as [_ Hr]. rewrite Forall_forall in *. auto. }
  assert (E : dsum (k + 1) (fun a b =>
                scale_vec (nth i barten_df []) k a * share_cov data ind a b
                * scale_vec (nth i barten_df []) k b) = 0).
  { rewrite (dsum_ext _ _ (fun a b => 1 * share_cov data ind a b * 1)).
    - rewrite (share_cov_form data ind (k + 1) (fun _ => 1)).
      rewrite Rsum_map_zero; [unfold Rdiv; ring|].
      intros r Hr.
      assert (Z0 : Rsum (map (fun a => 1 * (nth a r 0 - share_mean data ind a))
                             (seq 0 (k + 1))) = 0).
      { rewrite (Rsum_ext _ (fun a => 1 * nth a r 0
                                      + (-1) * share_mean data ind a))
          by (intros; ring).
        rewrite Rsum_linear.
        rewrite (share_means_sum_to_one data ind (k + 1)) by (auto; lia).
        apply In_mask_rows in Hr. rewrite Forall_forall in Hrows.
        destruct (Hrows r Hr) as [Hl Hs]. rewrite <- Hl, Rsum_nth_seq, Hs. ring. }
      rewrite Z0. ring.
    - intros a b Ha Hb'. rewrite Hunit. unfold scale_vec.
      destruct (Nat.ltb_spec a k); destruct (Nat.ltb_spec b k);
        rewrite ?(nth_indep (repeat 1 k) 0 1) by (rewrite repeat_length; lia);
        rewrite ?nth_repeat; reflexivity. }
  rewrite E, Rplus_0_l. split; [reflexivity|].
  intros Hz. rewrite Hz.
  rewrite (dsum_ext _ _ (fun _ _ => 0)).
  - rewrite dsum_zero. apply sqrt_0.
  - intros a b _ _. unfold scale_cov.
    destruct ((a <? k)%nat && (b <? k)%nat)%bool; [|ring].
    unfold entry, zeros.
    destruct (Nat.lt_ge_cases a k).
    + rewrite (nth_indep _ [] (repeat 0 k)) by now rewrite repeat_length.
      rewrite nth_repeat, nth_repeat. ring.
    + rewrite (nth_overflow (repeat _ _)) by now rewrite repeat_length.
      destruct b; simpl; ring.
Qed.

(** Two goods with shares (1/4, 3/4) and (1/2, 1/2); one household type
    with Barten scale one and no scale covariance. *)
Lemma scale_without_economies_witness :
  exists std,
    scale [[1]] [[[0]]] [[1 / 4; 3 / 4]; [1 / 2; 1 / 2]] [1; 1]%Z 1 1 = Some std /\
    nth 0 std 0 = 0.
Proof.
  destruct (scale_without_economies [[1]] [[[0]]]
              [[1 / 4; 3 / 4]; [1 / 2; 1 / 2]] [1; 1]%Z 1 1 2 0)
    as (std & H1 & _ & H3).
  - split; [reflexivity|]. repeat constructor.
  - reflexivity.
  - repeat constructor; simpl; lra.
  - simpl. lia.
  - reflexivity.
  - repeat constructor.
  - reflexivity.
  - repeat constructor.
  - lia.
  - reflexivity.
  - exists std. split; [exact H1|]. apply H3. reflexivity.
Defined.

(** ** Names: digits, prefixes and substrings *)

Open Scope string_scope.

Lemma digits_only_str n : digits_only (str n) = true.
Proof.
  unfold str. generalize (Nat.to_uint n). intros u.
  induction u; simpl; auto.
Qed.

Lemma has_char_str c n : is_digit c = false -> has_char c (str n) = false.
Proof. intros H. now apply has_char_uint. Qed.

Lemma str_inj a b : str a = str b -> a = b.
Proof.
  unfold str. intros H. apply Unsigned.to_uint_inj.
  assert (E : NilEmpty.uint_of_string (NilEmpty.string_of_uint (Nat.to_uint a))
              = NilEmpty.uint_of_string (NilEmpty.string_of_uint (Nat.to_uint b)))
    by now rewrite H.
  rewrite !NilEmpty.usu in E. now injection E.
Qed.

Lemma prefix_empty s : prefix "" s = true.
Proof. now destruct s. Qed.

Lemma prefix_cons c s1 s2 : prefix (String c s1) (String c s2) = prefix s1 s2.
Proof. simpl. destruct (ascii_dec c c); [reflexivity|congruence]. Qed.

Lemma prefix_app_same a b c : prefix (a ++ b) (a ++ c) = prefix b c.
Proof.
  induction a as [|x a IH]; [reflexivity|].
  cbn [append]. now rewrite prefix_cons.
Qed.

Lemma prefix_self_app pat b : prefix pat (pat ++ b) = true.
Proof.
  induction pat as [|x pat IH]; [apply prefix_empty|].
  cbn [append]. now rewrite prefix_cons.
Qed.

Lemma prefix_has_char c pat s :
  prefix pat s = true -> has_char c pat = true -> has_char c s = true.
Proof.
  revert s. induction pat as [|x pat IH]; intros s Hp Hc;
    [simpl in Hc; discriminate|].
  destruct s as [|y s]; [simpl in Hp; discriminate|]. simpl in Hp.
  destruct (ascii_dec x y) as [->|]; [|discriminate].
  cbn [has_char] in *. apply orb_true_iff in Hc. apply orb_true_iff.
  destruct Hc as [Hc|Hc]; [now left|right]. now apply IH.
Qed.

(** A pattern with a character that the string lacks does not occur. *)
Lemma str_contains_missing_char c s pat :
  has_char c pat = true -> has_char c s = false -> str_contains s pat = false.
Proof.
  intros Hp. induction s as [|a s IH]; intros Hs.
  - cbn [str_contains]. rewrite orb_false_r.
    destruct (prefix pat "") eqn:E; [|reflexivity].
    now rewrite (prefix_has_char c _ _ E Hp) in Hs.
  - cbn [str_contains].
    destruct (prefix pat (String a s)) eqn:E.
    + now rewrite (prefix_has_char c _ _ E Hp) in Hs.
    + cbn [has_char] in Hs. apply orb_false_iff in Hs. simpl. now apply IH.
Qed.

(** The text before the first possible start of the pattern is skipped. *)
Lemma str_contains_skip pre s c pat :
  has_char c pre = false ->
  str_contains (pre ++ s) (String c pat) = str_contains s (String c pat).
Proof.
  induction pre as [|a pre IH]; intros H; [reflexivity|].
  cbn [has_char] in H. apply orb_false_iff in H. destruct H as [Ha Hpre].
  cbn [append str_contains prefix].
  destruct (ascii_dec c a) as [->|_].
  - now rewrite Ascii.eqb_refl in Ha.
  - simpl. now apply IH.
Qed.

Lemma str_contains_prefix s pat :
  prefix pat s = true -> str_contains s pat = true.
Proof. intros H. destruct s; cbn [str_contains]; now rewrite H. Qed.

(** Two numbers written before one non-digit: one text is a prefix of the
    other only when the numbers are equal. *)
Lemma prefix_digits_sep d1 : forall d2 c r1 r2,
  digits_only d1 = true -> digits_only d2 = true -> is_digit c = false ->
  prefix (d1 ++ String c r1) (d2 ++ String c r2) = true -> d1 = d2.
Proof.
  induction d1 as [|x d1 IH]; intros [|y d2] c r1 r2 H1 H2 Hc Hp;
    cbn [append digits_only prefix] in *.
  - reflexivity.
  - apply andb_true_iff in H2. destruct H2 as [Hy _].
    destruct (ascii_dec c y) as [->|]; [congruence|discriminate].
  - apply andb_true_iff in H1. destruct H1 as [Hx _].
    destruct (ascii_dec x c) as [->|]; [congruence|discriminate].
  - apply andb_true_iff in H1. destruct H1 as [_ H1].
    apply andb_true_iff in H2. destruct H2 as [_ H2].
    destruct (ascii_dec x y) as [->|]; [|discriminate].
    f_equal. eapply IH; eauto.
Qed.

Lemma prefix_str_sep a b c r1 r2 :
  is_digit c = false ->
  prefix (str a ++ String c r1) (str b ++ String c r2)
  = ((a =? b)%nat && prefix r1 r2)%bool.
Proof.
  intros Hc. destruct (Nat.eqb_spec a b) as [->|Hne].
  - now rewrite prefix_app_same, prefix_cons.
  - simpl. destruct (prefix _ _) eqn:E; [|reflexivity].
    exfalso. apply Hne. apply str_inj.
    eapply prefix_digits_sep; eauto using digits_only_str.
Qed.

(** One-digit numbers: the text of one starts the text of the other only
    when they are equal. *)
Lemma prefix_str_one_digit a b rest :
  (1 <= a <= 9)%nat -> (1 <= b <= 9)%nat ->
  prefix (str a) (str b ++ rest) = (a =? b)%nat.
Proof.
  intros Ha Hb.
  assert (Ea : (a = 1 \/ a = 2 \/ a = 3 \/ a = 4 \/ a = 5 \/ a = 6 \/ a = 7
                \/ a = 8 \/ a = 9)%nat) by lia.
  assert (Eb : (b = 1 \/ b = 2 \/ b = 3 \/ b = 4 \/ b = 5 \/ b = 6 \/ b = 7
                \/ b = 8 \/ b = 9)%nat) by lia.
  clear Ha Hb.
  repeat (destruct Ea as [Ea|Ea]); repeat (destruct Eb as [Eb|Eb]); subst;
    unfold str; cbn; rewrite ?prefix_empty; reflexivity.
Qed.

Lemma append_empty_r s : s ++ "" = s.
Proof. induction s as [|a s IH]; cbn [append]; [reflexivity|now rewrite IH]. Qed.

Lemma filter_eqb_absent (l : list nat) s :
  ~ In s l -> filter (fun x => (x =? s)%nat) l = [].
Proof.
  induction l as [|x l IH]; simpl; intros H; auto.
  destruct (Nat.eqb_spec x s) as [->|_].
  - exfalso. apply H. now left.
  - apply IH. intro. apply H. now right.
Qed.

Lemma filter_eqb_NoDup (l : list nat) s :
  NoDup l -> In s l -> filter (fun x => (x =? s)%nat) l = [s].
Proof.
  induction 1 as [|x l Hx Hnd IH]; intros Hin; [destruct Hin|]. simpl.
  destruct (Nat.eqb_spec x s) as [->|Hne].
  - f_equal. now apply filter_eqb_absent.
  - destruct Hin as [E|Hin]; [congruence|]. now apply IH.
Qed.

Close Scope string_scope.

(** ** Positions of the coefficients picked by name *)

Lemma positions_from_nil p s : positions_from p s [] = [].
Proof. reflexivity. Qed.

Lemma positions_from_cons p s x l :
  positions_from p s (x :: l)
  = (if p x then [s] else []) ++ positions_from p (S s) l.
Proof. unfold positions_from. simpl. destruct (p x); reflexivity. Qed.

Lemma positions_from_app p l1 :
  forall s l2,
    positions_from p s (l1 ++ l2)
    = positions_from p s l1 ++ positions_from p (s + length l1) l2.
Proof.
  induction l1 as [|x l1 IH]; intros s l2.
  - simpl. now rewrite Nat.add_0_r.
  - simpl app. rewrite !positions_from_cons, IH, <- app_assoc. simpl length.
    now replace (S s + length l1)%nat with (s + S (length l1))%nat by lia.
Qed.

Lemma positions_from_none p l :
  forall s, (forall x, In x l -> p x = false) -> positions_from p s l = [].
Proof.
  induction l as [|x l IH]; intros s H; [reflexivity|].
  rewrite positions_from_cons, H by now left.
  simpl. apply IH. intros; apply H; now right.
Qed.

Lemma positions_from_all p l :
  forall s, (forall x, In x l -> p x = true) ->
            positions_from p s l = seq s (length l).
Proof.
  induction l as [|x l IH]; intros s H; [reflexivity|].
  rewrite positions_from_cons, H by now left.
  simpl. f_equal. apply IH. intros; apply H; now right.
Qed.

Lemma length_positions_from p l :
  forall s, length (positions_from p s l) = length (filter p l).
Proof.
  induction l as [|x l IH]; intros s; [reflexivity|].
  rewrite positions_from_cons, length_app, IH. simpl.
  destruct (p x); reflexivity.
Qed.

(** One name in a list of names made from [a, a + n) passes the test. *)
Lemma positions_from_map_seq p (f : nat -> string) t :
  forall n a s,
    (a <= t < a + n)%nat ->
    (forall j, (a <= j < a + n)%nat -> p (f j) = (j =? t)%nat) ->
    positions_from p s (map f (seq a n)) = [(s + (t - a))%nat].
Proof.
  induction n as [|n IH]; intros a s Ht Hp; [lia|].
  simpl. rewrite positions_from_cons, Hp by lia.
  destruct (Nat.eqb_spec a t) as [->|Hne].
  - rewrite positions_from_none.
    + simpl. f_equal. lia.
    + intros x Hx. apply in_map_iff in Hx. destruct Hx as (j & <- & Hj).
      apply in_seq in Hj. rewrite Hp by lia. apply Nat.eqb_neq. lia.
  - simpl. rewrite (IH (S a) (S s)) by (try lia; intros; apply Hp; lia).
    f_equal. lia.
Qed.

(** One element of a duplicate-free list of numbers passes the test. *)
Lemma positions_from_map_NoDup p (g : nat -> string) (l : list nat) :
  NoDup l ->
  forall i s,
    (i < length l)%nat ->
    (forall x, In x l -> p (g x) = (x =? nth i l 0)%nat) ->
    positions_from p s (map g l) = [(s + i)%nat].
Proof.
  induction 1 as [|x l Hx Hnd IH]; intros i s Hi Hp; [simpl in Hi; lia|].
  simpl map. rewrite positions_from_cons, Hp by now left.
  destruct i as [|i]; simpl nth.
  - rewrite Nat.eqb_refl, positions_from_none.
    + simpl. f_equal. lia.
    + intros y Hy. apply in_map_iff in Hy. destruct Hy as (z & <- & Hz).
      rewrite Hp by now right. simpl. apply Nat.eqb_neq. intros ->.
      contradiction.
  - simpl in Hi.
    assert (Hin : In (nth i l 0%nat) l) by (apply nth_In; lia).
    destruct (Nat.eqb_spec x (nth i l 0%nat)) as [E|_].
    + exfalso. apply Hx. now rewrite E.
    + simpl. rewrite (IH i (S s)) by (try lia; intros; apply Hp; now right).
      f_equal. lia.
Qed.

(** Blocks of one length with one passing name each, at one offset. *)
Lemma positions_from_concat_one p L i (blocks : list (list string)) :
  forall s,
    (forall b, In b blocks ->
       length b = L /\ forall s', positions_from p s' b = [(s' + i)%nat]) ->
    positions_from p s (concat blocks)
    = map (fun m => (s + m * L + i)%nat) (seq 0 (length blocks)).
Proof.
  induction blocks as [|b blocks IH]; intros s H; [reflexivity|].
  destruct (H b (or_introl eq_refl)) as [Hl Hb].
  simpl concat. rewrite positions_from_app, Hb, Hl.
  rewrite IH by (intros; apply H; now right).
  cbn [length seq map app]. rewrite <- seq_shift, map_map.
  f_equal; [lia|]. apply map_ext. intros m. lia.
Qed.

(** Blocks of one length of which block [i] passes as a whole and the
    others fail as a whole. *)
Lemma positions_from_concat_block p (f : nat -> list string) L i :
  forall n a s,
    (forall k, (a <= k < a + n)%nat -> length (f k) = L) ->
    (forall k x, (a <= k < a + n)%nat -> In x (f k) -> p x = (k =? i)%nat) ->
    positions_from p s (concat (map f (seq a n)))
    = if ((a <=? i)%nat && (i <? a + n)%nat)%bool
      then seq (s + (i - a) * L) L else [].
Proof.
  induction n as [|n IH]; intros a s Hl Hp.
  - simpl. destruct (Nat.leb_spec a i); destruct (Nat.ltb_spec i (a + 0));
      simpl; auto; lia.
  - simpl map. simpl concat. rewrite positions_from_app.
    rewrite (IH (S a) (s + length (f a))%nat)
      by (intros; (apply Hl || eapply Hp); eauto; lia).
    rewrite (Hl a) by lia.
    destruct (Nat.eq_dec a i) as [->|Hne].
    + rewrite positions_from_all
        by (intros x Hx; rewrite (Hp i x) by (auto; lia); apply Nat.eqb_refl).
      rewrite (Hl i) by lia.
      destruct (Nat.leb_spec (S i) i); [lia|]. cbn [andb].
      destruct (Nat.leb_spec i i); [|lia].
      destruct (Nat.ltb_spec i (i + S n)); [|lia]. cbn [andb].
      rewrite app_nil_r. f_equal. lia.
    + rewrite positions_from_none
        by (intros x Hx; rewrite (Hp a x) by (auto; lia); now apply Nat.eqb_neq).
      cbn [app].
      destruct (Nat.leb_spec (S a) i); destruct (Nat.ltb_spec i (S a + n));
        destruct (Nat.leb_spec a i); destruct (Nat.ltb_spec i (a + S n));
        cbn [andb]; try lia; auto.
      f_equal. replace (i - a)%nat with (S (i - S a)) by lia. simpl. lia.
Qed.

Lemma nth_concat_blocks {A : Type} (f : nat -> list A) L d :
  forall n a k j,
    (forall m, (a <= m < a + n)%nat -> length (f m) = L) ->
    (k < n)%nat -> (j < L)%nat ->
    nth (k * L + j) (concat (map f (seq a n))) d = nth j (f (a + k)%nat) d.
Proof.
  induction n as [|n IH]; intros a k j Hl Hk Hj; [lia|].
  simpl map. simpl concat. destruct k as [|k].
  - simpl. rewrite app_nth1 by (rewrite Hl; lia). now rewrite Nat.add_0_r.
  - rewrite app_nth2 by (rewrite Hl; [simpl|]; lia).
    rewrite (Hl a) by lia.
    replace (S k * L + j - L)%nat with (k * L + j)%nat by (simpl; lia).
    rewrite (IH (S a) k j) by (try lia; intros; apply Hl; lia).
    f_equal. f_equal. lia.
Qed.

Lemma length_concat_blocks {A : Type} (f : nat -> list A) L :
  forall n a,
    (forall m, (a <= m < a + n)%nat -> length (f m) = L) ->
    length (concat (map f (seq a n))) = (n * L)%nat.
Proof.
  induction n as [|n IH]; intros a Hl; [reflexivity|].
  simpl. rewrite length_app, Hl by lia.
  rewrite IH by (intros; apply Hl; lia). reflexivity.
Qed.

Lemma combine_seq_map_nth {A B : Type} (g : A -> B) (l : list A) d :
  forall s,
    combine (seq s (length l)) (map g l)
    = map (fun k => (k, g (nth (k - s) l d))) (seq s (length l)).
Proof.
  induction l as [|x l IH]; intros s; [reflexivity|].
  simpl. rewrite Nat.sub_diag. f_equal. rewrite IH.
  apply map_ext_in. intros k Hk. apply in_seq in Hk.
  replace (k - s)%nat with (S (k - S s)) by lia. reflexivity.
Qed.

Lemma SUR_param_names_mean cfg :
  SUR_param_names (mean_eqs cfg)
  = concat (map (eq_names cfg) (seq 0 (length (SHAREABLE cfg)))).
Proof.
  unfold SUR_param_names, mean_eqs. rewrite length_map.
  rewrite (combine_seq_map_nth (mean_exog cfg) (SHAREABLE cfg) 0%nat 0%nat).
  rewrite map_map. f_equal. apply map_ext. intros k. simpl.
  now rewrite Nat.sub_0_r.
Qed.

Lemma map_nth_range (vals : vec) s L :
  (s + L <= length vals)%nat ->
  map (fun k => nth k vals 0) (seq s L) = firstn L (skipn s vals).
Proof.
  intros H. apply (nth_ext _ _ 0 0).
  - rewrite length_map, length_seq, length_firstn, length_skipn. lia.
  - rewrite length_map, length_seq. intros j Hj.
    rewrite (nth_indep _ 0 (nth 0 vals 0)) by now rewrite length_map, length_seq.
    rewrite (map_nth (fun k => nth k vals 0) (seq s L) 0%nat j).
    rewrite seq_nth by assumption.
    rewrite nth_firstn. destruct (Nat.ltb_spec j L); [|lia].
    now rewrite nth_skipn.
Qed.

(** ** The coefficient names of the mean stage *)

Open Scope string_scope.

Ltac no_char :=
  repeat (cbn [has_char append]; rewrite ?has_char_app);
  repeat (rewrite has_char_str by reflexivity);
  repeat match goal with H : has_char _ _ = false |- _ => rewrite H end;
  reflexivity.

Lemma has_char_NAME_h cfg c tt :
  In tt (NAME_h cfg) -> is_digit c = false -> Ascii.eqb "h" c = false ->
  has_char c tt = false.
Proof.
  unfold NAME_h. intros H Hd Hh. apply in_map_iff in H.
  destruct H as (j & <- & _). cbn [append has_char].
  now rewrite Hh, has_char_str.
Qed.

Lemma has_char_NAME_t_single cfg c tt :
  In tt (NAME_t_single cfg) -> is_digit c = false ->
  Ascii.eqb "h" c = false -> Ascii.eqb "s" c = false ->
  has_char c tt = false.
Proof.
  unfold NAME_t_single. intros [<-|H] Hd Hh Hs.
  - cbn [has_char]. now rewrite Hs.
  - now apply (has_char_NAME_h cfg).
Qed.

Lemma has_char_NAME_t cfg c tt :
  In tt (NAME_t cfg) -> is_digit c = false ->
  Ascii.eqb "h" c = false -> Ascii.eqb "s" c = false ->
  Ascii.eqb "m" c = false -> Ascii.eqb "f" c = false ->
  has_char c tt = false.
Proof.
  unfold NAME_t. intros [<-|[<-|H]] Hd Hh Hs Hm Hf.
  - cbn [has_char]. now rewrite Hs, Hm.
  - cbn [has_char]. now rewrite Hs, Hf.
  - now apply (has_char_NAME_h cfg).
Qed.

(** [f"er{s}y_" in col] for a column of a good [s']: the goods agree. *)
Lemma ery_name_test s s' tt :
  has_char "e" tt = false ->
  str_contains ("er" ++ str s' ++ "y_" ++ tt) ("er" ++ str s ++ "y_")
  = (s' =? s)%nat.
Proof.
  intros Hc. cbn [append str_contains].
  rewrite (str_contains_no_char _ "e") by no_char.
  rewrite orb_false_r, !prefix_cons.
  rewrite (prefix_str_sep s s' "y") by reflexivity.
  rewrite prefix_cons, prefix_empty, andb_true_r. apply Nat.eqb_sym.
Qed.

Lemma filter_map_comm {A B : Type} (p : B -> bool) (g : A -> B) (l : list A) :
  filter p (map g l) = map g (filter (fun x => p (g x)) l).
Proof.
  induction l as [|x l IH]; simpl; auto.
  destruct (p (g x)); simpl; now rewrite IH.
Qed.

(** The regressors of the mean equation of a good: its [ery] term under
    each single-type indicator, then the demographic terms. *)
Lemma mean_exog_names cfg s :
  NoDup (SHAREABLE cfg) -> In s (SHAREABLE cfg) ->
  mean_exog cfg s
  = (map (fun tt => ("er" ++ str s ++ "y_" ++ tt)%string) (NAME_t_single cfg)
     ++ NAME_zt cfg)%list.
Proof.
  intros Hnd Hin. unfold mean_exog. f_equal. unfold NAME_eryt.
  assert (G : forall ts,
            (forall tt, In tt ts -> has_char "e" tt = false) ->
            filter (fun c => str_contains c ("er" ++ str s ++ "y_"))
              (flat_map (fun tt => map (fun s0 => "er" ++ str s0 ++ "y_" ++ tt)
                                       (SHAREABLE cfg)) ts)
            = map (fun tt => "er" ++ str s ++ "y_" ++ tt) ts).
  { induction ts as [|tt ts IH]; intros H; [reflexivity|].
    cbn [flat_map map]. rewrite filter_app, IH by (intros; apply H; now right).
    rewrite filter_map_comm.
    rewrite (filter_ext _ (fun x => (x =? s)%nat))
      by (intros x; apply ery_name_test; apply H; now left).
    now rewrite filter_eqb_NoDup. }
  apply G. intros tt Htt. now apply (has_char_NAME_t_single cfg).
Qed.

Lemma length_NAME_zt cfg :
  length (NAME_zt cfg) = ((2 + length (TYPE cfg)) * length (DEMOG cfg))%nat.
Proof.
  unfold NAME_zt.
  rewrite (length_flat_map_const _ _ (length (DEMOG cfg)))
    by (intros; apply length_map).
  unfold NAME_t, NAME_h. rewrite length_app, length_map, length_seq.
  reflexivity.
Qed.

(** The coefficient names of one mean equation, in order. *)
Lemma eq_names_layout cfg k :
  NoDup (SHAREABLE cfg) -> (k < length (SHAREABLE cfg))%nat ->
  eq_names cfg k
  = (single_coef_name cfg k
     :: map (fun t => type_coef_name cfg t k) (seq 0 (length (TYPE cfg)))
     ++ map (fun c => ("eq" ++ str (k + 1) ++ "_" ++ c)%string)
            (NAME_zt cfg))%list.
Proof.
  intros Hnd Hk. unfold eq_names.
  rewrite mean_exog_names by (auto; apply nth_In; assumption).
  unfold NAME_t_single, NAME_h. cbn [app map].
  rewrite map_app, !map_map. reflexivity.
Qed.

Lemma length_eq_names cfg k :
  NoDup (SHAREABLE cfg) -> (k < length (SHAREABLE cfg))%nat ->
  length (eq_names cfg k) = mean_block cfg.
Proof.
  intros Hnd Hk. rewrite eq_names_layout by assumption.
  cbn [length]. rewrite length_app, !length_map, length_seq, length_NAME_zt.
  reflexivity.
Qed.

Lemma single_name_tests cfg k :
  str_contains (single_coef_name cfg k) "s" = true /\
  str_contains (single_coef_name cfg k) "z" = false /\
  str_contains (single_coef_name cfg k) "y_s" = true /\
  (forall t, str_contains (single_coef_name cfg k) ("h" ++ str (t + 1)) = false).
Proof.
  unfold single_coef_name. repeat split.
  - repeat apply str_contains_app_r. reflexivity.
  - apply str_contains_no_char. no_char.
  - repeat apply str_contains_app_r. reflexivity.
  - intros t. cbn [append]. apply str_contains_no_char. no_char.
Qed.

Lemma type_name_tests cfg j k :
  str_contains (type_coef_name cfg j k) "s" = false /\
  str_contains (type_coef_name cfg j k) "z" = false /\
  str_contains (type_coef_name cfg j k) "y_s" = false /\
  (forall t, str_contains (type_coef_name cfg j k) ("h" ++ str (t + 1))
             = prefix (str (t + 1)) (str (j + 1))).
Proof.
  unfold type_coef_name. repeat split.
  - apply str_contains_no_char. no_char.
  - apply str_contains_no_char. no_char.
  - apply (str_contains_missing_char "s"); [reflexivity|no_char].
  - intros t.
    change ("h" ++ str (t + 1)) with (String "h" (str (t + 1))).
    change ("y_h" ++ str (j + 1)) with ("y_" ++ String "h" (str (j + 1))).
    do 5 (rewrite str_contains_skip by no_char).
    cbn [str_contains]. rewrite prefix_cons.
    rewrite (str_contains_no_char (str (j + 1)) "h") by no_char.
    apply orb_false_r.
Qed.

Lemma zt_name_tests cfg k c :
  In c (NAME_zt cfg) ->
  str_contains ("eq" ++ str (k + 1) ++ "_" ++ c) "z" = true /\
  str_contains ("eq" ++ str (k + 1) ++ "_" ++ c) "y_s" = false.
Proof.
  unfold NAME_zt. intros H. apply in_flat_map in H.
  destruct H as (tt & Htt & H). apply in_map_iff in H. destruct H as (d & <- & _).
  split.
  - do 3 apply str_contains_app_r. apply str_contains_prefix.
    cbn [append]. rewrite prefix_cons. apply prefix_empty.
  - apply (str_contains_missing_char "y"); [reflexivity|].
    assert (Hy : has_char "y" tt = false)
      by (apply (has_char_NAME_t cfg); auto).
    no_char.
Qed.

(** In the names of one mean equation the single-baseline test of
    [barten_results] picks the first. *)
Lemma block_positions_single cfg k s0 :
  NoDup (SHAREABLE cfg) -> (k < length (SHAREABLE cfg))%nat ->
  positions_from (fun n => str_contains n "s" && negb (str_contains n "z"))%bool
    s0 (eq_names cfg k)
  = [(s0 + 0)%nat].
Proof.
  intros Hnd Hk. rewrite eq_names_layout by assumption.
  rewrite positions_from_cons.
  destruct (single_name_tests cfg k) as (-> & -> & _). cbn [andb negb].
  rewrite positions_from_none; [now rewrite Nat.add_0_r|].
  intros x Hx. apply in_app_or in Hx. destruct Hx as [Hx|Hx].
  - apply in_map_iff in Hx. destruct Hx as (j & <- & _).
    destruct (type_name_tests cfg j k) as (-> & _). reflexivity.
  - apply in_map_iff in Hx. destruct Hx as (c & <- & Hc).
    destruct (zt_name_tests cfg k c Hc) as (-> & _). apply andb_false_r.
Qed.

(** [filter(like='y_s')] picks the same coefficient. *)
Lemma block_positions_like cfg k s0 :
  NoDup (SHAREABLE cfg) -> (k < length (SHAREABLE cfg))%nat ->
  positions_from (fun n => str_contains n "y_s") s0 (eq_names cfg k)
  = [(s0 + 0)%nat].
Proof.
  intros Hnd Hk. rewrite eq_names_layout by assumption.
  rewrite positions_from_cons.
  destruct (single_name_tests cfg k) as (_ & _ & -> & _).
  rewrite positions_from_none; [now rewrite Nat.add_0_r|].
  intros x Hx. apply in_app_or in Hx. destruct Hx as [Hx|Hx].
  - apply in_map_iff in Hx. destruct Hx as (j & <- & _).
    now destruct (type_name_tests cfg j k) as (_ & _ & -> & _).
  - apply in_map_iff in Hx. destruct Hx as (c & <- & Hc).
    now destruct (zt_name_tests cfg k c Hc) as (_ & ->).
Qed.

(** With at most nine household types the test for type [t] picks the
    coefficient after the single baseline and the earlier types. *)
Lemma block_positions_type cfg k t s0 :
  NoDup (SHAREABLE cfg) -> (k < length (SHAREABLE cfg))%nat ->
  (length (TYPE cfg) <= 9)%nat -> (t < length (TYPE cfg))%nat ->
  positions_from
    (fun n => str_contains n ("h" ++ str (t + 1)) && negb (str_contains n "z"))%bool
    s0 (eq_names cfg k)
  = [(s0 + (1 + t))%nat].
Proof.
  intros Hnd Hk HT Ht. rewrite eq_names_layout by assumption.
  rewrite positions_from_cons.
  destruct (single_name_tests cfg k) as (_ & _ & _ & Hh). rewrite Hh.
  cbn [andb app]. rewrite positions_from_app.
  rewrite (positions_from_map_seq _ _ t).
  - rewrite positions_from_none; [cbn [app]; f_equal; lia|].
    intros x Hx. apply in_map_iff in Hx. destruct Hx as (c & <- & Hc).
    destruct (zt_name_tests cfg k c Hc) as (-> & _). apply andb_false_r.
  - lia.
  - intros j Hj.
    destruct (type_name_tests cfg j k) as (_ & -> & _ & Hp). rewrite Hp.
    cbn [negb]. rewrite andb_true_r.
    rewrite <- (append_empty_r (str (j + 1))).
    rewrite prefix_str_one_digit by lia.
    destruct (Nat.eqb_spec (t + 1) (j + 1)); destruct (Nat.eqb_spec j t);
      auto; lia.
Qed.
Close Scope string_scope.

(** ** Coefficients of the mean stage by name and by position *)

Open Scope string_scope.

Lemma length_mean_names cfg :
  NoDup (SHAREABLE cfg) ->
  length (SUR_param_names (mean_eqs cfg))
  = (length (SHAREABLE cfg) * mean_block cfg)%nat.
Proof.
  intros Hnd. rewrite SUR_param_names_mean.
  apply length_concat_blocks. intros k Hk. apply length_eq_names; auto. lia.
Qed.

Lemma mean_names_positions cfg p i :
  NoDup (SHAREABLE cfg) ->
  (forall k s0, (k < length (SHAREABLE cfg))%nat ->
     positions_from p s0 (eq_names cfg k) = [(s0 + i)%nat]) ->
  positions_where p (SUR_param_names (mean_eqs cfg))
  = map (fun k => (k * mean_block cfg + i)%nat)
        (seq 0 (length (SHAREABLE cfg))).
Proof.
  intros Hnd Hp. rewrite SUR_param_names_mean.
  change (positions_where p ?x) with (positions_from p 0 x).
  rewrite (positions_from_concat_one p (mean_block cfg) i).
  - rewrite length_map, length_seq. apply map_ext. intros m. lia.
  - intros b Hb. apply in_map_iff in Hb. destruct Hb as (k & <- & Hk).
    apply in_seq in Hk. split.
    + apply length_eq_names; auto. lia.
    + intros s'. apply Hp. lia.
Qed.

Lemma mean_names_values cfg p i (vals : vec) :
  NoDup (SHAREABLE cfg) ->
  length vals = (length (SHAREABLE cfg) * mean_block cfg)%nat ->
  (forall k s0, (k < length (SHAREABLE cfg))%nat ->
     positions_from p s0 (eq_names cfg k) = [(s0 + i)%nat]) ->
  map snd (params_where p (combine (SUR_param_names (mean_eqs cfg)) vals))
  = map (fun k => nth (k * mean_block cfg + i) vals 0)
        (seq 0 (length (SHAREABLE cfg))).
Proof.
  intros Hnd Hlen Hp.
  rewrite params_where_positions by now rewrite length_mean_names.
  rewrite (mean_names_positions cfg p i) by assumption.
  now rewrite map_map.
Qed.

Lemma vdiv_map {A : Type} (f g : A -> R) (l : list A) :
  vdiv (map f l) (map g l) = map (fun x => f x / g x) l.
Proof.
  unfold vdiv. induction l as [|x l IH]; simpl; auto. now rewrite IH.
Qed.

(** For any configuration with at most nine household types and no
    repeated shareable good, and for any coefficient values of the fitted
    mean equations: equation [k] contributes [mean_block] coefficients,
    the first of which is the single-baseline [ery] coefficient and the
    next ones the [ery] coefficients of the household types, and
    [barten_results] returns for type [t] and good [k] the ratio of the
    type-[t] coefficient to the single-baseline coefficient of equation
    [k]. *)
Theorem barten_results_by_position cfg (vals : vec) :
  NoDup (SHAREABLE cfg) -> (length (TYPE cfg) <= 9)%nat ->
  length vals = (length (SHAREABLE cfg) * mean_block cfg)%nat ->
  let names := SUR_param_names (mean_eqs cfg) in
  let K := length (SHAREABLE cfg) in
  let T := length (TYPE cfg) in
  let L := mean_block cfg in
  length names = length vals /\
  (forall k, (k < K)%nat ->
     nth (k * L + 0) names "" = single_coef_name cfg k /\
     forall t, (t < T)%nat ->
       nth (k * L + (1 + t)) names "" = type_coef_name cfg t k) /\
  barten_results (combine names vals) T K
  = Some (map (fun t =>
            map (fun k => nth (k * L + (1 + t)) vals 0 / nth (k * L + 0) vals 0)
                (seq 0 K))
          (seq 0 T)).
Proof.
  intros Hnd HT Hlen names K T L.
  split; [unfold names; now rewrite length_mean_names|]. split.
  - intros k Hk. unfold names. rewrite SUR_param_names_mean.
    assert (Hl : forall m, (0 <= m < 0 + K)%nat -> length (eq_names cfg m) = L)
      by (intros; apply length_eq_names; auto; lia).
    assert (HL : (T < L)%nat) by (unfold L, mean_block; fold T; lia).
    split.
    + rewrite (nth_concat_blocks (eq_names cfg) L) by (auto; lia).
      now rewrite eq_names_layout.
    + intros t Ht.
      rewrite (nth_concat_blocks (eq_names cfg) L) by (auto; lia).
      rewrite eq_names_layout by assumption. cbn [nth Nat.add].
      rewrite app_nth1 by (rewrite length_map, length_seq; exact Ht).
      apply (nth_map_seq (fun t => type_coef_name cfg t k)). exact Ht.
  - set (b_s := map (fun k => nth (k * L + 0) vals 0) (seq 0 K)).
    set (b_h := fun t => map (fun k => nth (k * L + (1 + t)) vals 0) (seq 0 K)).
    assert (Hs : map snd (params_where
                   (fun n => str_contains n "s" && negb (str_contains n "z"))%bool
                   (combine names vals)) = b_s).
    { apply mean_names_values; auto.
      intros k s0 Hk. now apply block_positions_single. }
    assert (Hh : forall t, (t < T)%nat ->
              map snd (params_where
                 (fun n => str_contains n ("h" ++ str (t + 1))
                           && negb (str_contains n "z"))%bool
                 (combine names vals)) = b_h t).
    { intros t Ht. apply mean_names_values; auto.
      intros k s0 Hk. now apply block_positions_type. }
    assert (G : forall ts, (forall t, In t ts -> (t < T)%nat) ->
              barten_columns (combine names vals) K ts
              = Some (map (fun t => vdiv (b_h t) b_s) ts)).
    { induction ts as [|t ts IH]; intros Hts; [reflexivity|].
      cbn [barten_columns map]. rewrite Hs, (Hh t) by (apply Hts; now left).
      destruct (barten_equal_lengths b_s (b_h t) K) as [-> Hl];
        try (unfold b_s, b_h; now rewrite length_map, length_seq).
      rewrite IH by (intros; apply Hts; now right).
      now rewrite Hl, Nat.eqb_refl. }
    unfold barten_results. rewrite G by (intros t Ht; apply in_seq in Ht; lia).
    f_equal. apply map_ext. intros t. unfold b_h, b_s. apply vdiv_map.
Qed.

(** Two goods 3 and 11, one household type, no demographic variable:
    the coefficient values (2, 6) of the first and (4, 2) of the second
    equation give the scales 6/2 and 2/4. *)
Lemma barten_results_by_position_witness :
  barten_results
    (combine (SUR_param_names
                (mean_eqs {| TYPE := [24]; SHAREABLE := [3; 11];
                             NONSHAREABLE := 6; DEMOG := [] |}%nat))
             [2; 6; 4; 2]) 1 2
  = Some [[6 / 2; 2 / 4]].
Proof.
  destruct (barten_results_by_position
              {| TYPE := [24]; SHAREABLE := [3; 11];
                 NONSHAREABLE := 6; DEMOG := [] |}%nat [2; 6; 4; 2])
    as (_ & _ & H).
  - repeat constructor; simpl; intuition discriminate.
  - simpl. lia.
  - reflexivity.
  - exact H.
Defined.
Close Scope string_scope.

Open Scope string_scope.

(** The mean equation of good [i] chooses its [ery] regressors by name,
    [f"er{SHAREABLE[i]}y_" in col]; the residual stage takes the columns
    [np.arange(i, len(NAME_eryt), len(SHAREABLE))] by position.  When no
    shareable good is listed twice the two choices are the same columns of
    [NAME_eryt], in the same order: the [ery] term of the good under the
    singles and under each household type. *)
Theorem mean_regressors_by_position cfg i :
  NoDup (SHAREABLE cfg) -> (i < length (SHAREABLE cfg))%nat ->
  let s := nth i (SHAREABLE cfg) 0%nat in
  positions_where (fun c => str_contains c ("er" ++ str s ++ "y_"))
                  (NAME_eryt cfg)
  = np_arange i (length (NAME_eryt cfg)) (length (SHAREABLE cfg)) /\
  filter (fun c => str_contains c ("er" ++ str s ++ "y_")) (NAME_eryt cfg)
  = map (fun tt => "er" ++ str s ++ "y_" ++ tt) (NAME_t_single cfg).
Proof.
  intros Hnd Hi s. split.
  - rewrite length_NAME_eryt, np_arange_columns by assumption.
    unfold NAME_eryt. rewrite flat_map_concat_map.
    change (positions_where ?p ?x) with (positions_from p 0 x).
    rewrite (positions_from_concat_one _ (length (SHAREABLE cfg)) i).
    + rewrite length_map. unfold NAME_t_single, NAME_h.
      cbn [app length]. rewrite length_map, length_seq.
      apply map_ext. intros m. lia.
    + intros b Hb. apply in_map_iff in Hb. destruct Hb as (tt & <- & Htt).
      split; [apply length_map|]. intros s'.
      apply (positions_from_map_NoDup _
               (fun s0 => "er" ++ str s0 ++ "y_" ++ tt)); auto.
      intros x _. apply ery_name_test.
      now apply (has_char_NAME_t_single cfg).
  - pose proof (mean_exog_names cfg s Hnd (nth_In _ _ Hi)) as E.
    unfold mean_exog in E. now apply app_inv_tail in E.
Qed.

(** In the configuration of the program the second good (good 2) has
    its regressors in columns 1, 6, 11 and 16. *)
Lemma mean_regressors_by_position_witness :
  positions_where (fun c => str_contains c ("er" ++ str 2 ++ "y_"))
                  (NAME_eryt reference)
  = np_arange 1 (length (NAME_eryt reference)) 5.
Proof.
  destruct (mean_regressors_by_position reference 1) as [H _].
  - repeat constructor; simpl; intuition discriminate.
  - simpl. lia.
  - exact H.
Defined.

Lemma has_char_q_mean_exog cfg s c :
  In c (mean_exog cfg s) -> has_char "q" c = false.
Proof.
  unfold mean_exog. intros H. apply in_app_or in H. destruct H as [H|H].
  - apply filter_In in H. destruct H as [H _]. unfold NAME_eryt in H.
    apply in_flat_map in H. destruct H as (tt & Htt & H).
    apply in_map_iff in H. destruct H as (s0 & <- & _).
    assert (Hq : has_char "q" tt = false)
      by (apply (has_char_NAME_t_single cfg); auto).
    no_char.
  - unfold NAME_zt in H. apply in_flat_map in H. destruct H as (tt & Htt & H).
    apply in_map_iff in H. destruct H as (d & <- & _).
    assert (Hq : has_char "q" tt = false)
      by (apply (has_char_NAME_t cfg); auto).
    no_char.
Qed.

(** [filter(like=f'eq{i+1}')] on a coefficient of equation [k], for at
    most nine equations. *)
Lemma eq_label_test k i c :
  (k < 9)%nat -> (i < 9)%nat -> has_char "q" c = false ->
  str_contains ("eq" ++ str (k + 1) ++ "_" ++ c) ("eq" ++ str (i + 1))
  = (k =? i)%nat.
Proof.
  intros Hk Hi Hc. cbn [append].
  change (str_contains (String "e" (String "q" (str (k + 1) ++ String "_" c)))
                       (String "e" (String "q" (str (i + 1)))))
    with (prefix (String "e" (String "q" (str (i + 1))))
                 (String "e" (String "q" (str (k + 1) ++ String "_" c)))
          || (prefix (String "e" (String "q" (str (i + 1))))
                     (String "q" (str (k + 1) ++ String "_" c))
              || str_contains (str (k + 1) ++ String "_" c)
                              (String "e" (String "q" (str (i + 1)))))).
  rewrite (str_contains_missing_char "q") by (try reflexivity; no_char).
  rewrite !prefix_cons.
  replace (prefix (String "e" (String "q" (str (i + 1))))
                  (String "q" (str (k + 1) ++ String "_" c))) with false
    by (simpl; reflexivity).
  rewrite !orb_false_r.
  rewrite prefix_str_one_digit by lia.
  destruct (Nat.eqb_spec (i + 1) (k + 1)); destruct (Nat.eqb_spec k i);
    auto; lia.
Qed.

(** With at most nine shareable goods, [filter(like=f'eq{i+1}')] returns
    the coefficients of equation [i] and no other: the block of
    [mean_block] values that belongs to it, which is as long as the row of
    regressors it is multiplied with. *)
Theorem eq_params_block cfg (vals : vec) i :
  NoDup (SHAREABLE cfg) -> (length (SHAREABLE cfg) <= 9)%nat ->
  (i < length (SHAREABLE cfg))%nat ->
  length vals = (length (SHAREABLE cfg) * mean_block cfg)%nat ->
  eq_params (combine (SUR_param_names (mean_eqs cfg)) vals) i
  = firstn (mean_block cfg) (skipn (i * mean_block cfg) vals) /\
  length (eq_params (combine (SUR_param_names (mean_eqs cfg)) vals) i)
  = mean_block cfg.
Proof.
  intros Hnd HK Hi Hlen.
  assert (E : eq_params (combine (SUR_param_names (mean_eqs cfg)) vals) i
              = firstn (mean_block cfg) (skipn (i * mean_block cfg) vals)).
  { unfold eq_params.
    rewrite params_where_positions by now rewrite length_mean_names.
    rewrite SUR_param_names_mean.
    change (positions_where ?p ?x) with (positions_from p 0 x).
    rewrite (positions_from_concat_block _ (eq_names cfg) (mean_block cfg) i).
    - destruct (Nat.leb_spec 0 i); [|lia].
      destruct (Nat.ltb_spec i (0 + length (SHAREABLE cfg))); [|lia].
      cbn [andb]. rewrite Nat.sub_0_r. apply map_nth_range.
      rewrite Hlen. simpl. nia.
    - intros k Hk. apply length_eq_names; auto. lia.
    - intros k x Hk Hx. unfold eq_names in Hx. apply in_map_iff in Hx.
      destruct Hx as (c & <- & Hc).
      apply eq_label_test; try lia.
      exact (has_char_q_mean_exog cfg _ c Hc). }
  split; [exact E|].
  rewrite E, length_firstn, length_skipn, Hlen. nia.
Qed.

Lemma eq_params_block_witness :
  eq_params
    (combine (SUR_param_names
                (mean_eqs {| TYPE := [24]; SHAREABLE := [3; 11];
                             NONSHAREABLE := 6; DEMOG := [] |}%nat))
             [2; 6; 4; 2]) 1
  = [4; 2].
Proof.
  destruct (eq_params_block
              {| TYPE := [24]; SHAREABLE := [3; 11];
                 NONSHAREABLE := 6; DEMOG := [] |}%nat [2; 6; 4; 2] 1)
    as [H _].
  - repeat constructor; simpl; intuition discriminate.
  - simpl. lia.
  - simpl. lia.
  - reflexivity.
  - exact H.
Defined.

(** The coefficients that [bery] multiplies into [ery] are the
    single-baseline [ery] coefficients, one per mean equation and in the
    order of the goods, the same that [barten_results] divides by; the row
    of [bery] of an observation is its [er * y] times the coefficient of
    each good. *)
Theorem bery_uses_single_baseline cfg (vals : vec) (o : design) :
  NoDup (SHAREABLE cfg) ->
  length vals = (length (SHAREABLE cfg) * mean_block cfg)%nat ->
  length (er_of o) = length (SHAREABLE cfg) ->
  let params := combine (SUR_param_names (mean_eqs cfg)) vals in
  bery_params params
  = map (fun k => nth (k * mean_block cfg + 0) vals 0)
        (seq 0 (length (SHAREABLE cfg))) /\
  bery_params params
  = map snd (params_where
               (fun n => str_contains n "s" && negb (str_contains n "z"))%bool
               params) /\
  bery_row params o
  = Some (map (fun k => nth k (er_of o) 0 * y_of o
                        * nth (k * mean_block cfg + 0) vals 0)
              (seq 0 (length (SHAREABLE cfg)))).
Proof.
  intros Hnd Hlen Her params.
  assert (E1 : bery_params params
               = map (fun k => nth (k * mean_block cfg + 0) vals 0)
                     (seq 0 (length (SHAREABLE cfg)))).
  { unfold bery_params, params. apply mean_names_values; auto.
    intros k s0 Hk. now apply block_positions_like. }
  split; [exact E1|]. split.
  - rewrite E1. symmetry. unfold params. apply mean_names_values; auto.
    intros k s0 Hk. now apply block_positions_single.
  - unfold bery_row, np_multiply. rewrite E1.
    rewrite !length_map, length_seq, Her, Nat.eqb_refl. f_equal.
    rewrite <- Her.
    rewrite <- (map_nth_seq (fun e => e * y_of o) (er_of o) 0).
    generalize (seq 0 (length (er_of o))). intros l.
    induction l as [|k l IH]; simpl; auto. now rewrite IH.
Qed.

Lemma bery_uses_single_baseline_witness :
  bery_row
    (combine (SUR_param_names
                (mean_eqs {| TYPE := [24]; SHAREABLE := [3; 11];
                             NONSHAREABLE := 6; DEMOG := [] |}%nat))
             [2; 6; 4; 2])
    {| w_of := [1 / 2; 1 / 4]; er_of := [1; 3]; y_of := 5; z_of := [];
       t_of := [0; 0; 1]%Z |}
  = Some [1 * 5 * 2; 3 * 5 * 4].
Proof.
  destruct (bery_uses_single_baseline
              {| TYPE := [24]; SHAREABLE := [3; 11];
                 NONSHAREABLE := 6; DEMOG := [] |}%nat [2; 6; 4; 2]
              {| w_of := [1 / 2; 1 / 4]; er_of := [1; 3]; y_of := 5; z_of := [];
                 t_of := [0; 0; 1]%Z |})
    as (_ & _ & H).
  - repeat constructor; simpl; intuition discriminate.
  - reflexivity.
  - reflexivity.
  - exact H.
Defined.
Close Scope string_scope.

(** ** Where the choice by substring stops working *)

Open Scope string_scope.

Lemma length_filter_one {A : Type} (p : A -> bool) (d : A) (l : list A) :
  forall i, (i < length l)%nat -> p (nth i l d) = true ->
            (1 <= length (filter p l))%nat.
Proof.
  induction l as [|x l IH]; intros i Hi Hp; [simpl in Hi; lia|].
  destruct i as [|i]; simpl in *.
  - rewrite Hp. simpl. lia.
  - specialize (IH i ltac:(lia) Hp). destruct (p x); simpl; lia.
Qed.

Lemma length_filter_two {A : Type} (p : A -> bool) (d : A) (l : list A) :
  forall i j, (i < j)%nat -> (j < length l)%nat ->
    p (nth i l d) = true -> p (nth j l d) = true ->
    (2 <= length (filter p l))%nat.
Proof.
  induction l as [|x l IH]; intros i j Hij Hj Hi Hpj; [simpl in Hj; lia|].
  destruct j as [|j]; [lia|]. destruct i as [|i]; simpl in *.
  - rewrite Hi. simpl.
    pose proof (length_filter_one p d l j ltac:(lia) Hpj). lia.
  - specialize (IH i j ltac:(lia) ltac:(lia) Hi Hpj).
    destruct (p x); simpl; lia.
Qed.

Lemma length_filter_concat_ge {A : Type} (p : A -> bool) (c : nat)
    (blocks : list (list A)) :
  (forall b, In b blocks -> (c <= length (filter p b))%nat) ->
  (c * length blocks <= length (filter p (concat blocks)))%nat.
Proof.
  induction blocks as [|b blocks IH]; intros H; simpl; [lia|].
  rewrite filter_app, length_app.
  pose proof (H b (or_introl eq_refl)).
  specialize (IH (fun b' Hb' => H b' (or_intror Hb'))). nia.
Qed.

Lemma length_params_where p names (vals : vec) :
  length vals = length names ->
  length (params_where p (combine names vals)) = length (filter p names).
Proof.
  intros H.
  rewrite <- (length_map snd), params_where_positions, length_map by exact H.
  apply (length_positions_from p names 0).
Qed.

Lemma nth_eq_names_type cfg k t :
  NoDup (SHAREABLE cfg) -> (k < length (SHAREABLE cfg))%nat ->
  (t < length (TYPE cfg))%nat ->
  nth (1 + t) (eq_names cfg k) "" = type_coef_name cfg t k.
Proof.
  intros Hnd Hk Ht. rewrite eq_names_layout by assumption. cbn [nth Nat.add].
  rewrite app_nth1 by (rewrite length_map, length_seq; exact Ht).
  apply (nth_map_seq (fun t => type_coef_name cfg t k)). exact Ht.
Qed.

Lemma firstn_skipn_app {A : Type} (a b : list A) :
  firstn (length a) (a ++ b) = a /\ skipn (length a) (a ++ b) = b.
Proof.
  induction a as [|x a [IH1 IH2]]; simpl; auto. now rewrite IH1.
Qed.

Lemma barten_too_long (b_s b_h a : vec) k :
  length b_s = k -> (1 <= k)%nat -> (2 * k <= length b_h)%nat ->
  barten (b_s ++ b_h) k = Some a -> length a <> k.
Proof.
  intros Hs Hk Hh. unfold barten. subst k.
  destruct (firstn_skipn_app b_s b_h) as [-> ->]. unfold np_divide.
  destruct (Nat.eqb_spec (length b_h) (length b_s)) as [E|_]; [lia|].
  destruct b_h as [|x [|x' b_h]]; simpl in Hh; try lia.
  destruct b_s as [|y [|y' b_s]]; try discriminate.
  intros [= <-]. simpl in *. rewrite ?length_map. lia.
Qed.

(** With ten or more household types the test for the first type,
    [str.contains('h1')], also matches the coefficients of types ten and
    up: [theta_h] is too long for the division or for the column of the
    dataframe, and [barten_results] raises. *)
Theorem barten_results_ten_types cfg (vals : vec) :
  NoDup (SHAREABLE cfg) -> (10 <= length (TYPE cfg))%nat ->
  (1 <= length (SHAREABLE cfg))%nat ->
  length vals = (length (SHAREABLE cfg) * mean_block cfg)%nat ->
  barten_results (combine (SUR_param_names (mean_eqs cfg)) vals)
                 (length (TYPE cfg)) (length (SHAREABLE cfg))
  = None.
Proof.
  intros Hnd HT HK Hlen. unfold barten_results.
  destruct (length (TYPE cfg)) as [|T'] eqn:ET; [lia|].
  cbn [seq barten_columns].
  set (params := combine (SUR_param_names (mean_eqs cfg)) vals).
  set (theta_s := map snd (params_where
         (fun n => str_contains n "s" && negb (str_contains n "z"))%bool params)).
  set (theta_h := map snd (params_where
         (fun n => str_contains n ("h" ++ str (0 + 1))
                   && negb (str_contains n "z"))%bool params)).
  assert (Hs : length theta_s = length (SHAREABLE cfg)).
  { unfold theta_s, params. rewrite (mean_names_values cfg _ 0); auto.
    - now rewrite length_map, length_seq.
    - intros k s0 Hk. now apply block_positions_single. }
  assert (Hh : (2 * length (SHAREABLE cfg) <= length theta_h)%nat).
  { unfold theta_h, params.
    rewrite length_map, length_params_where by now rewrite length_mean_names.
    rewrite SUR_param_names_mean.
    pose proof (length_filter_concat_ge
                  (fun n => str_contains n ("h" ++ str (0 + 1))
                            && negb (str_contains n "z"))%bool
                  2 (map (eq_names cfg) (seq 0 (length (SHAREABLE cfg))))) as G.
    rewrite length_map, length_seq in G. apply G.
    intros b Hb. apply in_map_iff in Hb. destruct Hb as (k & <- & Hk).
    apply in_seq in Hk.
    apply (length_filter_two _ "" _ (1 + 0) (1 + 9)).
    - lia.
    - rewrite length_eq_names by (auto; lia). unfold mean_block. lia.
    - rewrite nth_eq_names_type by (auto; lia).
      destruct (type_name_tests cfg 0 k) as (_ & -> & _ & ->). reflexivity.
    - rewrite nth_eq_names_type by (auto; lia).
      destruct (type_name_tests cfg 9 k) as (_ & -> & _ & ->). reflexivity. }
  destruct (barten (theta_s ++ theta_h) (length (SHAREABLE cfg))) as [a|] eqn:Ea;
    [|reflexivity].
  pose proof (barten_too_long theta_s theta_h a _ Hs HK Hh Ea) as Hne.
  destruct (barten_columns params (length (SHAREABLE cfg)) (seq 1 T'));
    [|reflexivity].
  apply Nat.eqb_neq in Hne. now rewrite Hne.
Qed.

(** One good and ten household types. *)
Lemma barten_results_ten_types_witness :
  barten_results
    (combine (SUR_param_names
                (mean_eqs {| TYPE := [1; 2; 3; 4; 5; 6; 7; 8; 9; 10];
                             SHAREABLE := [1]; NONSHAREABLE := 6;
                             DEMOG := [] |}%nat))
             (repeat 1 11)) 10 1
  = None.
Proof.
  apply (barten_results_ten_types
           {| TYPE := [1; 2; 3; 4; 5; 6; 7; 8; 9; 10];
              SHAREABLE := [1]; NONSHAREABLE := 6; DEMOG := [] |}%nat
           (repeat 1 11)).
  - repeat constructor; simpl; intuition discriminate.
  - simpl. lia.
  - simpl. lia.
  - reflexivity.
Defined.

Lemma label_one_matches_ten c :
  str_contains ("eq" ++ str (9 + 1) ++ "_" ++ c) ("eq" ++ str (0 + 1)) = true.
Proof.
  apply str_contains_prefix. unfold str. cbn.
  rewrite ?prefix_cons, ?prefix_empty. reflexivity.
Qed.

Lemma label_one_matches_one c :
  str_contains ("eq" ++ str (0 + 1) ++ "_" ++ c) ("eq" ++ str (0 + 1)) = true.
Proof.
  apply str_contains_prefix. rewrite prefix_app_same. apply prefix_self_app.
Qed.

Lemma filter_all {A : Type} (p : A -> bool) (l : list A) :
  (forall x, In x l -> p x = true) -> filter p l = l.
Proof.
  induction l as [|x l IH]; intros H; simpl; auto.
  rewrite H by now left. f_equal. apply IH. intros; apply H; now right.
Qed.

(** With ten or more shareable goods [filter(like='eq1')] also returns
    the coefficients of equations ten and up, so that the product with the
    regressors of the first good has mismatched shapes: the residual stage
    raises on any sample. *)
Theorem residual_stage_ten_goods cfg sample gt (vals : vec) :
  NoDup (SHAREABLE cfg) -> (10 <= length (SHAREABLE cfg))%nat ->
  length vals = (length (SHAREABLE cfg) * mean_block cfg)%nat ->
  sample <> [] ->
  Forall (design_shape (length (SHAREABLE cfg)) (length (DEMOG cfg))
                       (length (TYPE cfg))) sample ->
  res_column cfg sample gt (combine (SUR_param_names (mean_eqs cfg)) vals) 0
  = None.
Proof.
  intros Hnd HK Hlen Hne Hshape.
  set (params := combine (SUR_param_names (mean_eqs cfg)) vals).
  assert (Hlong : (2 * mean_block cfg <= length (eq_params params 0))%nat).
  { unfold eq_params, params.
    rewrite length_map, length_params_where by now rewrite length_mean_names.
    rewrite SUR_param_names_mean.
    destruct (length (SHAREABLE cfg)) as [|K'] eqn:EK; [lia|].
    replace (S K') with (1 + (8 + (1 + (K' - 9))))%nat by lia.
    rewrite !seq_app, !map_app, !concat_app, !filter_app, !length_app.
    cbn [seq map concat Nat.add]. rewrite !app_nil_r.
    rewrite (filter_all _ (eq_names cfg 0)).
    - rewrite (filter_all _ (eq_names cfg 9)).
      + rewrite !length_eq_names by (auto; lia). lia.
      + intros x Hx. unfold eq_names in Hx. apply in_map_iff in Hx.
        destruct Hx as (c & <- & _). apply label_one_matches_ten.
    - intros x Hx. unfold eq_names in Hx. apply in_map_iff in Hx.
      destruct Hx as (c & <- & _). apply label_one_matches_one. }
  unfold res_column, fitted_residual.
  replace (predicted cfg sample params 0) with (@None vec); [reflexivity|].
  symmetry. unfold predicted. rewrite Forall_forall in Hshape.
  rewrite (map_opt_map _ (undemeaned_regressors 0))
    by (intros o Ho; apply (hstack_row_spec cfg (length (DEMOG cfg)));
        auto; lia).
  destruct sample as [|o sample]; [congruence|].
  cbn [map np_matvec map_opt].
  rewrite (length_undemeaned_regressors _ (length (DEMOG cfg))
             (length (TYPE cfg))) by (apply Hshape; now left).
  fold (mean_block cfg).
  destruct (Nat.eqb_spec (mean_block cfg) (length (eq_params params 0)));
    [|reflexivity].
  unfold mean_block in *. lia.
Qed.

(** Ten goods, one household type, no demographic variable, one
    observation. *)
Lemma residual_stage_ten_goods_witness :
  res_column
    {| TYPE := [24]; SHAREABLE := [1; 2; 3; 4; 5; 6; 7; 8; 9; 10];
       NONSHAREABLE := 11; DEMOG := [] |}%nat
    [ {| w_of := repeat (1 / 11) 10; er_of := repeat 1 10; y_of := 0;
         z_of := []; t_of := [0; 0; 1]%Z |} ]
    [(0, 0)]%nat
    (combine (SUR_param_names
                (mean_eqs {| TYPE := [24];
                             SHAREABLE := [1; 2; 3; 4; 5; 6; 7; 8; 9; 10];
                             NONSHAREABLE := 11; DEMOG := [] |}%nat))
             (repeat 1 20)) 0
  = None.
Proof.
  apply (residual_stage_ten_goods
           {| TYPE := [24]; SHAREABLE := [1; 2; 3; 4; 5; 6; 7; 8; 9; 10];
              NONSHAREABLE := 11; DEMOG := [] |}%nat).
  - repeat constructor; simpl; intuition discriminate.
  - simpl. lia.
  - reflexivity.
  - discriminate.
  - repeat constructor.
Defined.
Close Scope string_scope.

(** ** What the exclusion leaves *)

Lemma length_filter_combine_seq {A : Type} (p : A -> bool) (l : list A) :
  forall s,
    length (filter (fun kv => p (snd kv)) (combine (seq s (length l)) l))
    = length (filter p l).
Proof.
  induction l as [|x l IH]; intros s; [reflexivity|].
  simpl. destruct (p x); simpl; now rewrite IH.
Qed.

Lemma cell_size_filter (m : list (list Z)) c :
  cell_size m c = length (filter (fun row => (nth c row 0 =? 1)%Z) m).
Proof.
  unfold cell_size, positions_of_one. rewrite length_map.
  rewrite (length_filter_combine_seq (fun v => (v =? 1)%Z) (colZ c m) 0).
  unfold colZ. apply length_filter_map.
Qed.

Lemma in_combine_seq {A : Type} (l : list A) k x :
  forall s,
    In (k, x) (combine (seq s (length l)) l) ->
    (s <= k)%nat /\ nth_error l (k - s) = Some x.
Proof.
  induction l as [|y l IH]; intros s; simpl; [tauto|].
  intros [E|H].
  - injection E as <- <-. rewrite Nat.sub_diag. split; [lia|reflexivity].
  - apply IH in H. destruct H as [H1 H2]. split; [lia|].
    replace (k - s)%nat with (S (k - S s)) by lia. exact H2.
Qed.

Lemma filter_filter_and {A : Type} (p q : A -> bool) (l : list A) :
  filter p (filter q l) = filter (fun x => (q x && p x)%bool) l.
Proof.
  induction l as [|x l IH]; simpl; auto.
  destruct (q x); simpl; [destruct (p x)|]; now rewrite IH.
Qed.

Lemma drop_rows_total {A : Type} (idx : list nat) (rows : list A) :
  (forall i, In i idx -> (i < length rows)%nat) ->
  drop_rows idx rows
  = Some (map snd
            (filter (fun kv => negb (existsb (Nat.eqb (fst kv)) idx))
                    (combine (seq 0 (length rows)) rows))).
Proof.
  intros H. unfold drop_rows.
  replace (forallb (fun i => (i <? length rows)%nat) idx) with true;
    [reflexivity|].
  symmetry. apply forallb_forall. intros i Hi. apply Nat.ltb_lt. auto.
Qed.

Lemma in_excluded_positions (gt : list (list Z)) (E : list nat) k :
  In k (flat_map (fun c => positions_of_one (colZ c gt)) E) <->
  exists c, In c E /\ in_cell gt k c.
Proof.
  rewrite in_flat_map. split; intros (c & Hc & H); exists c; split; auto;
    now apply positions_of_one_cell.
Qed.

(** Dropping all rows of the cells [E]: these cells become empty, and
    every other cell keeps its rows when no row lies in two cells. *)
Lemma drop_cells_effect (gt : list (list Z)) (E : list nat) :
  Forall single_cell gt ->
  exists kept,
    drop_rows (flat_map (fun c => positions_of_one (colZ c gt)) E) gt
    = Some kept /\
    forall c, cell_size kept c
              = if existsb (Nat.eqb c) E then 0%nat else cell_size gt c.
Proof.
  intros Hone.
  set (D := flat_map (fun c => positions_of_one (colZ c gt)) E).
  rewrite drop_rows_total.
  2:{ intros i Hi. apply in_excluded_positions in Hi.
      destruct Hi as (c & _ & Hlt & _). exact Hlt. }
  eexists. split; [reflexivity|]. intros c.
  rewrite !cell_size_filter.
  rewrite (length_filter_map (fun row => (nth c row 0 =? 1)%Z) snd).
  rewrite filter_filter_and.
  assert (Hrow : forall k row,
            In (k, row) (combine (seq 0 (length gt)) gt) ->
            (nth c row 0 =? 1)%Z = true ->
            in_cell gt k c /\ In row gt).
  { intros k row Hin H1. apply in_combine_seq in Hin. destruct Hin as [_ Hk].
    rewrite Nat.sub_0_r in Hk. split.
    - split.
      + apply nth_error_Some. rewrite Hk. discriminate.
      + rewrite (nth_error_nth _ _ _ Hk). now apply Z.eqb_eq.
    - eapply nth_error_In; eauto. }
  destruct (existsb (Nat.eqb c) E) eqn:HE.
  - apply existsb_exists in HE. destruct HE as (c' & Hc' & Ec).
    apply Nat.eqb_eq in Ec. subst c'.
    rewrite (filter_ext_in _ (fun _ => false)).
    + now rewrite filter_false.
    + intros [k row] Hin. cbn [fst snd].
      destruct (nth c row 0 =? 1)%Z eqn:H1; [|apply andb_false_r].
      rewrite andb_true_r. apply negb_false_iff. apply existsb_exists.
      exists k. split; [|apply Nat.eqb_refl].
      apply in_excluded_positions. exists c. split; auto.
      now apply (Hrow k row).
  - rewrite (filter_ext_in _ (fun kv => (nth c (snd kv) 0 =? 1)%Z)).
    + apply (length_filter_combine_seq (fun row => (nth c row 0 =? 1)%Z) gt 0).
    + intros [k row] Hin. cbn [fst snd].
      destruct (nth c row 0 =? 1)%Z eqn:H1; [|apply andb_false_r].
      rewrite andb_true_r. apply negb_true_iff.
      destruct (existsb (Nat.eqb k) D) eqn:HD; [|reflexivity].
      exfalso. apply existsb_exists in HD. destruct HD as (k' & Hk' & Ek).
      apply Nat.eqb_eq in Ek. subst k'.
      apply in_excluded_positions in Hk'. destruct Hk' as (c' & Hc' & Hcell').
      destruct (Hrow k row Hin H1) as [[_ Hc1] Hrow'].
      destruct Hcell' as [_ Hc2].
      rewrite Forall_forall in Hone.
      assert (c = c').
      { apply (Hone (nth k gt [])); auto. apply nth_In.
        apply in_combine_seq in Hin. destruct Hin as [_ Hin].
        apply nth_error_Some. rewrite Nat.sub_0_r in Hin. rewrite Hin.
        discriminate. }
      subst c'.
      assert (existsb (Nat.eqb c) E = true); [|congruence].
      apply existsb_exists. exists c. split; auto. apply Nat.eqb_refl.
Qed.

(** After the exclusion step of a replication no group-type cell is left
    with exactly one row, provided no observation lies in two cells: the
    cells whose rows all carry one resampled index are emptied, and the
    other cells keep their rows. *)
Theorem boot_exclusion_leaves_no_lone_row index (gt : list (list Z)) :
  Forall single_cell gt ->
  exists kept,
    drop_rows (idx_excluded_boot index gt) gt = Some kept /\
    boot_gt index gt = Some (nonzero kept) /\
    forall c, (c < ncolsZ gt)%nat ->
      cell_size kept c <> 1%nat /\
      (In c (gt_excluded_boot index gt) -> cell_size kept c = 0%nat) /\
      (~ In c (gt_excluded_boot index gt) -> cell_size kept c = cell_size gt c).
Proof.
  intros Hone.
  destruct (drop_cells_effect gt (gt_excluded_boot index gt) Hone)
    as (kept & Hk & Hsize).
  exists kept. split; [exact Hk|]. split.
  { unfold boot_gt. unfold idx_excluded_boot. now rewrite Hk. }
  intros c Hc. rewrite Hsize.
  destruct (existsb (Nat.eqb c) (gt_excluded_boot index gt)) eqn:HE.
  - apply existsb_exists in HE. destruct HE as (c' & Hc' & Ec).
    apply Nat.eqb_eq in Ec. subst c'. repeat split; auto.
    intros H. contradiction.
  - assert (Hn : ~ In c (gt_excluded_boot index gt)).
    { intros H. assert (existsb (Nat.eqb c) (gt_excluded_boot index gt) = true);
        [|congruence].
      apply existsb_exists. exists c. split; auto. apply Nat.eqb_refl. }
    repeat split; auto; try contradiction.
    intros H1. apply Hn. unfold gt_excluded_boot. apply filter_In.
    split; [apply in_seq; lia|].
    unfold cell_size in H1. unfold labels_of_one.
    destruct (positions_of_one (colZ c gt)) as [|p [|q ps]]; try discriminate.
    reflexivity.
Qed.

(** Three rows: the first two are the same observation 7 drawn twice and
    fill cell 0, the third is alone in cell 1. *)
Lemma boot_exclusion_leaves_no_lone_row_witness :
  drop_rows (idx_excluded_boot [7; 7; 4]%nat [[1; 0]; [1; 0]; [0; 1]]%Z)
            [[1; 0]; [1; 0]; [0; 1]]%Z
  = Some [] /\
  exists kept,
    drop_rows (idx_excluded_boot [7; 7; 4]%nat [[1; 0]; [1; 0]; [0; 1]]%Z)
              [[1; 0]; [1; 0]; [0; 1]]%Z = Some kept /\
    cell_size kept 0 <> 1%nat.
Proof.
  split; [reflexivity|].
  destruct (boot_exclusion_leaves_no_lone_row [7; 7; 4]%nat
              [[1; 0]; [1; 0]; [0; 1]]%Z) as (kept & Hk & _ & H).
  - repeat constructor; intros c c' H1 H2;
      destruct c as [|[|c]]; destruct c' as [|[|c']];
      try reflexivity; try discriminate;
      try (destruct c; discriminate); try (destruct c'; discriminate).
  - exists kept. split; [exact Hk|]. apply H. simpl. lia.
Defined.

(** The same for the point-estimate pass, whose test is [gt[i].sum() == 1]:
    with 0/1 indicators and no observation in two cells, the exclusion
    succeeds and no column of [gt] is left with the sum 1. *)
Theorem point_exclusion_leaves_no_lone_row (gt : list (list Z)) :
  Forall (Forall is_01) gt -> Forall single_cell gt ->
  exists idx kept,
    idx_excluded_point gt = Some idx /\
    drop_rows idx gt = Some kept /\
    point_gt gt = Some (nonzero kept) /\
    forall c, (c < ncolsZ gt)%nat -> Zsum (colZ c kept) <> 1%Z.
Proof.
  intros H01 Hone.
  assert (Hsingle : forall c, In c (gt_excluded_point gt) ->
            exists p, positions_of_one (colZ c gt) = [p]).
  { intros c Hc. unfold gt_excluded_point in Hc. apply filter_In in Hc.
    destruct Hc as [_ Hs].
    destruct (point_test_implies_boot [] gt c H01 Hs) as (p & Hp & _). eauto. }
  destruct (map_opt_total (fun c => hd_error (positions_of_one (colZ c gt)))
              (gt_excluded_point gt)) as [idx Hidx].
  { intros c Hc. destruct (Hsingle c Hc) as [p ->]. now exists p. }
  pose proof (flat_map_singletons _ _ _ Hidx Hsingle) as Eidx.
  destruct (drop_cells_effect gt (gt_excluded_point gt) Hone)
    as (kept & Hk & Hsize).
  rewrite Eidx in Hk.
  exists idx, kept. split; [exact Hidx|]. split; [exact Hk|]. split.
  { unfold point_gt. fold (idx_excluded_point gt) in Hidx.
    now rewrite Hidx, Hk. }
  intros c Hc.
  assert (Hk01 : Forall (Forall is_01) kept).
  { rewrite drop_rows_total in Hk.
    - injection Hk as <-. apply Forall_forall. intros row Hrow.
      apply in_map_iff in Hrow. destruct Hrow as ([k r] & <- & Hin).
      apply filter_In in Hin. destruct Hin as [Hin _].
      apply in_combine_r in Hin. rewrite Forall_forall in H01. now apply H01.
    - intros i Hi. rewrite <- Eidx in Hi. apply in_excluded_positions in Hi.
      destruct Hi as (c' & _ & Hlt & _). exact Hlt. }
  rewrite (Zsum_positions_of_one _ (colZ_01 c kept Hk01)).
  fold (cell_size kept c). rewrite Hsize.
  destruct (existsb (Nat.eqb c) (gt_excluded_point gt)) eqn:HE; [simpl; lia|].
  intros H1.
  assert (existsb (Nat.eqb c) (gt_excluded_point gt) = true); [|congruence].
  apply existsb_exists. exists c. split; [|apply Nat.eqb_refl].
  unfold gt_excluded_point. apply filter_In. split; [apply in_seq; lia|].
  rewrite (Zsum_positions_of_one _ (colZ_01 c gt H01)).
  fold (cell_size gt c). apply Z.eqb_eq. lia.
Qed.

Lemma point_exclusion_leaves_no_lone_row_witness :
  exists idx kept,
    idx_excluded_point [[1; 0]; [1; 0]; [0; 1]]%Z = Some idx /\
    drop_rows idx [[1; 0]; [1; 0]; [0; 1]]%Z = Some kept /\
    Zsum (colZ 1 kept) <> 1%Z.
Proof.
  destruct (point_exclusion_leaves_no_lone_row [[1; 0]; [1; 0]; [0; 1]]%Z)
    as (idx & kept & H1 & H2 & _ & H3).
  - repeat (apply Forall_cons || apply Forall_nil);
      (left; reflexivity) || (right; reflexivity).
  - repeat constructor; intros c c' H1 H2;
      destruct c as [|[|c]]; destruct c' as [|[|c']];
      try reflexivity; try discriminate;
      try (destruct c; discriminate); try (destruct c'; discriminate).
  - exists idx, kept. split; [exact H1|]. split; [exact H2|].
    apply H3. simpl. lia.
Defined.

(** ** Cells of an observation *)

Lemma Zsum_app (a b : list Z) : Zsum (a ++ b) = (Zsum a + Zsum b)%Z.
Proof. induction a as [|x a IH]; simpl; [|rewrite IH]; lia. Qed.

Lemma Zsum_scale (a : list Z) (o : Z) :
  Zsum (map (fun i => (i * o)%Z) a) = (Zsum a * o)%Z.
Proof. induction a as [|x a IH]; simpl; [|rewrite IH]; lia. Qed.

Lemma Zsum_outer_flat inner outer :
  Zsum (outer_flat inner outer) = (Zsum inner * Zsum outer)%Z.
Proof.
  unfold outer_flat. induction outer as [|o outer IH]; simpl; [lia|].
  rewrite Zsum_app, Zsum_scale, IH. lia.
Qed.

Lemma Zsum_01_nonneg (l : list Z) : Forall is_01 l -> (0 <= Zsum l)%Z.
Proof.
  induction 1 as [|x l Hx _ IH]; simpl; [lia|].
  destruct Hx as [-> | ->]; lia.
Qed.

(** A 0/1 row whose sum is at most one has the value 1 at most once. *)
Lemma single_cell_of_sum (l : list Z) :
  Forall is_01 l -> (Zsum l <= 1)%Z -> single_cell l.
Proof.
  induction 1 as [|x l Hx Hl IH]; intros Hs c c' Hc Hc'.
  - destruct c; discriminate.
  - simpl in Hs. pose proof (Zsum_01_nonneg l Hl) as Hn.
    assert (Hzero : Zsum l = 0%Z -> forall k, nth k l 0%Z <> 1%Z).
    { clear -Hl. induction Hl as [|y l Hy Hl IH]; intros Hz k.
      - destruct k; discriminate.
      - simpl in Hz. pose proof (Zsum_01_nonneg l Hl).
        destruct k as [|k]; simpl.
        + destruct Hy as [-> | ->]; lia.
        + apply IH. destruct Hy as [-> | ->]; lia. }
    destruct c as [|c], c' as [|c']; simpl in Hc, Hc'.
    + reflexivity.
    + subst x. exfalso. apply (Hzero ltac:(lia) c'). exact Hc'.
    + subst x. exfalso. apply (Hzero ltac:(lia) c). exact Hc.
    + f_equal. apply IH; auto. destruct Hx as [-> | ->]; lia.
Qed.

Lemma Zsum_where_01 (l : list Z) :
  Forall is_01 l -> Zsum (map (fun z => where_1_0 (z =? 1)%Z) l) = Zsum l.
Proof.
  induction 1 as [|x l Hx _ IH]; simpl; [reflexivity|].
  rewrite IH. destruct Hx as [-> | ->]; reflexivity.
Qed.

(** An observation that passes the sample filter of the main program and
    has 0/1 flags, with at most one province and one year dummy set, lies
    in at most one group-type cell; with a 0/1 sex flag and exactly one
    dummy of each kind it lies in exactly one. *)
Theorem sampled_observation_single_cell AGE z21 z22 z51 (o : flags) :
  in_sample AGE z21 z22 z51 o = true ->
  is_01 (z23 o) -> Forall is_01 (z_type o) ->
  Forall is_01 (z_29_37 o) -> Forall is_01 (z_38_50 o) ->
  (Zsum (z_29_37 o) <= 1)%Z -> (Zsum (z_38_50 o) <= 1)%Z ->
  Forall is_01 (gt_row o) /\
  single_cell (gt_row o) /\
  (is_01 (z3 o) -> Zsum (z_29_37 o) = 1%Z -> Zsum (z_38_50 o) = 1%Z ->
   Zsum (gt_row o) = 1%Z).
Proof.
  intros Hin H23 Htype H29 H38 S29 S38.
  unfold in_sample in Hin.
  apply andb_true_iff in Hin. destruct Hin as [Hin _].
  apply andb_true_iff in Hin. destruct Hin as [Hin _].
  apply Z.eqb_eq in Hin. cbn [Zsum fold_right] in Hin. fold (Zsum (z_type o)) in Hin.
  assert (H01 : Forall is_01 (gt_row o)).
  { unfold gt_row. apply outer_flat_01; [|apply t_row_01].
    unfold g_row. now apply outer_flat_01. }
  assert (Ht : Zsum (t_row o)
               = (where_1_0 ((z23 o =? 1)%Z && (z3 o =? 0)%Z)
                  + where_1_0 ((z23 o =? 1)%Z && (z3 o =? 1)%Z)
                  + Zsum (z_type o))%Z).
  { unfold t_row. cbn [Zsum fold_right].
    fold (Zsum (map (fun z => where_1_0 (z =? 1)%Z) (z_type o))).
    rewrite Zsum_where_01 by assumption. lia. }
  assert (Hg : Zsum (gt_row o)
               = (Zsum (z_38_50 o) * Zsum (z_29_37 o) * Zsum (t_row o))%Z).
  { unfold gt_row, g_row. now rewrite !Zsum_outer_flat. }
  pose proof (Zsum_01_nonneg _ H29). pose proof (Zsum_01_nonneg _ H38).
  pose proof (Zsum_01_nonneg _ Htype).
  assert (Htle : (0 <= Zsum (t_row o) <= 1)%Z).
  { rewrite Ht. unfold where_1_0.
    destruct H23 as [E|E]; rewrite E in *; simpl;
      destruct (z3 o =? 0)%Z eqn:E0; destruct (z3 o =? 1)%Z eqn:E1;
      lia. }
  split; [exact H01|]. split.
  - apply single_cell_of_sum; [exact H01|]. rewrite Hg.
    assert (Ea : (Zsum (z_38_50 o) = 0 \/ Zsum (z_38_50 o) = 1)%Z) by lia.
    assert (Eb : (Zsum (z_29_37 o) = 0 \/ Zsum (z_29_37 o) = 1)%Z) by lia.
    destruct Ea as [-> | ->]; destruct Eb as [-> | ->]; lia.
  - intros H3 E29 E38. rewrite Hg, E29, E38, Ht. unfold where_1_0.
    destruct (z23 o =? 1)%Z eqn:Ea; destruct (z3 o =? 0)%Z eqn:Eb;
      destruct (z3 o =? 1)%Z eqn:Ec; cbn [andb];
      destruct H23 as [E|E]; destruct H3 as [E3|E3]; lia.
Qed.

(** A couple household of the first type in the first province-year
    group. *)
Lemma sampled_observation_single_cell_witness :
  single_cell (gt_row (cell_flags 0 0 [1; 0; 0]%Z)).
Proof.
  apply (sampled_observation_single_cell 65 0 0 40 (cell_flags 0 0 [1; 0; 0]%Z)).
  - reflexivity.
  - left. reflexivity.
  - repeat (apply Forall_cons || apply Forall_nil);
      (left; reflexivity) || (right; reflexivity).
  - repeat (apply Forall_cons || apply Forall_nil);
      (left; reflexivity) || (right; reflexivity).
  - repeat (apply Forall_cons || apply Forall_nil);
      (left; reflexivity) || (right; reflexivity).
  - simpl. lia.
  - simpl. lia.
Defined.

(** ** From indicator matrices to the groups of [demean] *)

Lemma nonzero_row_01 (row : list Z) :
  Forall is_01 row -> nonzero_row row = positions_of_one row.
Proof.
  intros H. unfold nonzero_row, positions_of_one. f_equal.
  apply filter_ext_in. intros [j v] Hin. apply in_combine_r in Hin.
  rewrite Forall_forall in H. destruct (H v Hin) as [-> | ->]; reflexivity.
Qed.

Lemma in_combine_seq_iff {A : Type} (l : list A) k x :
  In (k, x) (combine (seq 0 (length l)) l) <-> nth_error l k = Some x.
Proof.
  split.
  - intros H. apply in_combine_seq in H. destruct H as [_ H].
    now rewrite Nat.sub_0_r in H.
  - assert (G : forall s, nth_error l k = Some x ->
                          In ((s + k)%nat, x) (combine (seq s (length l)) l)).
    { revert k. induction l as [|y l IH]; intros k s H.
      - destruct k; discriminate.
      - destruct k as [|k]; simpl in *.
        + left. injection H as <-. f_equal. lia.
        + right. replace (s + S k)%nat with (S s + k)%nat by lia. now apply IH. }
    intros H. apply (G 0%nat H).
Qed.

Lemma In_nonzero (m : list (list Z)) r c :
  Forall (Forall is_01) m -> (In (r, c) (nonzero m) <-> in_cell m r c).
Proof.
  intros H01. unfold nonzero, in_cell. rewrite in_flat_map. split.
  - intros ([k row] & Hin & H). cbn [fst snd] in H.
    apply in_map_iff in H. destruct H as (j & [= <- <-] & Hj).
    apply in_combine_seq_iff in Hin.
    assert (Hrow : In row m) by (eapply nth_error_In; eauto).
    rewrite nonzero_row_01 in Hj by (rewrite Forall_forall in H01; auto).
    apply (positions_from_iff row j 0%nat) in Hj. destruct Hj as [_ Hj].
    rewrite Nat.sub_0_r in Hj. split.
    + apply nth_error_Some. rewrite Hin. discriminate.
    + now rewrite (nth_error_nth _ _ _ Hin).
  - intros [Hr Hc]. exists (r, nth r m []). split.
    + apply in_combine_seq_iff. now apply nth_error_nth'.
    + cbn [fst snd]. apply in_map_iff. exists c. split; [reflexivity|].
      rewrite nonzero_row_01
        by (rewrite Forall_forall in H01; apply H01; now apply nth_In).
      apply (positions_from_iff _ c 0%nat). rewrite Nat.sub_0_r.
      split; [|exact Hc]. split; [lia|]. simpl.
      destruct (Nat.lt_ge_cases c (length (nth r m []))) as [Hlt|Hge]; [exact Hlt|].
      rewrite nth_overflow in Hc by assumption. discriminate.
Qed.

Lemma positions_of_one_single (row : list Z) :
  single_cell row -> (length (positions_of_one row) <= 1)%nat.
Proof.
  intros Hone. pose proof (positions_of_one_NoDup row) as Hnd.
  destruct (positions_of_one row) as [|a [|b l]] eqn:E; simpl; try lia.
  exfalso.
  assert (Ha : nth a row 0%Z = 1%Z).
  { assert (H : In a (positions_of_one row)) by (rewrite E; now left).
    apply (positions_from_iff row a 0%nat) in H. destruct H as [_ H].
    now rewrite Nat.sub_0_r in H. }
  assert (Hb : nth b row 0%Z = 1%Z).
  { assert (H : In b (positions_of_one row)) by (rewrite E; right; now left).
    apply (positions_from_iff row b 0%nat) in H. destruct H as [_ H].
    now rewrite Nat.sub_0_r in H. }
  inversion Hnd as [|? ? Hn _]; subst. apply Hn. left. now apply Hone.
Qed.

Lemma NoDup_firsts (f : list Z -> list nat) (m : list (list Z)) :
  (forall row, In row m -> (length (f row) <= 1)%nat) ->
  forall s,
    let l := map fst (flat_map (fun ir => map (fun j => (fst ir, j)) (f (snd ir)))
                               (combine (seq s (length m)) m)) in
    NoDup l /\ forall r, In r l -> (s <= r)%nat.
Proof.
  induction m as [|row m IH]; intros Hf s; cbn zeta.
  - simpl. split; [constructor|tauto].
  - destruct (IH (fun r Hr => Hf r (or_intror Hr)) (S s)) as [Hnd Hge].
    cbn [length seq combine flat_map fst snd]. rewrite map_app, map_map.
    cbn [fst]. pose proof (Hf row (or_introl eq_refl)) as Hl.
    destruct (f row) as [|c [|c' l']]; simpl in Hl; try lia; cbn [map app].
    + split; [exact Hnd|]. intros r Hr. specialize (Hge r Hr). lia.
    + split.
      * constructor; [|exact Hnd]. intros Hin. specialize (Hge s Hin). lia.
      * intros r [<-|Hr]; [lia|]. specialize (Hge r Hr). lia.
Qed.

Lemma NoDup_nonzero_rows (m : list (list Z)) :
  Forall (Forall is_01) m -> Forall single_cell m ->
  NoDup (map fst (nonzero m)).
Proof.
  intros H01 Hone. unfold nonzero.
  apply (NoDup_firsts nonzero_row m).
  intros row Hrow. rewrite Forall_forall in H01, Hone.
  rewrite nonzero_row_01 by auto. apply positions_of_one_single. auto.
Qed.

Lemma NoDup_same_length (l l' : list nat) :
  NoDup l -> NoDup l' -> (forall x, In x l <-> In x l') -> length l = length l'.
Proof.
  intros H H' E. apply Nat.le_antisymm; apply NoDup_incl_length; auto;
    intros x Hx; now apply E.
Qed.

Lemma length_group_rows_nonzero (m : list (list Z)) c :
  Forall (Forall is_01) m -> Forall single_cell m ->
  length (group_rows (nonzero m) c) = cell_size m c.
Proof.
  intros H01 Hone. unfold cell_size. apply NoDup_same_length.
  - apply group_rows_NoDup. now apply NoDup_nonzero_rows.
  - apply positions_of_one_NoDup.
  - intros r. rewrite group_rows_In, In_nonzero, positions_of_one_cell by assumption.
    reflexivity.
Qed.

(** [demean] on the coordinates of a 0/1 indicator matrix in which no
    observation has two cells, as in its calls by the program: the call
    cannot fail, the result has the shape of the input, and an observation
    without a cell or alone in its cell gets a row of zeros. *)
Theorem demean_on_indicators n p var (ind : list (list Z)) :
  is_matrix n p var -> length ind = n ->
  Forall (Forall is_01) ind -> Forall single_cell ind ->
  exists out,
    demean var (nonzero ind) = Some out /\
    is_matrix n p out /\
    (forall r, (r < n)%nat -> (forall c, ~ in_cell ind r c) ->
       nth_error out r = Some (repeat 0 p)) /\
    (forall r c, in_cell ind r c -> cell_size ind c = 1%nat ->
       nth_error out r = Some (repeat 0 p)).
Proof.
  intros Hm Hlen H01 Hone.
  assert (Hin : in_range n (nonzero ind)).
  { intros r c H. apply In_nonzero in H; auto. destruct H as [H _]. lia. }
  pose proof (NoDup_nonzero_rows ind H01 Hone) as Hnd.
  destruct (demean_rows n p var (nonzero ind) Hm Hin Hnd)
    as (out & Hout & _ & Hz & Hw).
  exists out. split; [exact Hout|].
  split; [now apply (demean_shape n p var (nonzero ind))|]. split.
  - intros r Hr Hno. apply Hz; auto. intros H.
    apply in_map_iff in H. destruct H as ([r' c] & E & H). simpl in E. subst r'.
    apply In_nonzero in H; auto. now apply (Hno c).
  - intros r c Hcell Hsize.
    assert (Hrc : In (r, c) (nonzero ind)) by now apply In_nonzero.
    destruct (Hw r c Hrc) as (row & sel & Hrow & Hsel & Hval).
    pose proof (length_group_rows_nonzero ind c H01 Hone) as Hg.
    rewrite Hsize in Hg.
    destruct (length_one_inv _ Hg) as [r' Er'].
    assert (r' = r).
    { assert (H : In r (group_rows (nonzero ind) c)) by now apply group_rows_In.
      rewrite Er' in H. destruct H as [H|[]]. exact H. }
    subst r'. rewrite Er' in Hsel. simpl in Hsel. rewrite Hrow in Hsel.
    injection Hsel as <-. rewrite Hval. f_equal.
    assert (Lr : length row = p).
    { destruct Hm as [_ H]. rewrite Forall_forall in H. apply H.
      eapply nth_error_In; eauto. }
    apply (nth_ext _ _ 0 0).
    + rewrite length_vsub, length_mean_axis0, repeat_length. lia.
    + intros j Hj. rewrite length_vsub, length_mean_axis0 in Hj.
      rewrite nth_vsub by (rewrite length_mean_axis0; auto).
      rewrite nth_mean_axis0 by lia. unfold col. simpl.
      rewrite mean_single, nth_repeat. lra.
Qed.

(** Rows 0 and 2 share cell 1, row 1 is alone in cell 0. *)
Lemma demean_on_indicators_witness :
  exists out,
    demean [[1; 2]; [3; 4]; [5; 8]] (nonzero [[0; 1]; [1; 0]; [0; 1]]%Z) = Some out /\
    nth_error out 1 = Some [0; 0].
Proof.
  destruct (demean_on_indicators 3 2 [[1; 2]; [3; 4]; [5; 8]]
              [[0; 1]; [1; 0]; [0; 1]]%Z) as (out & H1 & _ & _ & H2).
  - split; [reflexivity|]. repeat constructor.
  - reflexivity.
  - repeat (apply Forall_cons || apply Forall_nil);
      (left; reflexivity) || (right; reflexivity).
  - repeat constructor; intros c c' Hc Hc';
      destruct c as [|[|c]]; destruct c' as [|[|c']];
      try reflexivity; try discriminate;
      try (destruct c; discriminate); try (destruct c'; discriminate).
  - exists out. split; [exact H1|]. apply (H2 1%nat 0%nat).
    + split; [simpl; lia|reflexivity].
    + reflexivity.
Defined.

Lemma drop_rows_subset {A : Type} (idx : list nat) (rows kept : list A) x :
  drop_rows idx rows = Some kept -> In x kept -> In x rows.
Proof.
  unfold drop_rows. destruct (forallb _ idx); [|discriminate].
  intros [= <-] H. apply in_map_iff in H. destruct H as ([k y] & <- & H).
  apply filter_In in H. destruct H as [H _]. eapply in_combine_r; eauto.
Qed.

(** In a replication the group-type cells passed to [demean] are those
    left by the exclusion: with 0/1 indicators and no observation in two
    cells, [demean] cannot fail on them and every remaining observation
    that has a cell shares it with at least one other, so that no row is
    zeroed for being alone. *)
Theorem replication_cells_have_company index (gt : list (list Z)) w :
  Forall (Forall is_01) gt -> Forall single_cell gt ->
  Forall (fun row => length row = w) gt ->
  exists kept cells,
    drop_rows (idx_excluded_boot index gt) gt = Some kept /\
    boot_gt index gt = Some cells /\
    in_range (length kept) cells /\
    NoDup (map fst cells) /\
    (forall r c, In (r, c) cells -> (2 <= length (group_rows cells c))%nat) /\
    (forall p var, is_matrix (length kept) p var ->
       exists out, demean var cells = Some out /\ is_matrix (length kept) p out).
Proof.
  intros H01 Hone Hrect.
  destruct (drop_cells_effect gt (gt_excluded_boot index gt) Hone)
    as (kept & Hk & Hsize).
  fold (idx_excluded_boot index gt) in Hk.
  assert (Hk01 : Forall (Forall is_01) kept).
  { apply Forall_forall. intros row Hrow. rewrite Forall_forall in H01.
    apply H01. eapply drop_rows_subset; eauto. }
  assert (Hkone : Forall single_cell kept).
  { apply Forall_forall. intros row Hrow. rewrite Forall_forall in Hone.
    apply Hone. eapply drop_rows_subset; eauto. }
  assert (Hin : in_range (length kept) (nonzero kept)).
  { intros r c H. apply In_nonzero in H; auto. now destruct H. }
  pose proof (NoDup_nonzero_rows kept Hk01 Hkone) as Hnd.
  exists kept, (nonzero kept). split; [exact Hk|]. split.
  { unfold boot_gt. now rewrite Hk. }
  split; [exact Hin|]. split; [exact Hnd|]. split.
  - intros r c Hrc.
    rewrite length_group_rows_nonzero by assumption.
    assert (H1 : (1 <= cell_size kept c)%nat).
    { rewrite <- length_group_rows_nonzero by assumption.
      assert (H : In r (group_rows (nonzero kept) c)) by now apply group_rows_In.
      destruct (group_rows (nonzero kept) c); [destruct H|simpl; lia]. }
    assert (Hc : (c < ncolsZ gt)%nat).
    { apply In_nonzero in Hrc; auto. destruct Hrc as [Hr Hv].
      assert (Hrow : In (nth r kept []) gt)
        by (eapply drop_rows_subset; eauto; now apply nth_In).
      rewrite Forall_forall in Hrect.
      destruct gt as [|row0 gt']; [destruct Hrow|].
      simpl. rewrite (Hrect row0) by now left.
      rewrite <- (Hrect _ Hrow).
      destruct (Nat.lt_ge_cases c (length (nth r kept []))) as [Hlt|Hge];
        [exact Hlt|].
      rewrite nth_overflow in Hv by assumption. discriminate. }
    rewrite Hsize in *.
    destruct (existsb (Nat.eqb c) (gt_excluded_boot index gt)) eqn:HE; [lia|].
    assert (Hne : cell_size gt c <> 1%nat); [|lia].
    intros E1.
    assert (existsb (Nat.eqb c) (gt_excluded_boot index gt) = true); [|congruence].
    apply existsb_exists. exists c. split; [|apply Nat.eqb_refl].
    unfold gt_excluded_boot. apply filter_In. split; [apply in_seq; lia|].
    unfold cell_size in E1. unfold labels_of_one.
    destruct (positions_of_one (colZ c gt)) as [|q [|q' ps]]; try discriminate.
    reflexivity.
  - intros p var Hm.
    destruct (demean_rows (length kept) p var (nonzero kept) Hm Hin Hnd)
      as (out & Hout & _).
    exists out. split; [exact Hout|].
    now apply (demean_shape (length kept) p var (nonzero kept)).
Qed.

(** Observation 7 drawn twice fills cell 0 and is dropped; observations 4
    and 5 share cell 1 and stay. *)
Lemma replication_cells_have_company_witness :
  exists cells,
    boot_gt [7; 7; 4; 5]%nat [[1; 0]; [1; 0]; [0; 1]; [0; 1]]%Z = Some cells /\
    NoDup (map fst cells).
Proof.
  destruct (replication_cells_have_company [7; 7; 4; 5]%nat
              [[1; 0]; [1; 0]; [0; 1]; [0; 1]]%Z 2)
    as (kept & cells & _ & H1 & _ & H2 & _).
  - repeat (apply Forall_cons || apply Forall_nil);
      (left; reflexivity) || (right; reflexivity).
  - repeat constructor; intros c c' Hc Hc';
      destruct c as [|[|c]]; destruct c' as [|[|c']];
      try reflexivity; try discriminate;
      try (destruct c; discriminate); try (destruct c'; discriminate).
  - repeat constructor.
  - exists cells. split; assumption.
Defined.

(** ** Regressors of the variance equations, by pair of goods *)

Open Scope string_scope.

Lemma append_assoc a b c : (a ++ b) ++ c = a ++ (b ++ c).
Proof. induction a as [|x a IH]; cbn [append]; [reflexivity|now rewrite IH]. Qed.

Lemma str_replace_absent c old new s :
  has_char c s = false -> str_replace_from (String c old) new 0 s = s.
Proof.
  induction s as [|a s IH]; intros H; [reflexivity|].
  cbn [has_char] in H. apply orb_false_iff in H. destruct H as [Ha Hs].
  cbn [str_replace_from prefix].
  destruct (ascii_dec c a) as [->|_].
  - now rewrite Ascii.eqb_refl in Ha.
  - now rewrite IH.
Qed.

Lemma has_char_pair_name c ab :
  is_digit c = false -> Ascii.eqb "." c = false -> has_char c (pair_name ab) = false.
Proof.
  intros Hd Hp. unfold pair_name.
  rewrite !has_char_app, !has_char_str by assumption.
  cbn [has_char]. now rewrite Hp.
Qed.

(** [NAME_res_crossprod[i].replace("res", "ber") + 'y']. *)
Lemma pair_tag_name cfg i :
  (i < length (good_pairs cfg))%nat ->
  pair_tag cfg i
  = "ber" ++ pair_name (nth i (good_pairs cfg) (0, 0)%nat) ++ "y".
Proof.
  intros Hi. unfold pair_tag, NAME_res_crossprod.
  rewrite (nth_indep _ "" ("res" ++ pair_name (0, 0)%nat))
    by now rewrite length_map.
  rewrite (map_nth (fun ab => "res" ++ pair_name ab)).
  unfold str_replace. cbn [append str_replace_from prefix String.length Nat.sub].
  destruct (ascii_dec "r" "r"); [|congruence].
  destruct (ascii_dec "e" "e"); [|congruence].
  destruct (ascii_dec "s" "s"); [|congruence].
  rewrite prefix_empty. cbn [append].
  rewrite str_replace_absent by (apply has_char_pair_name; reflexivity).
  reflexivity.
Qed.

Lemma pair_eqb_eq ab cd : pair_eqb ab cd = true <-> ab = cd.
Proof.
  destruct ab as [a b], cd as [c d]. unfold pair_eqb. cbn [fst snd].
  rewrite andb_true_iff, !Nat.eqb_eq. split; [intros [-> ->]|intros [= -> ->]]; auto.
Qed.

(** [name in j] for the cross-sum term of a pair under a group: the pairs
    agree. *)
Lemma pair_tag_test k ab ab' :
  str_contains (("g" ++ str (k + 1)) ++ "_" ++ "ber" ++ pair_name ab ++ "y_sum")
               ("ber" ++ pair_name ab' ++ "y")
  = pair_eqb ab ab'.
Proof.
  rewrite append_assoc. cbn [append].
  change (String "g" (str (k + 1) ++ String "_" ?x))
    with ("g" ++ str (k + 1) ++ "_" ++ x).
  do 3 (rewrite str_contains_skip by no_char).
  cbn [append str_contains].
  rewrite (str_contains_no_char _ "b")
    by (assert (has_char "b" (pair_name ab) = false)
          by (apply has_char_pair_name; reflexivity); no_char).
  rewrite orb_false_r, !prefix_cons.
  unfold pair_name. rewrite !append_assoc. cbn [append].
  rewrite (prefix_str_sep _ _ ".") by reflexivity.
  rewrite (prefix_str_sep _ _ "y") by reflexivity.
  rewrite prefix_empty, andb_true_r. unfold pair_eqb.
  rewrite (Nat.eqb_sym (fst ab)), (Nat.eqb_sym (snd ab)). reflexivity.
Qed.

Lemma NoDup_map_inj_on {A B : Type} (f : A -> B) (l : list A) :
  NoDup l ->
  (forall x y, In x l -> In y l -> f x = f y -> x = y) ->
  NoDup (map f l).
Proof.
  induction 1 as [|x l Hx Hnd IH]; intros Hinj; simpl; constructor.
  - intros H. apply in_map_iff in H. destruct H as (y & E & Hy).
    assert (y = x) by (apply Hinj; auto; [now right|now left]).
    subst. contradiction.
  - apply IH. intros a b Ha Hb. apply Hinj; now right.
Qed.

Lemma good_pairs_triu cfg :
  good_pairs cfg
  = map (fun ij => (nth (fst ij) (SHAREABLE cfg) 0%nat,
                    nth (snd ij) (SHAREABLE cfg) 0%nat))
        (triu_indices (length (SHAREABLE cfg))).
Proof.
  unfold good_pairs, triu_indices. cbv zeta.
  generalize (seq 0 (length (SHAREABLE cfg))). intros l.
  induction l as [|i l IH]; [reflexivity|].
  cbn [flat_map]. rewrite map_app, map_map, IH. reflexivity.
Qed.

Lemma NoDup_good_pairs cfg : NoDup (SHAREABLE cfg) -> NoDup (good_pairs cfg).
Proof.
  intros Hnd. rewrite good_pairs_triu.
  apply NoDup_map_inj_on; [apply NoDup_triu_indices|].
  intros [i j] [i' j'] H H' E. cbn [fst snd] in E.
  apply In_triu_indices in H, H'. injection E as E1 E2.
  f_equal; apply (proj1 (NoDup_nth (SHAREABLE cfg) 0%nat) Hnd); auto; lia.
Qed.

Lemma filter_unique {A : Type} (eqb : A -> A -> bool) (l : list A) s :
  (forall x y, eqb x y = true <-> x = y) ->
  NoDup l -> In s l -> filter (fun x => eqb x s) l = [s].
Proof.
  intros Heq. induction 1 as [|x l Hx Hnd IH]; intros Hin; [destruct Hin|].
  simpl. destruct (eqb x s) eqn:E.
  - apply Heq in E. subst x. f_equal.
    clear IH Hin Hnd. induction l as [|y l IH]; [reflexivity|]. simpl.
    destruct (eqb y s) eqn:E.
    + apply Heq in E. subst. exfalso. apply Hx. now left.
    + apply IH. intro. apply Hx. now right.
  - destruct Hin as [->|Hin]; [|now apply IH].
    assert (eqb s s = true) by now apply Heq. congruence.
Qed.

(** The columns of [exog] in the variance equation of pair [i]: for each
    province-year group with at least two observations of the household
    type, the cross-sum term of the same pair of goods under that group,
    then the cross-product term of the pair.  The choice by substring,
    [name in j], cannot confuse two pairs, whatever the numbers of the
    goods. *)
Theorem variance_exog_layout cfg (rb : list (list Z)) ngroup i :
  NoDup (SHAREABLE cfg) -> (i < length (NAME_res_crossprod cfg))%nat ->
  exog_columns cfg rb ngroup i
  = (map (fun g => (g ++ "_" ++ nth i (NAME_bery_crosssum cfg) "")%string)
         (g_included rb ngroup)
     ++ [nth i (NAME_bery_crossprod cfg) ""])%list /\
  length (exog_columns cfg rb ngroup i) = S (length (g_included rb ngroup)).
Proof.
  intros Hnd Hi.
  assert (Hp : (i < length (good_pairs cfg))%nat)
    by (unfold NAME_res_crossprod in Hi; now rewrite length_map in Hi).
  assert (E : exog_columns cfg rb ngroup i
              = (map (fun g => (g ++ "_" ++ nth i (NAME_bery_crosssum cfg) "")%string)
                     (g_included rb ngroup)
                 ++ [nth i (NAME_bery_crossprod cfg) ""])%list).
  { unfold exog_columns. f_equal. unfold g_bery_included.
    rewrite pair_tag_name by assumption.
    set (ab := nth i (good_pairs cfg) (0, 0)%nat).
    assert (Ecs : nth i (NAME_bery_crosssum cfg) ""
                  = "ber" ++ pair_name ab ++ "y_sum").
    { unfold NAME_bery_crosssum.
      rewrite (nth_indep _ "" ("ber" ++ pair_name (0, 0)%nat ++ "y_sum"))
        by now rewrite length_map.
      apply (map_nth (fun ab => "ber" ++ pair_name ab ++ "y_sum")). }
    rewrite Ecs.
    assert (G : forall gs,
              (forall g, In g gs -> exists k, g = "g" ++ str (k + 1)) ->
              filter (fun j => str_contains j ("ber" ++ pair_name ab ++ "y"))
                (flat_map (fun g => map (fun j => g ++ "_" ++ j)
                                        (NAME_bery_crosssum cfg)) gs)
              = map (fun g => g ++ "_" ++ "ber" ++ pair_name ab ++ "y_sum") gs).
    { induction gs as [|g gs IH]; intros Hg; [reflexivity|].
      cbn [flat_map map]. rewrite filter_app, IH by (intros; apply Hg; now right).
      destruct (Hg g (or_introl eq_refl)) as [k ->].
      unfold NAME_bery_crosssum. rewrite map_map, filter_map_comm.
      rewrite (filter_ext _ (fun ab0 => pair_eqb ab0 ab))
        by (intros; apply pair_tag_test).
      rewrite (filter_unique pair_eqb)
        by (auto using pair_eqb_eq, NoDup_good_pairs; apply nth_In; assumption).
      reflexivity. }
    apply G. intros g Hg. apply g_included_In in Hg.
    destruct Hg as (k & _ & _ & ->). now exists k. }
  split; [exact E|]. rewrite E, length_app, length_map. simpl. lia.
Qed.

(** The second pair of goods, (1, 2), with one populated group. *)
Lemma variance_exog_layout_witness :
  exog_columns reference two_in_first_group 117 1
  = ["g1_ber1.2y_sum"; "ber1.2y_prod"].
Proof.
  destruct (variance_exog_layout reference two_in_first_group 117 1) as [H _].
  - repeat constructor; simpl; intuition discriminate.
  - simpl. lia.
  - rewrite H. reflexivity.
Defined.
Close Scope string_scope.

(** ** The LASSO step of the main program *)

Lemma combine_app_same {A B : Type} (a1 a2 : list A) (b1 b2 : list B) :
  length a1 = length b1 ->
  combine (a1 ++ a2) (b1 ++ b2) = combine a1 b1 ++ combine a2 b2.
Proof.
  revert b1. induction a1 as [|x a1 IH]; intros [|y b1] H; simpl in *;
    try discriminate; auto.
  f_equal. apply IH. congruence.
Qed.

Lemma prod_not_group_term cfg rb ngroup i c :
  (i < length (NAME_res_crossprod cfg))%nat ->
  In c (g_bery_included cfg rb ngroup) ->
  c <> nth i (NAME_bery_crossprod cfg) ""%string.
Proof.
  intros Hi Hc E. destruct (nth_NAME_bery_crossprod cfg i Hi) as [ab Eab].
  apply g_bery_included_In in Hc. destruct Hc as (k & j & _ & _ & Hj & Hc).
  pose proof (has_char_p_group_term k j cfg Hj) as Hp.
  rewrite <- Hc, E, Eab in Hp. rewrite !has_char_app in Hp. simpl in Hp.
  rewrite !orb_true_r in Hp. discriminate.
Qed.

(** The penalty weights [[1.0]*(n-1) + [0.0]] line up with the columns
    of [exog]: the cross-product term of the pair, which is the last
    column, is the one column with weight zero, and every group term has
    weight one. *)
Theorem lasso_penalty_exempts_cross_product cfg (rb : list (list Z)) ngroup i :
  (i < length (NAME_res_crossprod cfg))%nat ->
  let cols := exog_columns cfg rb ngroup i in
  let prod := nth i (NAME_bery_crossprod cfg) ""%string in
  length (penalty (length cols)) = length cols /\
  In (prod, 0) (combine cols (penalty (length cols))) /\
  forall c s, In (c, s) (combine cols (penalty (length cols))) ->
    (c = prod /\ s = 0) \/
    (c <> prod /\ s = 1 /\ In c (g_bery_included cfg rb ngroup)).
Proof.
  intros Hi cols prod. unfold cols, exog_columns. fold prod.
  set (X := filter (fun j => str_contains j (pair_tag cfg i))
                   (g_bery_included cfg rb ngroup)).
  assert (Ep : penalty (length (X ++ [prod])) = repeat 1 (length X) ++ [0]).
  { unfold penalty. rewrite length_app. simpl.
    now replace (length X + 1 - 1)%nat with (length X) by lia. }
  rewrite Ep. rewrite combine_app_same by now rewrite repeat_length.
  split; [rewrite !length_app, repeat_length; reflexivity|]. split.
  - apply in_or_app. right. now left.
  - intros c s H. apply in_app_or in H. destruct H as [H|H].
    + right. pose proof (in_combine_l _ _ _ _ H) as Hc.
      pose proof (in_combine_r _ _ _ _ H) as Hs.
      apply repeat_spec in Hs. unfold X in Hc. apply filter_In in Hc.
      destruct Hc as [Hc _]. repeat split; auto.
      now apply (prod_not_group_term cfg rb ngroup i).
    + left. destruct H as [H|[]]. now injection H as <- <-.
Qed.

Lemma lasso_penalty_exempts_cross_product_witness :
  combine (exog_columns reference two_in_first_group 117 1)
          (penalty (length (exog_columns reference two_in_first_group 117 1)))
  = [("g1_ber1.2y_sum"%string, 1); ("ber1.2y_prod"%string, 0)] /\
  In ("ber1.2y_prod"%string, 0)
     (combine (exog_columns reference two_in_first_group 117 1)
              (penalty (length (exog_columns reference two_in_first_group 117 1)))).
Proof.
  split; [reflexivity|].
  destruct (lasso_penalty_exempts_cross_product reference two_in_first_group 117 1)
    as (_ & H & _).
  - simpl. lia.
  - exact H.
Defined.

Lemma lasso_mask_filter (cols : list string) :
  forall (w : vec) (pre : list string),
    length w = length cols ->
    np_take (pre ++ cols)
      (map fst (filter (fun kv => if Req_dec_T (snd kv) 0 then false else true)
                       (combine (seq (length pre) (length w)) w)))
    = Some (map fst (filter (fun cw => if Req_dec_T (snd cw) 0 then false else true)
                            (combine cols w))).
Proof.
  induction cols as [|c cols IH]; intros [|x w] pre Hlen; try discriminate;
    [reflexivity|].
  simpl in Hlen. injection Hlen as Hlen.
  specialize (IH w (pre ++ [c]) Hlen).
  rewrite <- app_assoc, length_app, Nat.add_1_r in IH. cbn [app] in IH.
  cbn [length seq combine filter snd].
  destruct (Req_dec_T x 0); [exact IH|].
  cbn [map fst np_take]. rewrite IH.
  rewrite nth_error_app2 by lia. rewrite Nat.sub_diag. reflexivity.
Qed.

Lemma count_occ_filtered_absent (X : list string) (w : vec) name :
  ~ In name X ->
  count_occ string_dec
    (map fst (filter (fun cw => if Req_dec_T (snd cw) 0 then false else true)
                     (combine X w))) name = 0%nat.
Proof.
  intros Hn. apply count_occ_not_In. intros H. apply Hn.
  apply in_map_iff in H. destruct H as ([c x] & <- & H).
  apply filter_In in H. destruct H as [H _]. eapply in_combine_l; eauto.
Qed.

(** The mask that the main program stores for an equation: the columns
    of [exog] with a LASSO weight that is not zero.  It lists only columns
    of [exog], so that the selection [[col for col in mask if col in
    exog.columns]] on the same columns returns it unchanged; and it lists
    the cross-product term, once, exactly when the weight of that term is
    not zero. *)
Theorem lasso_mask_keeps_cross_product cfg (rb : list (list Z)) ngroup i (w : vec) :
  (i < length (NAME_res_crossprod cfg))%nat ->
  let cols := exog_columns cfg rb ngroup i in
  let prod := nth i (NAME_bery_crossprod cfg) ""%string in
  length w = length cols ->
  exists mask,
    lasso_mask w cols = Some mask /\
    (forall c, In c mask -> In c cols) /\
    masked mask cols = mask /\
    (nth (length cols - 1) w 0 <> 0 -> count_occ string_dec mask prod = 1%nat) /\
    (nth (length cols - 1) w 0 = 0 -> count_occ string_dec mask prod = 0%nat).
Proof.
  intros Hi cols prod Hlen. unfold lasso_mask, np_nonzero.
  pose proof (lasso_mask_filter cols w [] Hlen) as E. cbn [app length] in E.
  rewrite E. eexists. split; [reflexivity|].
  set (nz := fun cw : string * R => if Req_dec_T (snd cw) 0 then false else true).
  assert (Hsub : forall c, In c (map fst (filter nz (combine cols w))) ->
                           In c cols).
  { intros c H. apply in_map_iff in H. destruct H as ([c' x] & <- & H).
    apply filter_In in H. destruct H as [H _]. eapply in_combine_l; eauto. }
  split; [exact Hsub|]. split.
  { unfold masked. apply filter_all. intros c Hc. apply existsb_exists.
    exists c. split; [now apply Hsub|apply String.eqb_refl]. }
  unfold cols, exog_columns in *. fold prod in Hlen |- *.
  set (X := filter (fun j => str_contains j (pair_tag cfg i))
                   (g_bery_included cfg rb ngroup)) in *.
  assert (HX : ~ In prod X).
  { intros H. unfold X in H. apply filter_In in H. destruct H as [H _].
    now apply (prod_not_group_term cfg rb ngroup i prod Hi H). }
  rewrite length_app in Hlen. simpl in Hlen.
  assert (Ew : w = firstn (length X) w ++ [nth (length X) w 0]).
  { rewrite <- (firstn_skipn (length X) w) at 1. f_equal.
    pose proof (length_skipn (length X) w) as Ls.
    destruct (skipn (length X) w) as [|y [|y' l]] eqn:Es; simpl in Ls; try lia.
    f_equal. rewrite <- (firstn_skipn (length X) w) at 1.
    rewrite app_nth2 by (rewrite length_firstn; lia).
    rewrite length_firstn, Es.
    replace (length X - Nat.min (length X) (length w))%nat with 0%nat by lia.
    reflexivity. }
  rewrite length_app. simpl.
  replace (length X + 1 - 1)%nat with (length X) by lia.
  set (wl := nth (length X) w 0) in *.
  rewrite Ew, combine_app_same by (rewrite length_firstn; lia).
  rewrite filter_app, map_app, count_occ_app.
  rewrite count_occ_filtered_absent by exact HX.
  cbn [combine filter]. unfold nz. cbn [snd].
  split; intros Hw; destruct (Req_dec_T wl 0) as [E0|E0]; try contradiction;
    cbn [map fst count_occ]; auto.
  destruct (string_dec prod prod); [reflexivity|congruence].
Qed.

(** Weight zero on the group term, weight 3 on the cross-product term. *)
Lemma lasso_mask_keeps_cross_product_witness :
  lasso_mask [0; 3] (exog_columns reference two_in_first_group 117 1)
  = Some ["ber1.2y_prod"%string] /\
  exists mask,
    lasso_mask [0; 3] (exog_columns reference two_in_first_group 117 1)
    = Some mask /\
    count_occ string_dec mask "ber1.2y_prod"%string = 1%nat.
Proof.
  split.
  - unfold lasso_mask, np_nonzero. cbn [length seq combine filter snd].
    destruct (Req_dec_T 0 0) as [_|H]; [|congruence].
    destruct (Req_dec_T 3 0) as [H|_]; [lra|]. reflexivity.
  - destruct (lasso_mask_keeps_cross_product reference two_in_first_group 117 1
                [0; 3]) as (mask & H1 & _ & _ & H2 & _).
    + simpl. lia.
    + reflexivity.
    + exists mask. split; [exact H1|]. apply H2. simpl. lra.
Defined.

(** ** Budget shares *)

Lemma Rsum_div (l : vec) (x : R) :
  Rsum (map (fun v => v / x) l) = Rsum l / x.
Proof.
  induction l as [|a l IH]; simpl; [unfold Rdiv; ring|].
  rewrite IH. unfold Rdiv. ring.
Qed.

(** With total outlay the sum of the expenditures, as the main program
    sets it, the budget shares of an observation add up to one; when the
    expenditures are positive every share lies between zero and one. *)
Theorem budget_shares_add_up (s : vec) (s_non x : R) :
  x = total_outlay s s_non -> x <> 0 ->
  length (w_all_row s s_non x) = (length s + 1)%nat /\
  Rsum (w_all_row s s_non x) = 1 /\
  (Forall (fun v => 0 < v) (s ++ [s_non]) ->
   Forall (fun v => 0 < v <= 1) (w_all_row s s_non x)).
Proof.
  intros Hx Hne.
  assert (E : w_all_row s s_non x = map (fun v => v / x) (s ++ [s_non])).
  { unfold w_all_row. rewrite map_app. reflexivity. }
  split; [unfold w_all_row; rewrite length_app, length_map; reflexivity|].
  split.
  - rewrite E, Rsum_div. fold (total_outlay s s_non). rewrite <- Hx.
    field. exact Hne.
  - intros Hpos. rewrite E. apply Forall_map.
    assert (Hle : forall l, Forall (fun v => 0 < v) l ->
              0 <= Rsum l /\ Forall (fun v => v <= Rsum l) l).
    { induction 1 as [|a l Ha Hl [IH1 IH2]]; simpl.
      - split; [lra|constructor].
      - split; [lra|]. constructor; [lra|].
        eapply Forall_impl; [|exact IH2]. simpl. intros; lra. }
    destruct (Hle _ Hpos) as [H0 Hall].
    fold (total_outlay s s_non) in H0, Hall. rewrite <- Hx in H0, Hall.
    assert (Hxpos : 0 < x) by lra.
    rewrite Forall_forall in *. intros v Hv.
    specialize (Hpos v Hv). specialize (Hall v Hv). split.
    + now apply Rdiv_lt_0_compat.
    + apply Rmult_le_reg_r with x; [exact Hxpos|].
      replace (v / x * x) with v by (field; lra). lra.
Qed.

Lemma budget_shares_add_up_witness :
  Rsum (w_all_row [1; 2] 5 8) = 1.
Proof.
  apply (budget_shares_add_up [1; 2] 5 8).
  - unfold total_outlay. simpl. lra.
  - lra.
Defined.

(** ** Cluster numbers *)

Lemma int_of_str_str n : int_of_str (str n) = Some n.
Proof.
  unfold int_of_str, str.
  assert (E : NilZero.uint_of_string (NilEmpty.string_of_uint (Nat.to_uint n))
              = Some (Nat.to_uint n)).
  { unfold NilZero.uint_of_string.
    destruct (NilEmpty.string_of_uint (Nat.to_uint n)) eqn:Es.
    - exfalso. pose proof (NilEmpty.usu (Nat.to_uint n)) as H.
      rewrite Es in H. simpl in H. injection H as H.
      pose proof (Unsigned.of_to n) as Hn. rewrite <- H in Hn. simpl in Hn.
      subst n. discriminate.
    - rewrite <- Es. apply NilEmpty.usu. }
  rewrite E. simpl. now rewrite Unsigned.of_to.
Qed.

Lemma columns_of_one_from (row : list Z) :
  forall s,
    map snd (filter (fun vn => (fst vn =? 1)%Z)
               (combine row (map (fun i => ("g" ++ str (i + 1))%string)
                                 (seq s (length row)))))
    = map (fun i => ("g" ++ str (i + 1))%string)
          (map fst (filter (fun kv => (snd kv =? 1)%Z)
                           (combine (seq s (length row)) row))).
Proof.
  induction row as [|v row IH]; intros s; [reflexivity|].
  cbn [length seq map combine filter fst snd].
  destruct (v =? 1)%Z; cbn [map fst snd]; now rewrite IH.
Qed.

(** The cluster number of an observation is the number of the first
    group column in which it has the value 1, counted from one: taking the
    [g] off the column name and reading the rest as an integer returns
    that number.  An observation without a group raises. *)
Theorem cluster_number_of_first_group (g_row : list Z) :
  match positions_of_one g_row with
  | [] => cluster_of g_row = None
  | c :: _ => cluster_of g_row = Some (c + 1)%nat
  end.
Proof.
  unfold cluster_of, columns_of_one, NAME_g.
  rewrite (columns_of_one_from g_row 0). fold (positions_of_one g_row).
  destruct (positions_of_one g_row) as [|c l]; [reflexivity|].
  cbn [map]. unfold str_replace. cbn [append str_replace_from prefix].
  destruct (ascii_dec "g" "g"); [|congruence].
  rewrite prefix_empty. cbn [append String.length Nat.sub].
  rewrite str_replace_absent by (apply has_char_str; reflexivity).
  apply int_of_str_str.
Qed.

(** ** The table of standard errors *)

Lemma length_chunks n len (v : vec) : length (chunks n len v) = n.
Proof. revert v; induction n as [|n IH]; intros v; simpl; auto. Qed.

Lemma nth_chunks n len :
  forall (v : vec) t k,
    (t < n)%nat -> (k < len)%nat ->
    nth k (nth t (chunks n len v) []) 0 = nth (t * len + k) v 0.
Proof.
  induction n as [|n IH]; intros v t k Ht Hk; [lia|].
  destruct t as [|t]; simpl.
  - rewrite nth_firstn. destruct (Nat.ltb_spec k len); [reflexivity|lia].
  - rewrite IH by lia. rewrite nth_skipn. f_equal. lia.
Qed.

Lemma entry_transpose_chunks n len (v : vec) k t :
  (t < n)%nat -> (k < len)%nat ->
  entry (np_transpose len (chunks n len v)) k t = nth (t * len + k) v 0.
Proof.
  intros Ht Hk. unfold entry, np_transpose.
  rewrite (nth_map_seq (fun j => col j (chunks n len v)) len k) by assumption.
  rewrite nth_col. unfold entry. now apply nth_chunks.
Qed.

Lemma fill_store_exact width (results : list vec) :
  Forall (fun v => length v = width) results ->
  fill_store width results = Some results.
Proof.
  intros H. unfold fill_store.
  rewrite (map_opt_map _ (fun v => v)); [now rewrite map_id|].
  intros v Hv. rewrite Forall_forall in H. unfold np_broadcast_to.
  now rewrite (H v Hv), Nat.eqb_refl.
Qed.

(** The table [std_se_df] has one row per good and one column per
    household type: when every replication returned [K] standard
    deviations for each of the [T] types, type after type, entry (k, t) of
    the table is the standard deviation, over the replications, of the
    value that good [k] has under type [t]. *)
Theorem std_se_table_entries ntype k (results : list vec) :
  Forall (fun v => length v = (k * ntype)%nat) results ->
  exists tbl,
    std_se_table ntype k results = Some tbl /\
    is_matrix k ntype tbl /\
    forall a t, (a < k)%nat -> (t < ntype)%nat ->
      entry tbl a t = np_std (map (fun v => nth (t * k + a) v 0) results).
Proof.
  intros Hres. unfold std_se_table. rewrite fill_store_exact by assumption.
  unfold np_reshape, np_std_axis0.
  rewrite length_map, length_seq, (Nat.mul_comm k ntype), Nat.eqb_refl.
  eexists. split; [reflexivity|]. split.
  - unfold np_transpose. split; [now rewrite length_map, length_seq|].
    apply Forall_map. apply Forall_forall. intros j _.
    now rewrite length_col, length_chunks.
  - intros a t Ha Ht. rewrite entry_transpose_chunks by assumption.
    rewrite (nth_map_seq (fun j => np_std (col j results)) (ntype * k)) by nia.
    reflexivity.
Qed.

(** Two goods, two household types, two replications. *)
Lemma std_se_table_entries_witness :
  exists tbl,
    std_se_table 2 2 [[1; 2; 3; 4]; [1; 2; 3; 8]] = Some tbl /\
    entry tbl 1 1 = np_std [4; 8].
Proof.
  destruct (std_se_table_entries 2 2 [[1; 2; 3; 4]; [1; 2; 3; 8]])
    as (tbl & H1 & _ & H2).
  - repeat constructor.
  - exists tbl. split; [exact H1|]. apply (H2 1%nat 1%nat); lia.
Defined.

(** ** What one household type reports *)

Lemma nth_triu (m : matrix) k pos a b :
  length m = k -> nth_error (triu_indices k) pos = Some (a, b) ->
  nth pos (triu m) 0 = entry m a b.
Proof.
  intros Hl Hpos. unfold triu. rewrite Hl.
  apply nth_error_nth.
  rewrite nth_error_map, Hpos. reflexivity.
Qed.

(** The vectors a replication reports for one household type fit
    together: at the position of the pair (a, b) of goods the reported
    repaired covariance is the entry of the repaired matrix, and the
    reported correlation is that covariance divided by the product of the
    two reported standard deviations; for a good with positive repaired
    variance the reported standard deviation squares to that variance and
    its correlation with itself is one. *)
Theorem reported_moments_consistent nearestPD k v vl vu s :
  (forall m, is_matrix k k m -> is_matrix k k (nearestPD m)) ->
  type_stage nearestPD k v vl vu = Some s ->
  forall pos a b,
    nth_error (triu_indices k) pos = Some (a, b) ->
    nth pos (cov_pd_new s) 0 = entry (cov_matrix_pd s) a b /\
    nth pos (cor_new s) 0
    = nth pos (cov_pd_new s) 0 / (nth a (stdev_new s) 0 * nth b (stdev_new s) 0) /\
    (a = b -> 0 < entry (cov_matrix_pd s) a a ->
     nth a (stdev_new s) 0 * nth a (stdev_new s) 0 = nth pos (cov_pd_new s) 0 /\
     nth pos (cor_new s) 0 = 1).
Proof.
  intros Hpd Hs pos a b Hpos. unfold type_stage in Hs.
  destruct (fill_sym k v) as [cm|] eqn:Ecm; [|discriminate].
  destruct (fill_sym k vl); [|discriminate].
  destruct (fill_sym k vu); [|discriminate].
  injection Hs as <-. cbn [cov_pd_new cor_new stdev_new cov_matrix_pd].
  pose proof (Hpd _ (fill_sym_shape _ _ _ Ecm)) as Hm.
  set (pd := nearestPD cm) in *.
  assert (Hab : (a <= b < k)%nat).
  { apply nth_error_In in Hpos. now apply In_triu_indices in Hpos. }
  assert (E1 : nth pos (triu pd) 0 = entry pd a b).
  { apply (nth_triu pd k); auto. now destruct Hm. }
  assert (E2 : nth pos (triu (cov_to_cor pd)) 0
               = entry pd a b / (sqrt (entry pd a a) * sqrt (entry pd b b))).
  { rewrite (nth_triu (cov_to_cor pd) k pos a b);
      [|now apply length_cov_to_cor|assumption].
    apply (entry_cov_to_cor k); auto; lia. }
  rewrite E1, E2, !(nth_sqrt_diag k) by (auto; lia).
  split; [reflexivity|]. split; [reflexivity|].
  intros <- Hpos'. split.
  - apply sqrt_sqrt. lra.
  - rewrite sqrt_sqrt by lra. field. lra.
Qed.

Lemma reported_moments_consistent_witness :
  exists s,
    type_stage (fun m => m) 2 [4; 2; 9] [4; 2; 9] [4; 2; 9] = Some s /\
    nth 1 (cov_pd_new s) 0 = entry (cov_matrix_pd s) 0 1.
Proof.
  destruct (type_stage (fun m => m) 2 [4; 2; 9] [4; 2; 9] [4; 2; 9])
    as [s|] eqn:E; [|discriminate].
  exists s. split; [reflexivity|].
  apply (reported_moments_consistent (fun m => m) 2 [4; 2; 9] [4; 2; 9] [4; 2; 9] s);
    auto.
Defined.

(** ** The output of a replication *)

Lemma SUR_fit_combine fit eqs :
  SUR_fit fit eqs
  = combine (SUR_param_names eqs) (map fit (SUR_param_names eqs)).
Proof.
  unfold SUR_fit. induction (SUR_param_names eqs) as [|n l IH]; simpl; auto.
  now rewrite IH.
Qed.

(** With at most nine household types the name tests of [barten_results]
    find one coefficient per good. *)
Lemma mean_names_complete cfg (vals : vec) :
  NoDup (SHAREABLE cfg) -> (length (TYPE cfg) <= 9)%nat ->
  length vals = (length (SHAREABLE cfg) * mean_block cfg)%nat ->
  mean_coefficients_complete cfg (combine (SUR_param_names (mean_eqs cfg)) vals).
Proof.
  intros Hnd HT Hlen. split.
  - rewrite <- (length_map snd).
    rewrite (mean_names_values cfg _ 0) by
      (auto; intros k s0 Hk; now apply block_positions_single).
    now rewrite length_map, length_seq.
  - intros t Ht. rewrite <- (length_map snd).
    rewrite (mean_names_values cfg _ (1 + t)) by
      (auto; intros k s0 Hk; now apply block_positions_type).
    now rewrite length_map, length_seq.
Qed.

(** With at most nine goods the label test of the residual stage finds
    the coefficients of one equation. *)
Lemma length_eq_params_names cfg (vals : vec) i :
  NoDup (SHAREABLE cfg) -> (length (SHAREABLE cfg) <= 9)%nat ->
  (i < length (SHAREABLE cfg))%nat ->
  length vals = (length (SHAREABLE cfg) * mean_block cfg)%nat ->
  length (eq_params (combine (SUR_param_names (mean_eqs cfg)) vals) i)
  = mean_block cfg.
Proof.
  intros Hnd HK Hi Hlen. unfold eq_params.
  rewrite params_where_positions by now rewrite length_mean_names.
  rewrite length_map, SUR_param_names_mean.
  change (positions_where ?p ?x) with (positions_from p 0 x).
  rewrite (positions_from_concat_block _ (eq_names cfg) (mean_block cfg) i).
  - destruct (Nat.leb_spec 0 i); [|lia].
    destruct (Nat.ltb_spec i (0 + length (SHAREABLE cfg))); [|lia].
    cbn [andb]. apply length_seq.
  - intros k Hk. apply length_eq_names; auto. lia.
  - intros k x Hk Hx. unfold eq_names in Hx. apply in_map_iff in Hx.
    destruct Hx as (c & <- & Hc).
    apply eq_label_test; try lia.
    exact (has_char_q_mean_exog cfg _ c Hc).
Qed.

Lemma res_column_total cfg sample gt params i :
  Forall (design_shape (length (SHAREABLE cfg)) (length (DEMOG cfg))
                       (length (TYPE cfg))) sample ->
  (i < length (SHAREABLE cfg))%nat ->
  length (eq_params params i) = mean_block cfg ->
  in_range (length sample) gt ->
  exists r, res_column cfg sample gt params i = Some r.
Proof.
  intros Hs Hi Hb Hin. unfold res_column, fitted_residual.
  rewrite (predicted_spec cfg sample params (length (DEMOG cfg)) i Hs Hi Hb).
  rewrite vsub_map. unfold group_loop.
  set (fres := map _ sample).
  assert (Hlen : length fres = length sample) by (unfold fres; apply length_map).
  destruct (group_fold_untouched center fres gt
              ltac:(rewrite Hlen; exact Hin)
              (np_unique (map snd gt)) (repeat 0 (length sample))
              ltac:(now rewrite repeat_length))
    as (out & Hout & _).
  eauto.
Qed.

Lemma bery_row_total cfg (vals : vec) o :
  NoDup (SHAREABLE cfg) ->
  length vals = (length (SHAREABLE cfg) * mean_block cfg)%nat ->
  length (er_of o) = length (SHAREABLE cfg) ->
  exists b, bery_row (combine (SUR_param_names (mean_eqs cfg)) vals) o = Some b.
Proof.
  intros Hnd Hlen Her. unfold bery_row, np_multiply, bery_params.
  rewrite (mean_names_values cfg _ 0) by
    (auto; intros k s0 Hk; now apply block_positions_like).
  rewrite !length_map, length_seq, Her, Nat.eqb_refl. eauto.
Qed.

Lemma np_broadcast_to_exact n (v : vec) :
  length v = n -> np_broadcast_to n v = Some v.
Proof. intros H. unfold np_broadcast_to. now rewrite H, Nat.eqb_refl. Qed.

(** C8 (as the code has it).  When every mask of the three selections
    lists the cross-product term of its own equation (once), for one to
    nine shareable goods, none repeated, and one to nine household types,
    a replication that has fitted its mean equations on a working sample
    of at least one observation returns its tuple: the raw covariance,
    repaired covariance and correlation components have T*K*(K+1)/2
    entries each, the three standard-deviation components T*K entries
    each, and the three scale-index components T entries each.  Every
    component then has the width of its store in the main program and is
    stored unchanged.  The repair is taken to return a K*K matrix for a
    K*K matrix; every observation has K shares, K relative prices, D
    demographics and T+2 type indicators, and K+1 full budget shares. *)
Theorem replication_output_lengths nearestPD cfg sample gt g ngroup w_all
    fit_mean fit_c fit_l fit_u lasso_selec lasso_l lasso_u :
  let K := length (SHAREABLE cfg) in
  let T := length (TYPE cfg) in
  NoDup (SHAREABLE cfg) -> (0 < K <= 9)%nat -> (0 < T <= 9)%nat ->
  (forall m, is_matrix K K m -> is_matrix K K (nearestPD m)) ->
  sample <> [] ->
  Forall (design_shape K (length (DEMOG cfg)) T) sample ->
  in_range (length sample) gt ->
  is_matrix (length sample) (K + 1) w_all ->
  keeps_prod cfg lasso_selec -> keeps_prod cfg lasso_l -> keeps_prod cfg lasso_u ->
  exists s,
    bootstrap_from_mean nearestPD cfg sample gt g ngroup w_all fit_mean
                        fit_c fit_l fit_u lasso_selec lasso_l lasso_u
    = Some s /\
    length (out_cov s) = (T * (K * (K + 1) / 2))%nat /\
    length (out_cov_pd s) = (T * (K * (K + 1) / 2))%nat /\
    length (out_cor s) = (T * (K * (K + 1) / 2))%nat /\
    length (out_std s) = (T * K)%nat /\
    length (out_std_l s) = (T * K)%nat /\
    length (out_std_u s) = (T * K)%nat /\
    length (out_std_scale_s s) = T /\
    length (out_std_scale_sm s) = T /\
    length (out_std_scale_sf s) = T /\
    store_rows cfg s
    = Some [out_cov s; out_cov_pd s; out_cor s; out_std s;
            out_std_scale_s s; out_std_scale_sm s; out_std_scale_sf s;
            out_std_l s; out_std_u s] /\
    exists ts,
      map_opt (type_pass nearestPD cfg g (map t_of sample) ngroup
                         fit_c fit_l fit_u lasso_selec lasso_l lasso_u)
              (seq 0 T) = Some ts /\
      out_cov s = concat (map cov_val_new ts) /\
      out_cov_pd s = concat (map (fun x => triu (cov_matrix_pd x)) ts) /\
      out_cor s
      = concat (map (fun x => triu (cov_to_cor (cov_matrix_pd x))) ts) /\
      out_std s
      = concat (map (fun x => map sqrt (np_diag (cov_matrix_pd x))) ts).
Proof.
  intros K T Hnd HK HT Hpd Hne Hs Hin Hw Hc Hl Hu.
  set (names := SUR_param_names (mean_eqs cfg)).
  set (vals := map fit_mean names).
  assert (Hlen : length vals = (K * mean_block cfg)%nat).
  { unfold vals, names. rewrite length_map. now apply length_mean_names. }
  assert (Hpar : mean_boot_params cfg fit_mean = combine names vals)
    by apply SUR_fit_combine.
  (* the residuals of every good *)
  destruct (map_opt_total
              (res_column cfg sample gt (mean_boot_params cfg fit_mean))
              (seq 0 K)) as [res Hres].
  { intros i Hi. apply in_seq in Hi. rewrite Hpar.
    apply res_column_total; auto; [lia|].
    apply length_eq_params_names; auto; lia. }
  (* bery *)
  destruct (map_opt_total (bery_row (mean_boot_params cfg fit_mean)) sample)
    as [bery Hbery].
  { intros o Ho. rewrite Hpar. apply (bery_row_total cfg); auto.
    rewrite Forall_forall in Hs. now destruct (Hs o Ho) as (_ & He & _). }
  (* the loop over the types and the scale indices *)
  destruct (tail_output_lengths nearestPD cfg g (map t_of sample) ngroup
              fit_c fit_l fit_u lasso_selec lasso_l lasso_u
              (mean_boot_params cfg fit_mean) w_all (length sample))
    as (s & ts & Htail & Hts & E1 & E2 & E3 & E4
        & L1 & L2 & L3 & L4 & L5 & L6 & L7 & L8 & L9); auto.
  - lia.
  - rewrite Hpar. apply mean_names_complete; auto. lia.
  - destruct sample; [congruence|simpl; lia].
  - apply length_map.
  - exists s. split.
    + unfold bootstrap_from_mean. destruct sample; [congruence|].
      fold K. now rewrite Hres, Hbery.
    + fold K T in L1, L2, L3, L4, L5, L6, L7, L8, L9.
      repeat (split; [assumption|]). split.
      * unfold store_rows. fold K T. cbn [map_opt fst snd].
        rewrite !np_broadcast_to_exact
          by (rewrite ?L1, ?L2, ?L3, ?L4, ?L5, ?L6; lia || assumption).
        reflexivity.
      * (* the layout: type after type, each read off its repaired matrix *)
        exists ts. split; [exact Hts|]. split; [exact E1|].
        assert (Hlay : forall x, In x ts ->
                  cov_pd_new x = triu (cov_matrix_pd x) /\
                  cor_new x = triu (cov_to_cor (cov_matrix_pd x)) /\
                  stdev_new x = map sqrt (np_diag (cov_matrix_pd x))).
        { intros x Hx.
          destruct (Forall2_in_r _ _ _ _ (map_opt_Forall2 _ _ _ Hts) Hx)
            as (tt & _ & Hpass).
          exact (type_pass_layout _ _ _ _ _ _ _ _ _ _ _ _ _ Hpass). }
        rewrite E2, E3, E4.
        repeat split; f_equal; apply map_ext_in; intros x Hx;
          now destruct (Hlay x Hx) as (? & ? & ?).
Qed.

(** The eight observations with masks that keep the cross-product term
    of each equation. *)
Lemma replication_output_lengths_witness :
  exists s,
    bootstrap_from_mean (fun m => m) reference sample_designs sample_gt
      sample_g 117 sample_w_all (fun _ => 1)
      (fun _ _ => 1) (fun _ _ => 1) (fun _ _ => 1)
      prod_only_masks prod_only_masks prod_only_masks = Some s /\
    length (out_cov s) = 45%nat /\
    length (out_std s) = 15%nat /\
    length (out_std_scale_s s) = 3%nat.
Proof.
  assert (Hk : keeps_prod reference prod_only_masks).
  { intros tt i Htt Hi.
    change (tt < 3)%nat in Htt. change (i < 15)%nat in Hi.
    destruct tt as [|[|[|tt]]]; [| | |lia];
      (do 15 (destruct i as [|i]; [eexists; split; reflexivity|]); lia). }
  destruct (replication_output_lengths (fun m => m) reference sample_designs
              sample_gt sample_g 117 sample_w_all (fun _ => 1)
              (fun _ _ => 1) (fun _ _ => 1) (fun _ _ => 1)
              prod_only_masks prod_only_masks prod_only_masks)
    as (s & Hs & H1 & _ & _ & H4 & _ & _ & H7 & _).
  - repeat constructor; simpl; intuition discriminate.
  - simpl. lia.
  - simpl. lia.
  - intros m Hm. exact Hm.
  - discriminate.
  - unfold sample_designs. cbn [map].
    repeat (apply Forall_cons; [repeat split|]); apply Forall_nil.
  - intros r c Hrc. simpl in Hrc.
    repeat (destruct Hrc as [[= <- <-]|Hrc]; [simpl; lia|]). destruct Hrc.
  - split; [reflexivity|]. apply Forall_forall. intros r Hr.
    apply repeat_spec in Hr. subst r. reflexivity.
  - exact Hk.
  - exact Hk.
  - exact Hk.
  - exists s. auto.
Defined.

(** C8 as stated fails: with masks in which one equation per type keeps
    its cross-product term, the replication returns a raw covariance
    component of 3 entries instead of 45, which does not fit its store. *)
Lemma replication_output_lengths_counterexample :
  let out :=
    bootstrap_from_mean (fun m => m) reference sample_designs sample_gt
      sample_g 117 sample_w_all (fun _ => 1)
      (fun _ _ => 1) (fun _ _ => 1) (fun _ _ => 1)
      one_prod_masks one_prod_masks one_prod_masks in
  option_map (fun s => length (out_cov s)) out = Some 3%nat /\
  (3 <> length (TYPE reference)
        * (length (SHAREABLE reference) * (length (SHAREABLE reference) + 1) / 2))%nat /\
  option_map (store_rows reference) out = Some None.
Proof.
  cbv zeta. split; [lazy; reflexivity|]. split; [simpl; lia|].
  lazy. reflexivity.
Qed.
